(** * MenaceAssetPacker: schema builder, schema differ and extraction validator

    A shallow embedding of [tools/generate_schema.py], [diff_schemas.py] and
    [validate_extraction.py], and the properties of the specification that
    are settled on it.

    Conventions of the embedding.
    - A Python [str] is a [string]; every [ascii] stands for the code point
      of the same number (0..255), so the character classes below are
      Python's Unicode classes restricted to that range.
    - A Python [dict] with string keys is a [gmap string _], a [set] of
      strings a [gset string]; [sorted] is a merge sort by code point.
    - A function that can raise returns in an error type; a loop that Python
      runs by recursion takes fuel, with a theorem that the fuel given is
      enough. *)

From Stdlib Require Import String Ascii ZArith Lia List Bool.
From stdpp Require Import base option list gmap sets strings sorting pretty.

Local Open Scope string_scope.
Local Open Scope list_scope.

(** ** Python string operations *)

Module PyStr.

Definition nl : ascii := Ascii.ascii_of_nat 10.
Definition tab : ascii := Ascii.ascii_of_nat 9.
Definition NL : string := String nl "".

(** [s.startswith(p)] *)
Fixpoint startswith (p s : string) : bool :=
  match p, s with
  | EmptyString, _ => true
  | String a p', String b s' => Ascii.eqb a b && startswith p' s'
  | String _ _, EmptyString => false
  end.

(** [p in s] for strings: [p] occurs as a contiguous piece of [s]. *)
Fixpoint contains (p s : string) : bool :=
  startswith p s ||
  match s with
  | EmptyString => false
  | String _ s' => contains p s'
  end.

(** [s.endswith(p)] *)
Fixpoint endswith (p s : string) : bool :=
  String.eqb p s ||
  match s with
  | EmptyString => false
  | String _ s' => endswith p s'
  end.

(** [c in chars], a character among those of a string. *)
Fixpoint char_in (c : ascii) (chars : string) : bool :=
  match chars with
  | EmptyString => false
  | String a rest => Ascii.eqb a c || char_in c rest
  end.

(** [s.rstrip(chars)]: drop the longest tail made of characters of [chars]. *)
Fixpoint rstrip (chars s : string) : string :=
  match s with
  | EmptyString => EmptyString
  | String c s' =>
      match rstrip chars s' with
      | EmptyString => if char_in c chars then EmptyString else String c EmptyString
      | t => String c t
      end
  end.

Definition in_range (lo hi : nat) (c : ascii) : bool :=
  let n := Ascii.nat_of_ascii c in (lo <=? n)%nat && (n <=? hi)%nat.

(** [c.isupper()] for one character. *)
Definition isupper (c : ascii) : bool :=
  in_range 65 90 c || in_range 192 214 c || in_range 216 222 c.

(** [s[0:1].isupper()] *)
Definition head_isupper (s : string) : bool :=
  match s with
  | EmptyString => false
  | String c _ => isupper c
  end.

(** [s1 + s2 + ...] *)
Definition concat_all (l : list string) : string :=
  fold_right String.append "" l.

End PyStr.

(** ** The part of Python's [re] the program uses

    A backtracking matcher in continuation-passing style: alternatives are
    tried in the order Python tries them (left branch first, a greedy
    repetition longest first, a lazy one shortest first), so the first
    success is the match Python reports. *)

Module Re.
Import PyStr.

Inductive regex : Type :=
| Eps
| Chr (c : ascii)
| Cls (p : ascii -> bool)
| Seq (r1 r2 : regex)
| Alt (r1 r2 : regex)
| Star (greedy : bool) (r : regex)
| Grp (i : nat) (r : regex).

Definition groups := list (nat * string).

(** The text between two positions of one string, the second given by what
    is left of the string there. *)
Definition consumed (s s' : string) : string :=
  String.substring 0 (String.length s - String.length s') s.

(** The loop of a repetition: [step] matches the repeated expression once;
    [n] bounds the turns (each must use up text, so the length of the text
    is enough).  Greedy: another turn first, leaving the loop second.
    Lazy: the other way round. *)
Fixpoint star_loop {R : Type} (greedy : bool)
    (step : string -> groups -> (string -> groups -> option R) -> option R)
    (k : string -> groups -> option R)
    (n : nat) (s : string) (g : groups) {struct n} : option R :=
  let again (_ : unit) :=
    match n with
    | O => None
    | S n' =>
        step s g (fun s' g' =>
          if (String.length s' <? String.length s)%nat
          then star_loop greedy step k n' s' g' else None)
    end in
  if greedy then
    match again tt with
    | Some x => Some x
    | None => k s g
    end
  else
    match k s g with
    | Some x => Some x
    | None => again tt
    end.

Fixpoint exec {R : Type} (r : regex) (s : string) (g : groups)
    (k : string -> groups -> option R) {struct r} : option R :=
  match r with
  | Eps => k s g
  | Chr c =>
      match s with
      | String c' s' => if Ascii.eqb c c' then k s' g else None
      | EmptyString => None
      end
  | Cls p =>
      match s with
      | String c' s' => if p c' then k s' g else None
      | EmptyString => None
      end
  | Seq r1 r2 => exec r1 s g (fun s' g' => exec r2 s' g' k)
  | Alt r1 r2 =>
      match exec r1 s g k with
      | Some x => Some x
      | None => exec r2 s g k
      end
  | Star greedy r1 => star_loop greedy (exec r1) k (String.length s) s g
  | Grp i r1 => exec r1 s g (fun s' g' => k s' ((i, consumed s s') :: g'))
  end.

(** What the matcher computes, as a relation: [sem r s g s' g'] when [r]
    matches a front part of [s], leaving [s'], and takes the groups from
    [g] to [g']. *)
Inductive star_sem (step : string -> groups -> string -> groups -> Prop)
    : string -> groups -> string -> groups -> Prop :=
| star_done s g : star_sem step s g s g
| star_more s g s1 g1 s' g' :
    step s g s1 g1 -> star_sem step s1 g1 s' g' -> star_sem step s g s' g'.

Fixpoint sem (r : regex) (s : string) (g : groups) (s' : string) (g' : groups)
    : Prop :=
  match r with
  | Eps => s' = s /\ g' = g
  | Chr c => s = String c s' /\ g' = g
  | Cls p => exists c, s = String c s' /\ p c = true /\ g' = g
  | Seq r1 r2 => exists s1 g1, sem r1 s g s1 g1 /\ sem r2 s1 g1 s' g'
  | Alt r1 r2 => sem r1 s g s' g' \/ sem r2 s g s' g'
  | Star _ r1 => star_sem (sem r1) s g s' g'
  | Grp i r1 => exists g1, sem r1 s g s' g1 /\ g' = (i, consumed s s') :: g1
  end.

(** Every character of a string is in a class. *)
Fixpoint all_chars (p : ascii -> bool) (s : string) : bool :=
  match s with
  | EmptyString => true
  | String c s' => p c && all_chars p s'
  end.

(** A match object: where it starts, its groups, and the text after it. *)
Record rmatch : Type := MkMatch {
  m_start : nat;
  m_groups : groups;
  m_text : string;
  m_rest : string
}.

(** [m.group(i)] *)
Fixpoint lookup_group (i : nat) (g : groups) : option string :=
  match g with
  | [] => None
  | (j, v) :: g' => if Nat.eqb i j then Some v else lookup_group i g'
  end.

Definition group (i : nat) (m : rmatch) : string :=
  default "" (lookup_group i (m_groups m)).

(** [re.match(r, s)]: a match at the start of [s] only. *)
Definition match_at (r : regex) (pos : nat) (s : string) : option rmatch :=
  exec r s [] (fun s' g => Some (MkMatch pos g (consumed s s') s')).

(** [re.search(r, s)]: the match at the first position that has one. *)
Fixpoint search_from (r : regex) (pos : nat) (s : string) : option rmatch :=
  match match_at r pos s with
  | Some m => Some m
  | None =>
      match s with
      | EmptyString => None
      | String _ s' => search_from r (S pos) s'
      end
  end.

Definition search (r : regex) (s : string) : option rmatch := search_from r 0 s.

(** [re.finditer(r, s)] for a pattern that matches no empty text (every
    pattern of the program starts with literal characters): each search
    resumes where the previous match ended. *)
Fixpoint finditer_from (fuel : nat) (r : regex) (pos : nat) (s : string) : list rmatch :=
  match fuel with
  | O => []
  | S fuel' =>
      match search_from r pos s with
      | None => []
      | Some m =>
          if (String.length (m_rest m) <? String.length s)%nat
          then m :: finditer_from fuel' r (m_start m + String.length (m_text m)) (m_rest m)
          else [m]
      end
  end.

Definition finditer (r : regex) (s : string) : list rmatch :=
  finditer_from (S (String.length s)) r 0 s.

(** The property of the matches of a pattern that [finditer] hands on:
    each is a match of the relation at a tail [s0] of the text. *)
Definition match_of (r : regex) (s : string) (m : rmatch) : Prop :=
  exists pre s0 s', s = pre +:+ s0 /\ sem r s0 [] s' (m_groups m) /\
    m_rest m = s' /\ m_text m = consumed s0 s'.

(** Pattern syntax. *)
Fixpoint lit (s : string) : regex :=
  match s with
  | EmptyString => Eps
  | String c s' => Seq (Chr c) (lit s')
  end.

Definition plus (greedy : bool) (r : regex) : regex := Seq r (Star greedy r).

Fixpoint cat (l : list regex) : regex :=
  match l with
  | [] => Eps
  | [r] => r
  | r :: l' => Seq r (cat l')
  end.

(** [\w], [\s], [\d] on str patterns, for code points below 256. *)
Definition is_digit (c : ascii) : bool := in_range 48 57 c.

Definition is_word (c : ascii) : bool :=
  in_range 48 57 c || in_range 65 90 c || in_range 97 122 c || Ascii.eqb c "_" ||
  in_range 170 170 c || in_range 178 179 c || in_range 181 181 c ||
  in_range 185 186 c || in_range 188 190 c || in_range 192 214 c ||
  in_range 216 246 c || in_range 248 255 c.

Definition is_space (c : ascii) : bool :=
  in_range 9 13 c || in_range 28 32 c || in_range 133 133 c || in_range 160 160 c.

(** [.] without and with [re.DOTALL]. *)
Definition is_not_nl (c : ascii) : bool := negb (Ascii.eqb c nl).
Definition is_any (c : ascii) : bool := true.

Definition word : regex := Cls is_word.
Definition ws : regex := Cls is_space.
Definition dot : regex := Cls is_not_nl.
Definition any : regex := Cls is_any.

End Re.

(** ** [sorted] on strings *)

Module PySort.

(** [sorted(l)] for a list of strings: by code point, [String.le]. *)
Definition sorted (l : list string) : list string := merge_sort String.le l.

(** [sorted(X)] for a set of strings. *)
Definition sorted_set (X : gset string) : list string := sorted (elements X).

End PySort.

(** ** tools/generate_schema.py *)

Module GenerateSchema.
Import PyStr Re PySort.

(** A parsed field: the dict with keys ["type"], ["name"], ["offset"]. *)
Record RawField : Type := MkRawField {
  rf_type : string;
  rf_name : string;
  rf_offset : string
}.

(** What [parse_class_from_dump] returns. *)
Record ClassInfo : Type := MkClassInfo {
  ci_name : string;
  ci_base : option string;
  ci_is_abstract : bool;
  ci_fields : list RawField
}.

(** [HEAD.*?\n\{\n(.*?)\n\}] under [re.DOTALL], the body in group [i]. *)
Definition body_tail (i : nat) : regex :=
  cat [Star false any; Chr nl; Chr "{"; Chr nl; Grp i (Star false any); Chr nl; Chr "}"].

(** A declaration block: the rest of the header line, the opening brace on
    its own line, the body, and a closing brace at the start of a line. *)
Definition block (hdr body rest : string) : string :=
  hdr +:+ String nl (String "{" (String nl (body +:+ String nl (String "}" rest)))).

Definition starts_outside (p : ascii -> bool) (s : string) : Prop :=
  match s with
  | String c _ => p c = false
  | EmptyString => True
  end.

(** [rf"public class {re.escape(class_name)}\s.*?\n\{{\n(.*?)\n\}}"] and
    its abstract twin. *)
Definition class_pattern (kw class_name : string) : regex :=
  cat [lit kw; lit class_name; ws; body_tail 1].

(** [rf"public abstract class {re.escape(class_name)}\s"] *)
Definition abstract_pattern (class_name : string) : regex :=
  cat [lit "public abstract class "; lit class_name; ws].

(** [rf"public class {re.escape(class_name)}.*?:\s+(\w+)"] and its abstract
    twin (no [re.DOTALL]: the dot stops at a newline). *)
Definition base_pattern (kw class_name : string) : regex :=
  cat [lit kw; lit class_name; Star false dot; Chr ":"; plus true ws;
       Grp 1 (plus true word)].

Definition is_hex (c : ascii) : bool :=
  in_range 48 57 c || in_range 65 70 c || in_range 97 102 c.

(** [[\w<>\[\]\.]] *)
Definition is_type_char (c : ascii) : bool := is_word c || char_in c "<>[].".

(** [r"(?:public|private)\s+([\w<>\[\]\.]+)\s+(\w+);\s+//\s+0x([0-9A-Fa-f]+)"] *)
Definition field_pattern : regex :=
  cat [Alt (lit "public") (lit "private"); plus true ws;
       Grp 1 (plus true (Cls is_type_char)); plus true ws;
       Grp 2 (plus true word); Chr ";"; plus true ws; lit "//"; plus true ws;
       lit "0x"; Grp 3 (plus true (Cls is_hex))].

(** The first pattern of the list that has a match. *)
Fixpoint first_search (patterns : list regex) (content : string) : option rmatch :=
  match patterns with
  | [] => None
  | p :: rest =>
      match search p content with
      | Some m => Some m
      | None => first_search rest content
      end
  end.

(** The filter of the field loop of [parse_class_from_dump]. *)
Definition class_field_skipped (field_name offset : string) : bool :=
  startswith "NativeFieldInfoPtr" field_name ||
  startswith "Il2Cpp" field_name ||
  contains "k__BackingField" field_name ||
  String.eqb offset "0".

Definition class_fields_of (ms : list rmatch) : list RawField :=
  flat_map (fun m =>
    let field_type := group 1 m in
    let field_name := group 2 m in
    let offset := group 3 m in
    if class_field_skipped field_name offset then []
    else [MkRawField field_type field_name ("0x" +:+ offset)]) ms.

Definition parse_class_from_dump (content class_name : string)
    (allow_abstract : bool) : option ClassInfo :=
  match first_search [class_pattern "public class " class_name;
                      class_pattern "public abstract class " class_name] content with
  | None => None
  | Some m =>
      let class_body := group 1 m in
      let is_abstract :=
        match search (abstract_pattern class_name) content with
        | Some _ => true
        | None => false
        end in
      let base_class :=
        option_map (group 1)
          (first_search [base_pattern "public class " class_name;
                         base_pattern "public abstract class " class_name] content) in
      let fields := class_fields_of (finditer field_pattern class_body) in
      Some (MkClassInfo class_name base_class is_abstract fields)
  end.

Definition stop_bases : gset string :=
  {[ "ScriptableObject"; "MonoBehaviour"; "Object"; "SerializedScriptableObject" ]}.

(** [collect_all_fields], the recursion run on fuel.  The set [visited] is
    the one object the Python calls share, so it is threaded through; the
    third component lists, in call order, the names handed to
    [parse_class_from_dump].  [None] is fuel running out: the walk would
    nest more than [fuel] calls below the first.  Python bounds the
    nesting as well and raises [RecursionError] there; that outcome is the
    subject of [collect_all_fields_limited] below. *)
Fixpoint collect_all_fields_rec (fuel : nat) (content class_name : string)
    (visited : gset string) : option (list RawField * gset string * list string) :=
  if decide (class_name ∈ visited) then Some ([], visited, [])
  else
    let visited := {[ class_name ]} ∪ visited in
    match parse_class_from_dump content class_name true with
    | None => Some ([], visited, [class_name])
    | Some class_info =>
        match ci_base class_info with
        | Some base =>
            if negb (String.eqb base "") && negb (bool_decide (base ∈ stop_bases)) then
              match fuel with
              | O => None
              | S fuel' =>
                  match collect_all_fields_rec fuel' content base visited with
                  | None => None
                  | Some (inherited, visited', parsed) =>
                      Some (inherited ++ ci_fields class_info, visited',
                            class_name :: parsed)
                  end
              end
            else Some (ci_fields class_info, visited, [class_name])
        | None => Some (ci_fields class_info, visited, [class_name])
        end
    end.

(** Every name the walk can reach after the first is a piece of the dump;
    there are at most this many pieces. *)
Definition walk_fuel (content : string) : nat :=
  S (S (String.length content) * S (String.length content)).

Definition collect_all_fields_run (content class_name : string) :=
  collect_all_fields_rec (walk_fuel content) content class_name ∅.

(** What [collect_all_fields] returns when the recursion limit leaves room
    for the walk. *)
Definition collect_all_fields (content class_name : string) : list RawField :=
  match collect_all_fields_run content class_name with
  | Some (fields, _, _) => fields
  | None => []
  end.

(** The names one walk hands to [parse_class_from_dump], in call order. *)
Definition walk_names (content class_name : string) : list string :=
  match collect_all_fields_run content class_name with
  | Some (_, _, parsed) => parsed
  | None => []
  end.

(** How a call of [collect_all_fields] ends: with the list it returns (and
    the set [visited] as the call leaves it, and the names it parsed), or
    in the [RecursionError] of the interpreter. *)
Inductive walk_end : Type :=
| Returned (fields : list RawField) (visited : gset string) (parsed : list string)
| RecursionError.

(** [collect_all_fields] under the recursion limit.  Every call takes a
    frame (and, while it runs, the frames of the calls it makes itself);
    [frames] is the number of nested calls of the function the limit still
    leaves room for.  A call made when there is room for none raises
    [RecursionError], which no caller catches. *)
Fixpoint collect_all_fields_limited (frames : nat) (content class_name : string)
    (visited : gset string) : walk_end :=
  match frames with
  | O => RecursionError
  | S frames' =>
      if decide (class_name ∈ visited) then Returned [] visited []
      else
        let visited := {[ class_name ]} ∪ visited in
        match parse_class_from_dump content class_name true with
        | None => Returned [] visited [class_name]
        | Some class_info =>
            match ci_base class_info with
            | Some base =>
                if negb (String.eqb base "") && negb (bool_decide (base ∈ stop_bases)) then
                  match collect_all_fields_limited frames' content base visited with
                  | RecursionError => RecursionError
                  | Returned inherited visited' parsed =>
                      Returned (inherited ++ ci_fields class_info) visited'
                        (class_name :: parsed)
                  end
                else Returned (ci_fields class_info) visited [class_name]
            | None => Returned (ci_fields class_info) visited [class_name]
            end
        end
  end.

(** All pieces of a text: [content[i:i+n]] for every start and length. *)
Definition pieces (content : string) : list string :=
  flat_map (fun i => map (fun n => String.substring i n content)
                       (seq 0 (S (String.length content))))
    (seq 0 (S (String.length content))).

(** [get_inheritance_chain]: the [while] loop on fuel; every turn appends a
    name that is a new key of [hierarchy], so its size is fuel enough. *)
Fixpoint chain_loop (fuel : nat) (hierarchy : gmap string string)
    (chain : list string) (current : string) : list string :=
  match fuel with
  | O => chain
  | S fuel' =>
      match hierarchy !! current with
      | Some parent =>
          if String.eqb parent "" then chain
          else if bool_decide (parent ∈ chain) then chain
          else chain_loop fuel' hierarchy (chain ++ [parent]) parent
      | None => chain
      end
  end.

Definition get_inheritance_chain (class_name : string)
    (hierarchy : gmap string string) : list string :=
  rev (chain_loop (S (size hierarchy)) hierarchy [class_name] class_name).

(** *** Type classification *)

Definition PRIMITIVE_TYPES : gset string :=
  {[ "int"; "Int32"; "float"; "Single"; "bool"; "Boolean";
     "byte"; "Byte"; "short"; "Int16"; "long"; "Int64";
     "double"; "Double" ]}.

Definition UNITY_ASSET_TYPES : gset string :=
  {[ "Sprite"; "Texture2D"; "Material"; "Mesh"; "AudioClip";
     "AnimationClip"; "GameObject"; "RuntimeAnimatorController" ]}.

Definition LOCALIZATION_TYPES : gset string :=
  {[ "LocalizedLine"; "LocalizedMultiLine" ]}.

(** [r"List<(\w+)>"] *)
Definition list_pattern : regex :=
  cat [lit "List<"; Grp 1 (plus true word); Chr ">"].

Definition classify_field (field_type : string)
    (known_enums known_structs known_templates : gset string)
    : string * option string :=
  let base := rstrip "[]" field_type in
  if bool_decide (base ∈ PRIMITIVE_TYPES) then ("primitive", None)
  else if String.eqb base "string" || String.eqb base "String" then ("string", None)
  else if bool_decide (base ∈ known_enums) then ("enum", None)
  else if bool_decide (base ∈ known_structs) then ("struct", None)
  else if bool_decide (base ∈ LOCALIZATION_TYPES) then ("localization", None)
  else if bool_decide (base ∈ UNITY_ASSET_TYPES) then ("unity_asset", None)
  else
    match match_at list_pattern 0 field_type with
    | Some list_match => ("collection", Some (group 1 list_match))
    | None =>
        if contains "[]" field_type then ("collection", Some base)
        else if endswith "Template" base && bool_decide (base ∈ known_templates)
        then ("reference", None)
        else if head_isupper base &&
                negb (existsb (fun c => contains (String c "") base)
                        (list_ascii_of_string "<>[]."))
        then ("reference", None)
        else ("unknown", None)
    end.

(** *** Numbers in the dump *)

Definition digit_of (base : Z) (c : ascii) : option Z :=
  let n := Z.of_nat (Ascii.nat_of_ascii c) in
  let v := if in_range 48 57 c then Some (n - 48)%Z
           else if in_range 97 122 c then Some (n - 87)%Z
           else if in_range 65 90 c then Some (n - 55)%Z
           else None in
  match v with
  | Some d => if (d <? base)%Z then Some d else None
  | None => None
  end.

Fixpoint digits_value (base : Z) (acc : Z) (s : string) : option Z :=
  match s with
  | EmptyString => Some acc
  | String c s' =>
      match digit_of base c with
      | Some d => digits_value base (acc * base + d)%Z s'
      | None => None
      end
  end.

Definition number_value (base : Z) (s : string) : option Z :=
  match s with
  | EmptyString => None
  | _ => digits_value base 0 s
  end.

(** [int(s, 16)] on a run of hex digits with or without the [0x] prefix;
    [None] is [ValueError]. *)
Definition int16 (s : string) : option Z :=
  match s with
  | String "0" (String "x" d) => number_value 16 d
  | String "0" (String "X" d) => number_value 16 d
  | _ => number_value 16 s
  end.

(** [sys.int_info.default_max_str_digits]: the most digits [int] converts
    from a decimal string. *)
Definition max_str_digits : Z := 4300.

(** The digits of a decimal literal: what follows the sign. *)
Definition digits_of (s : string) : string :=
  match s with
  | String "-" d => d
  | _ => s
  end.

(** [int(s)] on an optional minus sign and decimal digits; [None] is
    [ValueError], which CPython raises for a text that is no number and for
    a number of more than [max_str_digits] digits (leading zeros count, the
    sign does not).  [int(s, 16)] has no such limit. *)
Definition int10 (s : string) : option Z :=
  if (max_str_digits <? Z.of_nat (String.length (digits_of s)))%Z then None
  else
    match s with
    | String "-" d => option_map Z.opp (number_value 10 d)
    | _ => number_value 10 s
    end.

(** *** Enums, structs, templates *)

Record EnumDef : Type := MkEnumDef {
  ed_underlying_type : string;
  ed_values : gmap string Z
}.

Record StructDef : Type := MkStructDef {
  sd_size_bytes : Z;
  sd_fields : list RawField
}.

(** [r"public enum (\w+).*?\n\{\n(.*?)\n\}"] and the struct twin, under
    [re.DOTALL]. *)
Definition decl_pattern (kw : string) : regex :=
  cat [lit kw; Grp 1 (plus true word); body_tail 2].

Definition enum_pattern : regex := decl_pattern "public enum ".
Definition struct_pattern : regex := decl_pattern "public struct ".

(** [r"public (\w+) value__;"] *)
Definition underlying_pattern : regex :=
  cat [lit "public "; Grp 1 (plus true word); lit " value__;"].

(** [r"public const \w+ (\w+) = (-?\d+);"] *)
Definition value_pattern : regex :=
  cat [lit "public const "; plus true word; Chr " "; Grp 1 (plus true word);
       lit " = "; Grp 2 (Seq (Alt (Chr "-") Eps) (plus true (Cls is_digit)));
       Chr ";"].

Fixpoint enum_values (ms : list rmatch) (values : gmap string Z)
    : option (gmap string Z) :=
  match ms with
  | [] => Some values
  | vm :: rest =>
      match int10 (group 2 vm) with
      | Some v => enum_values rest (<[group 1 vm := v]> values)
      | None => None
      end
  end.

Fixpoint parse_enum_decls (ms : list rmatch) (enums : gmap string EnumDef)
    : option (gmap string EnumDef) :=
  match ms with
  | [] => Some enums
  | m :: rest =>
      let enum_name := group 1 m in
      let enum_body := group 2 m in
      let underlying :=
        match search underlying_pattern enum_body with
        | Some um => group 1 um
        | None => "int"
        end in
      match enum_values (finditer value_pattern enum_body) ∅ with
      | None => None
      | Some values =>
          if bool_decide (values = ∅) then parse_enum_decls rest enums
          else parse_enum_decls rest (<[enum_name := MkEnumDef underlying values]> enums)
      end
  end.

(** [None] is the [ValueError] of [int], raised for a constant of more
    than [max_str_digits] digits. *)
Definition parse_all_enums (content : string) : option (gmap string EnumDef) :=
  parse_enum_decls (finditer enum_pattern content) ∅.

(** [rf"(?:public|private) static\s+.*\s+{re.escape(field_name)};"] *)
Definition static_pattern (field_name : string) : regex :=
  cat [Alt (lit "public") (lit "private"); lit " static"; plus true ws;
       Star true dot; plus true ws; lit field_name; Chr ";"].

Definition struct_field_skipped (struct_body field_name : string) : bool :=
  startswith "NativeFieldInfoPtr" field_name ||
  startswith "Il2Cpp" field_name ||
  contains "k__BackingField" field_name ||
  match search (static_pattern field_name) struct_body with
  | Some _ => true
  | None => false
  end.

Definition struct_fields_of (struct_body : string) (ms : list rmatch) : list RawField :=
  flat_map (fun fm =>
    let field_type := group 1 fm in
    let field_name := group 2 fm in
    let offset := group 3 fm in
    if struct_field_skipped struct_body field_name then []
    else [MkRawField field_type field_name ("0x" +:+ offset)]) ms.

(** The fields parsed from the body of one struct declaration. *)
Definition struct_fields_in (m : rmatch) : list RawField :=
  struct_fields_of (group 2 m) (finditer field_pattern (group 2 m)).

Fixpoint parse_struct_decls (ms : list rmatch) (structs : gmap string StructDef)
    : option (gmap string StructDef) :=
  match ms with
  | [] => Some structs
  | m :: rest =>
      let struct_name := group 1 m in
      let fields := struct_fields_in m in
      match last fields with
      | None => parse_struct_decls rest structs
      | Some last_field =>
          match int16 (rf_offset last_field) with
          | None => None
          | Some last_offset =>
              let estimated_size := (last_offset + 4)%Z in
              parse_struct_decls rest
                (<[struct_name := MkStructDef estimated_size fields]> structs)
          end
      end
  end.

(** [None] is the [ValueError] of [int], which the shape of the field
    pattern rules out (see [struct_size_from_last_field]). *)
Definition parse_all_structs (content : string) : option (gmap string StructDef) :=
  parse_struct_decls (finditer struct_pattern content) ∅.

(** The size of a struct entry is the offset of its last field plus four. *)
Definition sized_by_last_field (sd : StructDef) : Prop :=
  exists last_field last_offset,
    last (sd_fields sd) = Some last_field /\
    int16 (rf_offset last_field) = Some last_offset /\
    sd_size_bytes sd = (last_offset + 4)%Z.

(** [r"public class (\w+Template)\s"] and its abstract twin. *)
Definition template_name_pattern (kw : string) : regex :=
  cat [lit kw; Grp 1 (Seq (plus true word) (lit "Template")); ws].

(** [re.findall] for a pattern with one group. *)
Definition findall1 (r : regex) (content : string) : list string :=
  map (group 1) (finditer r content).

Definition template_noise (t : string) : bool :=
  contains "." t || contains "Uxml" t || String.eqb t "DataTemplateLoader".

Definition parse_all_templates (content : string) : list string :=
  let template_names : gset string :=
    list_to_set (findall1 (template_name_pattern "public class ") content) ∪
    list_to_set (findall1 (template_name_pattern "public abstract class ") content) in
  sorted_set (filter (fun t => template_noise t = false) template_names).

(** [r"public class (\w+Template)\s+:\s+(\w+)"] and its abstract twin. *)
Definition hierarchy_pattern (kw : string) : regex :=
  cat [lit kw; Grp 1 (Seq (plus true word) (lit "Template")); plus true ws;
       Chr ":"; plus true ws; Grp 2 (plus true word)].

Definition hierarchy_step (template_names : gset string)
    (hierarchy : gmap string string) (m : rmatch) : gmap string string :=
  let child := group 1 m in
  let parent := group 2 m in
  if bool_decide (child ∈ template_names) then
    <[child :=
        if endswith "Template" parent ||
           String.eqb parent "ScriptableObject" ||
           String.eqb parent "SerializedScriptableObject"
        then parent else parent]> hierarchy
  else hierarchy.

Definition build_template_hierarchy (content : string)
    (template_names : gset string) : gmap string string :=
  fold_left (fun hierarchy pattern =>
               fold_left (hierarchy_step template_names)
                 (finditer pattern content) hierarchy)
    [hierarchy_pattern "public class "; hierarchy_pattern "public abstract class "]
    ∅.

(** *** Schema assembly *)

(** A classified field of the schema. *)
Record FieldDef : Type := MkFieldDef {
  fd_name : string;
  fd_type : string;
  fd_offset : string;
  fd_category : string;
  fd_element_type : option string
}.

Record Template : Type := MkTemplate {
  t_base_class : option string;
  t_is_abstract : bool;
  t_fields : list FieldDef
}.

(** A field with another offset, a template with other fields. *)
Definition with_offset (f : FieldDef) (off : string) : FieldDef :=
  MkFieldDef (fd_name f) (fd_type f) off (fd_category f) (fd_element_type f).

Definition with_fields (t : Template) (fields : list FieldDef) : Template :=
  MkTemplate (t_base_class t) (t_is_abstract t) fields.

Definition classify_entry (known_enums known_structs known_templates : gset string)
    (f : RawField) : FieldDef :=
  let '(category, element_type) :=
    classify_field (rf_type f) known_enums known_structs known_templates in
  MkFieldDef (rf_name f) (rf_type f) (rf_offset f) category
    (match element_type with
     | Some e => if String.eqb e "" then None else Some e
     | None => None
     end).

(** One turn of the template loop of [build_schema]. *)
Definition add_template (content : string)
    (known_enums known_structs known_templates : gset string)
    (templates : gmap string Template) (tname : string) : gmap string Template :=
  match parse_class_from_dump content tname true with
  | None => templates
  | Some class_info =>
      let all_fields := collect_all_fields content tname in
      let classified_fields :=
        map (classify_entry known_enums known_structs known_templates) all_fields in
      <[tname := MkTemplate (ci_base class_info) (ci_is_abstract class_info)
                   classified_fields]> templates
  end.

(** The template loop of [build_schema]. *)
Definition build_templates (content : string) (template_names : list string)
    (known_enums known_structs : gset string) : gmap string Template :=
  fold_left
    (add_template content known_enums known_structs (list_to_set template_names))
    template_names ∅.

(** The inheritance loop of [build_schema]. *)
Definition build_inheritance (template_names : list string)
    (hierarchy : gmap string string) : gmap string (list string) :=
  fold_left (fun inheritance tname =>
    if bool_decide (tname ∈ dom hierarchy)
    then <[tname := get_inheritance_chain tname hierarchy]> inheritance
    else inheritance) template_names ∅.

(** The schema, without the file hash and the embedded classes (no
    property below reads them). *)
Record Schema : Type := MkSchema {
  s_version : string;
  s_enums : gmap string EnumDef;
  s_structs : gmap string StructDef;
  s_templates : gmap string Template;
  s_inheritance : gmap string (list string)
}.

Definition build_schema (content : string) : option Schema :=
  enums ← parse_all_enums content;
  structs ← parse_all_structs content;
  let template_names := parse_all_templates content in
  let hierarchy := build_template_hierarchy content (list_to_set template_names) in
  let templates := build_templates content template_names (dom enums) (dom structs) in
  let inheritance := build_inheritance template_names hierarchy in
  Some (MkSchema "1.0.0" enums structs templates inheritance).

End GenerateSchema.

(** ** diff_schemas.py *)

Module DiffSchemas.
Import PyStr PySort GenerateSchema.

(** A report line: [(level, message)]. *)
Definition record : Type := string * string.

(** [if X:] for a set. *)
Definition nonempty (X : gset string) : bool := negb (bool_decide (X = ∅)).

(** [len(X)] printed in a message. *)
Definition len_str (X : gset string) : string := pretty (size X).

(** The summary line and one [INFO] line per name, when the set has names. *)
Definition name_section (level summary : string) (names : gset string)
    (line : string -> string) : list record :=
  if nonempty names
  then (level, len_str names +:+ summary) ::
       map (fun name => ("INFO", line name)) (sorted_set names)
  else [].

Definition enum_changes (name : string) (old_vals new_vals : gmap string Z)
    : list record :=
  let added_v := dom new_vals ∖ dom old_vals in
  let removed_v := dom old_vals ∖ dom new_vals in
  let changed_v : gset string :=
    filter (fun k => old_vals !! k ≠ new_vals !! k) (dom old_vals ∩ dom new_vals) in
  if nonempty added_v || nonempty removed_v || nonempty changed_v then
    ("CHG", name +:+ ": +" +:+ len_str added_v +:+ " -" +:+ len_str removed_v
              +:+ " ~" +:+ len_str changed_v +:+ " values") ::
    map (fun v => ("INFO", "  + " +:+ v +:+ " = " +:+
                     pretty (default 0%Z (new_vals !! v)))) (sorted_set added_v) ++
    map (fun v => ("INFO", "  - " +:+ v +:+ " = " +:+
                     pretty (default 0%Z (old_vals !! v)))) (sorted_set removed_v) ++
    map (fun v => ("CRIT", "  ~ " +:+ v +:+ ": " +:+
                     pretty (default 0%Z (old_vals !! v)) +:+ " -> " +:+
                     pretty (default 0%Z (new_vals !! v)))) (sorted_set changed_v)
  else [].

Definition diff_enums (old_enums new_enums : gmap string EnumDef) : list record :=
  let old_names := dom old_enums in
  let new_names := dom new_enums in
  let added := new_names ∖ old_names in
  let removed := old_names ∖ new_names in
  let common := old_names ∩ new_names in
  name_section "ADD" " new enums" added
    (fun name => "  + " +:+ name +:+ " (" +:+
       pretty (size (default ∅ (ed_values <$> new_enums !! name))) +:+ " values)") ++
  name_section "DEL" " removed enums" removed (fun name => "  - " +:+ name) ++
  flat_map (fun name =>
    match old_enums !! name, new_enums !! name with
    | Some old_e, Some new_e => enum_changes name (ed_values old_e) (ed_values new_e)
    | _, _ => []
    end) (sorted_set common).

(** [{f["name"]: f for f in fields}]: a later field of the same name
    replaces an earlier one. *)
Definition fields_by_name (fields : list FieldDef) : gmap string FieldDef :=
  fold_left (fun m f => <[fd_name f := f]> m) fields ∅.

(** The body of the loop over common templates: its lines, and the offset
    changes it counts. *)
Definition template_changes (name : string) (old_t new_t : Template)
    : list record * nat :=
  let old_fields := fields_by_name (t_fields old_t) in
  let new_fields := fields_by_name (t_fields new_t) in
  let added_f := dom new_fields ∖ dom old_fields in
  let removed_f := dom old_fields ∖ dom new_fields in
  let both := sorted_set (dom old_fields ∩ dom new_fields) in
  let offset_changed :=
    flat_map (fun fname =>
      match old_fields !! fname, new_fields !! fname with
      | Some old_f, Some new_f =>
          if String.eqb (fd_offset old_f) (fd_offset new_f) then []
          else [(fname, fd_offset old_f, fd_offset new_f)]
      | _, _ => []
      end) both in
  let type_changed :=
    flat_map (fun fname =>
      match old_fields !! fname, new_fields !! fname with
      | Some old_f, Some new_f =>
          if String.eqb (fd_type old_f) (fd_type new_f) then []
          else [(fname, fd_type old_f, fd_type new_f)]
      | _, _ => []
      end) both in
  let describe (fields : gmap string FieldDef) (sign f : string) : record :=
    match fields !! f with
    | Some d => ("INFO", sign +:+ f +:+ ": " +:+ fd_type d +:+ " @ " +:+ fd_offset d)
    | None => ("INFO", sign +:+ f)
    end in
  (if nonempty added_f || nonempty removed_f ||
      negb (bool_decide (offset_changed = [])) ||
      negb (bool_decide (type_changed = []))
   then
     ("CHG", name +:+ ":") ::
     map (describe new_fields "  + ") (sorted_set added_f) ++
     map (describe old_fields "  - ") (sorted_set removed_f) ++
     map (fun '(fname, old_off, new_off) =>
            ("CRIT", "  OFFSET " +:+ fname +:+ ": " +:+ old_off +:+ " -> " +:+ new_off))
         offset_changed ++
     map (fun '(fname, old_type, new_type) =>
            ("WARN", "  TYPE " +:+ fname +:+ ": " +:+ old_type +:+ " -> " +:+ new_type))
         type_changed
   else [],
   length offset_changed).

(** One turn of the loop over the common templates: [results] grows by the
    lines of the template, [offset_changes] by its offset changes. *)
Definition common_step (old_templates new_templates : gmap string Template)
    (acc : list record * nat) (name : string) : list record * nat :=
  let '(results, offset_changes) := acc in
  match old_templates !! name, new_templates !! name with
  | Some old_t, Some new_t =>
      let '(lines, n) := template_changes name old_t new_t in
      (results ++ lines, offset_changes + n)
  | _, _ => (results, offset_changes)
  end.

Definition diff_templates (old_templates new_templates : gmap string Template)
    : list record :=
  let old_names := dom old_templates in
  let new_names := dom new_templates in
  let added := new_names ∖ old_names in
  let removed := old_names ∖ new_names in
  let common := old_names ∩ new_names in
  let results :=
    name_section "ADD" " new templates" added
      (fun name => "  + " +:+ name +:+ " (" +:+
         pretty (length (default [] (t_fields <$> new_templates !! name))) +:+
         " fields)") ++
    name_section "DEL" " removed templates" removed (fun name => "  - " +:+ name) in
  let '(results, offset_changes) :=
    fold_left (common_step old_templates new_templates) (sorted_set common)
      (results, 0) in
  if Nat.eqb offset_changes 0 then results
  else ("CRIT", "*** " +:+ pretty offset_changes +:+
                " OFFSET CHANGES - extraction code must be regenerated ***") :: results.

Definition diff_structs (old_structs new_structs : gmap string StructDef)
    : list record :=
  let old_names := dom old_structs in
  let new_names := dom new_structs in
  let added := new_names ∖ old_names in
  let removed := old_names ∖ new_names in
  name_section "ADD" " new structs" added (fun name => "  + " +:+ name) ++
  name_section "DEL" " removed structs" removed (fun name => "  - " +:+ name) ++
  flat_map (fun name =>
    match old_structs !! name, new_structs !! name with
    | Some old_s, Some new_s =>
        if Z.eqb (sd_size_bytes old_s) (sd_size_bytes new_s) then []
        else [("CRIT", name +:+ ": size changed " +:+ pretty (sd_size_bytes old_s)
                         +:+ " -> " +:+ pretty (sd_size_bytes new_s))]
    | _, _ => []
    end) (sorted_set (old_names ∩ new_names)).

(** [any(l == "CRIT" for l, _ in results)] *)
Definition any_crit (results : list record) : bool :=
  existsb (fun r => String.eqb (fst r) "CRIT") results.

(** The exit code of [main]; [None] is a schema file that does not exist. *)
Definition main (old_schema new_schema : option Schema) : Z :=
  match old_schema, new_schema with
  | Some old_schema, Some new_schema =>
      let has_critical := false in
      let enum_results := diff_enums (s_enums old_schema) (s_enums new_schema) in
      let has_critical := has_critical || any_crit enum_results in
      let struct_results := diff_structs (s_structs old_schema) (s_structs new_schema) in
      let has_critical := has_critical || any_crit struct_results in
      let template_results :=
        diff_templates (s_templates old_schema) (s_templates new_schema) in
      let has_critical := has_critical || any_crit template_results in
      if has_critical then 2%Z else 0%Z
  | _, _ => 1%Z
  end.

End DiffSchemas.

(** ** Python floats

    A finite binary64 number is [f_mant * 2 ^ f_exp]; arithmetic rounds to
    the nearest number with a 53-bit mantissa, ties to the even one.  The
    exponent range is not modelled: the numbers below are quotients of two
    lengths, times one hundred. *)

Module Float64.

Record float : Type := MkFloat {
  f_mant : Z;
  f_exp : Z
}.

Local Open Scope Z_scope.

(** The integer nearest to [a / b], the even one of two equally near
    ([0 <= a], [0 < b]). *)
Definition round_half_even (a b : Z) : Z :=
  let q := a / b in
  let r := a mod b in
  if 2 * r <? b then q
  else if b <? 2 * r then q + 1
  else if Z.even q then q else q + 1.

(** [a / b * 2 ^ p] as a fraction. *)
Definition scaled (a b p : Z) : Z * Z :=
  if 0 <=? p then (a * 2 ^ p, b) else (a, b * 2 ^ (- p)).

(** The exponent at which [a / b] has a 53-bit integer part:
    [2 ^ 52 <= a / b * 2 ^ p < 2 ^ 53]. *)
Definition binade (a b : Z) : Z :=
  let p0 := 53 - (Z.log2 a - Z.log2 b) in
  let '(n0, d0) := scaled a b p0 in
  if n0 <? 2 ^ 53 * d0 then p0 else p0 - 1.

(** The float nearest to the fraction [a / b] ([0 <= a], [0 < b]). *)
Definition round_ratio (a b : Z) : float :=
  if a =? 0 then MkFloat 0 0
  else
    let p := binade a b in
    let '(n, d) := scaled a b p in
    MkFloat (round_half_even n d) (- p).

(** [a / b] for two ints, [0 <= a] and [0 < b]: Python rounds the exact
    quotient once. *)
Definition div_int (a b : Z) : float := round_ratio a b.

(** The value of a float as a fraction. *)
Definition to_ratio (x : float) : Z * Z :=
  if 0 <=? f_exp x then (f_mant x * 2 ^ f_exp x, 1) else (f_mant x, 2 ^ (- f_exp x)).

(** [x * n] for a float [0 <= x] and an int [0 <= n < 2 ** 53]. *)
Definition mul_int (x : float) (n : Z) : float :=
  let '(a, b) := to_ratio x in round_ratio (a * n) b.

(** [x >= c], [x == c] for a float and an int. *)
Definition ge_int (x : float) (c : Z) : bool :=
  let '(a, b) := to_ratio x in c * b <=? a.

Definition eq_int (x : float) (c : Z) : bool :=
  let '(a, b) := to_ratio x in c * b =? a.

(** [f"{x:.0f}"] for [0 <= x]. *)
Definition format_0f (x : float) : string :=
  let '(a, b) := to_ratio x in pretty (round_half_even a b).

End Float64.

(** ** validate_extraction.py *)

Module ValidateExtraction.
Import PyStr PySort GenerateSchema Float64.

Definition record : Type := string * string.

(** A float read from a JSON file. *)
Inductive pyfloat : Type :=
| Finite (x : float)
| Infinity (negative : bool)
| NaN.

#[local] Unset Elimination Schemes.

(** What [json.load] returns.  A [JDict] lists the members in file order;
    the last member of a name is the one the dict keeps. *)
Inductive json : Type :=
| JNull
| JBool (b : bool)
| JInt (z : Z)
| JFloat (x : pyfloat)
| JStr (s : string)
| JList (l : list json)
| JDict (members : list (string * json)).

#[local] Set Elimination Schemes.

(** [open(path)] followed by [json.load]: the value, or the exception.
    [JSONDecodeError] and [OSError] are the two the checks name in their
    handlers; [OtherError] is any other, with its name: [UnicodeDecodeError]
    for a file that is not UTF-8, [RecursionError] for one nested too
    deep. *)
Inductive load : Type :=
| Loaded (v : json)
| JSONDecodeError
| OSError
| OtherError (e : string).

(** The data directory: the outcome of loading each file that exists. *)
Abbreviation data_dir := (gmap string load).

(** A computation that can end in an uncaught exception. *)
Inductive result (A : Type) : Type :=
| Ok (a : A)
| Raise (e : string).
Arguments Ok {A} a.
Arguments Raise {A} e.

#[export] Instance result_bind : MBind result := fun A B f m =>
  match m with
  | Ok a => f a
  | Raise e => Raise e
  end.

(** A loop that appends the lines of each turn, stopping at an exception. *)
Fixpoint for_each {A B : Type} (body : A -> result (list B)) (l : list A)
    : result (list B) :=
  match l with
  | [] => Ok []
  | a :: rest =>
      lines ← body a;
      more ← for_each body rest;
      Ok (lines ++ more)
  end.

Definition json_path (tname : string) : string := tname +:+ ".json".

(** [d.get(key)] *)
Fixpoint dict_get (key : string) (members : list (string * json)) : option json :=
  match members with
  | [] => None
  | (k, v) :: rest =>
      match dict_get key rest with
      | Some v' => Some v'
      | None => if String.eqb k key then Some v else None
      end
  end.

(** [set(d.keys())] *)
Definition dict_keys (members : list (string * json)) : gset string :=
  list_to_set (map fst members).

Definition float_nonzero (x : pyfloat) : bool :=
  match x with
  | Finite x => negb (f_mant x =? 0)%Z
  | _ => true
  end.

(** [bool(v)] *)
Definition truthy (v : json) : bool :=
  match v with
  | JNull => false
  | JBool b => b
  | JInt z => negb (z =? 0)%Z
  | JFloat x => float_nonzero x
  | JStr s => negb (String.eqb s "")
  | JList l => match l with [] => false | _ => true end
  | JDict members => match members with [] => false | _ => true end
  end.

(** [len(found) / len(expected) * 100] *)
Definition percent (part total : nat) : float :=
  mul_int (div_int (Z.of_nat part) (Z.of_nat total)) 100.

(** *** Template coverage *)

Definition check_template_coverage (schema : Schema) (dir : data_dir)
    : list record * gset string :=
  let expected : gset string :=
    dom (filter (fun kv => t_is_abstract kv.2 = false) (s_templates schema)) in
  let abstract_count :=
    size (filter (fun kv => t_is_abstract kv.2 = true) (s_templates schema)) in
  let found : gset string :=
    filter (fun tname => is_Some (dir !! json_path tname)) expected in
  let missing := expected ∖ found in
  let pct :=
    if Nat.eqb (size expected) 0 then MkFloat 100 0
    else percent (size found) (size expected) in
  let level :=
    if bool_decide (missing = ∅) then "PASS"
    else if ge_int pct 70 then "WARN"
    else "FAIL" in
  let msg := pretty (size found) +:+ "/" +:+ pretty (size expected) +:+
             " types have output (" +:+ pretty abstract_count +:+
             " abstract, expected no output)" in
  ((level, msg) :: map (fun m => ("INFO", "  Missing: " +:+ m)) (sorted_set missing),
   found).

(** *** Instance names *)

(** One term of the sum [named]: a dict with a true name that does not
    start with [unknown_].  A true name that is no string has no
    [startswith]. *)
Definition is_named (inst : json) : result bool :=
  match inst with
  | JDict members =>
      match dict_get "name" members with
      | Some name =>
          if truthy name then
            match name with
            | JStr s => Ok (negb (startswith "unknown_" s))
            | _ => Raise "AttributeError"
            end
          else Ok false
      | None => Ok false
      end
  | _ => Ok false
  end.

Fixpoint count_named (instances : list json) : result nat :=
  match instances with
  | [] => Ok 0%nat
  | inst :: rest =>
      b ← is_named inst;
      n ← count_named rest;
      Ok (Nat.b2n b + n)%nat
  end.

(** One turn of the loop of [check_instance_names]. *)
Definition instance_names_of (dir : data_dir) (tname : string)
    : result (list record) :=
  match dir !! json_path tname with
  | Some (OtherError e) => Raise e
  | Some (Loaded (JList instances)) =>
      let total := length instances in
      if Nat.eqb total 0 then Ok [("WARN", tname +:+ ": Empty file")]
      else
        named ← count_named instances;
        let pct := percent named total in
        let level :=
          if eq_int pct 100 then "PASS"
          else if ge_int pct 50 then "WARN"
          else "FAIL" in
        Ok [(level, tname +:+ ": " +:+ pretty named +:+ "/" +:+ pretty total +:+
                    " named (" +:+ format_0f pct +:+ "%)")]
  | Some (Loaded _) => Ok [("WARN", tname +:+ ": Not a list")]
  | Some JSONDecodeError | Some OSError | None =>
      Ok [("FAIL", tname +:+ ": Could not read JSON")]
  end.

Definition check_instance_names (dir : data_dir) (found_types : gset string)
    : result (list record) :=
  for_each (instance_names_of dir) (sorted_set found_types).

(** *** Field coverage *)

Definition complex_category (category : string) : bool :=
  String.eqb category "collection" || String.eqb category "unity_asset" ||
  String.eqb category "localization" || String.eqb category "unknown".

Definition has_true_name (inst : json) : bool :=
  match inst with
  | JDict members =>
      match dict_get "name" members with
      | Some name => truthy name
      | None => false
      end
  | _ => false
  end.

(** The instance whose keys are compared: the first dict with a true name,
    else the first instance when it is a dict. *)
Definition pick_sample (instances : list json) : option (list (string * json)) :=
  match List.find has_true_name instances with
  | Some (JDict members) => Some members
  | _ =>
      match instances with
      | JDict members :: _ => Some members
      | _ => None
      end
  end.

Definition field_coverage_of (schema : Schema) (dir : data_dir) (tname : string)
    : result (list record) :=
  match s_templates schema !! tname with
  | None => Ok []
  | Some tinfo =>
      let simple := filter (fun f => complex_category (fd_category f) = false)
                      (t_fields tinfo) in
      let expected_fields : gset string := list_to_set (map fd_name simple) in
      let skipped := (length (t_fields tinfo) - length simple)%nat in
      match dir !! json_path tname with
      | Some (OtherError e) => Raise e
      | Some (Loaded (JList instances)) =>
          match pick_sample instances with
          | None => Ok []
          | Some sample =>
              let json_keys := dict_keys sample ∖ {[ "name"; "_template_type" ]} in
              let present := expected_fields ∩ json_keys in
              let missing := expected_fields ∖ json_keys in
              let total := size expected_fields in
              let found_count := size present in
              if Nat.eqb total 0 then Ok []
              else
                let pct := percent found_count total in
                let suffix :=
                  if Nat.eqb skipped 0 then ""
                  else " (" +:+ pretty skipped +:+ " complex skipped)" in
                let level :=
                  if ge_int pct 90 then "PASS"
                  else if ge_int pct 60 then "WARN"
                  else "FAIL" in
                Ok ((level, tname +:+ ": " +:+ pretty found_count +:+ "/" +:+
                            pretty total +:+ " fields" +:+ suffix) ::
                    (if String.eqb level "PASS" then []
                     else map (fun m => ("INFO", "  Missing: " +:+ m))
                            (take 5 (sorted_set missing))))
          end
      | _ => Ok []
      end
  end.

Definition check_field_coverage (schema : Schema) (dir : data_dir)
    (found_types : gset string) : result (list record) :=
  for_each (field_coverage_of schema dir) (sorted_set found_types).

(** *** Type validation *)

Definition is_int (v : json) : bool :=
  match v with
  | JInt _ | JBool _ => true
  | _ => false
  end.

Definition int_value (v : json) : Z :=
  match v with
  | JInt z => z
  | JBool true => 1
  | _ => 0
  end.

Definition is_number (v : json) : bool :=
  match v with
  | JInt _ | JBool _ | JFloat _ => true
  | _ => false
  end.

(** The table [type_checks]: [None] for a type that has no checker. *)
Definition type_check (ftype : string) (v : json) : option bool :=
  if bool_decide (ftype ∈ ({[ "int"; "Int32"; "short"; "Int16"; "long"; "Int64" ]} : gset string))
  then Some (is_int v)
  else if bool_decide (ftype ∈ ({[ "byte"; "Byte" ]} : gset string))
  then Some (is_int v && (0 <=? int_value v)%Z && (int_value v <=? 255)%Z)
  else if bool_decide (ftype ∈ ({[ "float"; "Single"; "double"; "Double" ]} : gset string))
  then Some (is_number v)
  else if bool_decide (ftype ∈ ({[ "bool"; "Boolean" ]} : gset string))
  then Some (match v with JBool _ => true | _ => false end)
  else None.

(** [abs(val) > 1e10 and val != 0] for a number. *)
Definition is_garbage (v : json) : bool :=
  match v with
  | JInt z => (10 ^ 10 <? Z.abs z)%Z
  | JFloat (Finite x) =>
      let '(a, b) := to_ratio (MkFloat (Z.abs (f_mant x)) (f_exp x)) in
      (10 ^ 10 * b <? a)%Z
  | JFloat (Infinity _) => true
  | _ => false
  end.

(** [type(val).__name__] *)
Definition type_name (v : json) : string :=
  match v with
  | JNull => "NoneType"
  | JBool _ => "bool"
  | JInt _ => "int"
  | JFloat _ => "float"
  | JStr _ => "str"
  | JList _ => "list"
  | JDict _ => "dict"
  end.

(** [{f["name"]: f for f in fields}.items()]: a name keeps the place of its
    first field and the value of its last. *)
Fixpoint odict_set (key : string) (f : FieldDef) (items : list (string * FieldDef))
    : list (string * FieldDef) :=
  match items with
  | [] => [(key, f)]
  | (k, v) :: rest =>
      if String.eqb k key then (k, f) :: rest else (k, v) :: odict_set key f rest
  end.

Definition field_map_items (fields : list FieldDef) : list (string * FieldDef) :=
  fold_left (fun items f => odict_set (fd_name f) f items) fields [].

Section TypeValidation.

(** Python's conversions of a value to text in an f-string are taken as
    given: [f"{v}"], and [f"{v:.3e}"], which raises for an int too large
    for a float. *)
Variable format_value : json -> string.
Variable format_3e : json -> result string.

Definition field_errors (tname inst_name : string) (members : list (string * json))
    (item : string * FieldDef) : result (list string) :=
  let '(fname, finfo) := item in
  match dict_get fname members with
  | None => Ok []
  | Some val =>
      let ftype := fd_type finfo in
      let type_error :=
        match type_check ftype val with
        | Some false =>
            [tname +:+ "." +:+ fname +:+ "[" +:+ inst_name +:+ "]: expected " +:+
             ftype +:+ ", got " +:+ type_name val +:+ "=" +:+ format_value val]
        | _ => []
        end in
      if (String.eqb ftype "float" || String.eqb ftype "Single") &&
         is_number val && is_garbage val
      then
        text ← format_3e val;
        Ok (type_error ++
            [tname +:+ "." +:+ fname +:+ "[" +:+ inst_name +:+
             "]: expected float, got " +:+ text +:+ " (garbage - wrong offset?)"])
      else Ok type_error
  end.

Definition instance_errors (tname : string) (field_map : list (string * FieldDef))
    (inst : json) : result (list string) :=
  match inst with
  | JDict members =>
      let inst_name :=
        match dict_get "name" members with
        | Some name => format_value name
        | None => "?"
        end in
      for_each (field_errors tname inst_name members) field_map
  | _ => Ok []
  end.

Definition has_data (inst : json) : bool :=
  match inst with
  | JDict members => (1 <? size (dict_keys members))%nat
  | _ => false
  end.

Definition type_validation_of (schema : Schema) (dir : data_dir) (tname : string)
    : result (list record) :=
  match s_templates schema !! tname with
  | None => Ok []
  | Some tinfo =>
      match dir !! json_path tname with
      | Some (OtherError e) => Raise e
      | Some (Loaded (JList instances)) =>
          let field_map := field_map_items (t_fields tinfo) in
          errors ← for_each (instance_errors tname field_map) (take 50 instances);
          if bool_decide (errors = []) then
            if existsb has_data (take 5 instances)
            then Ok [("PASS", tname +:+ ": all values match expected types")]
            else Ok []
          else
            Ok (("FAIL", tname +:+ ": " +:+ pretty (length errors) +:+ " type errors") ::
                map (fun e => ("INFO", "  " +:+ e)) (take 5 errors) ++
                (if (5 <? length errors)%nat
                 then [("INFO", "  ... and " +:+ pretty (length errors - 5)%nat +:+ " more")]
                 else []))
      | _ => Ok []
      end
  end.

Definition check_type_validation (schema : Schema) (dir : data_dir)
    (found_types : gset string) : result (list record) :=
  for_each (type_validation_of schema dir) (sorted_set found_types).

(** *** The report *)

Definition count_level (level : string) (results : list record) : nat :=
  length (filter (fun r => r.1 = level) results).

(** The exit code of [main]; [None] is a path that does not exist. *)
Definition main (schema : option Schema) (dir : option data_dir) : result Z :=
  match schema, dir with
  | Some schema, Some dir =>
      let '(coverage_results, found_types) := check_template_coverage schema dir in
      let fail_count := count_level "FAIL" coverage_results in
      let warn_count := count_level "WARN" coverage_results in
      if bool_decide (found_types = ∅) then Ok 2%Z
      else
        name_results ← check_instance_names dir found_types;
        let fail_count := (fail_count + count_level "FAIL" name_results)%nat in
        let warn_count := (warn_count + count_level "WARN" name_results)%nat in
        field_results ← check_field_coverage schema dir found_types;
        let fail_count := (fail_count + count_level "FAIL" field_results)%nat in
        let warn_count := (warn_count + count_level "WARN" field_results)%nat in
        type_results ← check_type_validation schema dir found_types;
        let fail_count := (fail_count + count_level "FAIL" type_results)%nat in
        let warn_count := (warn_count + count_level "WARN" type_results)%nat in
        if (0 <? fail_count)%nat then Ok 2%Z
        else if (0 <? warn_count)%nat then Ok 1%Z
        else Ok 0%Z
  | _, _ => Ok 1%Z
  end.

End TypeValidation.

End ValidateExtraction.

(** ** diff_schemas.py: the summary of the report *)

Module DiffReport.
Import PyStr PySort GenerateSchema DiffSchemas.

(** [len([r for r in results if r[0] == "CRIT"])] *)
Definition count_crit (results : list record) : nat :=
  length (filter (fun r => r.1 = "CRIT") results).

(** [len([r for r in results if r[0] != "INFO"])] *)
Definition count_changes (results : list record) : nat :=
  length (filter (fun r => r.1 ≠ "INFO") results).

(** The two numbers of the [SUMMARY] line of [main]. *)
Definition summary (old_schema new_schema : Schema) : nat * nat :=
  let enum_results := diff_enums (s_enums old_schema) (s_enums new_schema) in
  let struct_results := diff_structs (s_structs old_schema) (s_structs new_schema) in
  let template_results :=
    diff_templates (s_templates old_schema) (s_templates new_schema) in
  let all := enum_results ++ struct_results ++ template_results in
  (count_changes all, count_crit all).

End DiffReport.

(** ** Shapes of the builder's results *)

Module Shapes.
Import PyStr Re PySort GenerateSchema.

(** In a chain written leaf first, every name is followed by its recorded
    parent. *)
Definition linked (h : gmap string string) (l : list string) : Prop :=
  forall i x p, l !! i = Some x -> l !! S i = Some p -> h !! x = Some p.

(** Where the loop of [get_inheritance_chain] leaves: at a name without a
    parent, with an empty one, or whose parent is in the chain. *)
Definition stops_at (h : gmap string string) (l : list string) (z : string) : Prop :=
  h !! z = None \/ h !! z = Some "" \/ exists p, h !! z = Some p /\ p ∈ l.

(** The fields a class declares itself: those of its parse, none when it
    does not parse. *)
Definition own_fields (content class_name : string) : list RawField :=
  match parse_class_from_dump content class_name true with
  | Some class_info => ci_fields class_info
  | None => []
  end.

End Shapes.

(** ** tools/generate_schema.py: embedded classes *)

Module EmbeddedClasses.
Import PyStr Re PySort GenerateSchema.

(** What [parse_embedded_class] returns. *)
Record EmbeddedInfo : Type := MkEmbeddedInfo {
  ei_name : string;
  ei_base : option string;
  ei_fields : list RawField
}.

(** The filter of the field loop of [parse_embedded_class]. *)
Definition embedded_field_skipped (field_name offset : string) : bool :=
  startswith "NativeFieldInfoPtr" field_name ||
  startswith "Il2Cpp" field_name ||
  contains "k__BackingField" field_name ||
  String.eqb field_name "Parent" ||
  String.eqb offset "0".

Definition embedded_fields_of (ms : list rmatch) : list RawField :=
  flat_map (fun m =>
    let field_type := group 1 m in
    let field_name := group 2 m in
    let offset := group 3 m in
    if embedded_field_skipped field_name offset then []
    else [MkRawField field_type field_name ("0x" +:+ offset)]) ms.

Definition parse_embedded_class (content class_name : string) : option EmbeddedInfo :=
  match first_search [class_pattern "public class " class_name] content with
  | None => None
  | Some m =>
      let class_body := group 1 m in
      let base_class :=
        option_map (group 1) (search (base_pattern "public class " class_name) content) in
      let fields := embedded_fields_of (finditer field_pattern class_body) in
      match fields with
      | [] => None
      | _ => Some (MkEmbeddedInfo class_name base_class fields)
      end
  end.

End EmbeddedClasses.

(** ** tools/generate_schema.py: discovery of embedded classes *)

Module Discover.
Import PyStr Re PySort GenerateSchema EmbeddedClasses.

(** An entry of the [embedded_classes] dict. *)
Record EmbeddedClass : Type := MkEmbeddedClass {
  ec_base_class : option string;
  ec_fields : list FieldDef
}.

Definition skip_types : gset string :=
  {[ "String"; "Object"; "Int32"; "Single"; "Boolean"; "Byte";
     "GameObject"; "Transform"; "Component"; "MonoBehaviour";
     "Sprite"; "Texture2D"; "Material"; "AudioClip"; "AnimationClip";
     "ScriptableObject"; "Color"; "Vector2"; "Vector3"; "Vector4";
     "Quaternion"; "Rect"; "Bounds" ]}.

(** The three variables of the loop: the set [to_process], the set
    [processed] and the dict [embedded]. *)
Record state : Type := MkState {
  to_process : gset string;
  processed : gset string;
  embedded : gmap string EmbeddedClass
}.

Section Discovery.
Variable content : string.
Variables known_enums known_structs known_templates : gset string.

(** The test an element type passes before it is queued: a true string
    that is no known template, struct or enum and no skipped type. *)
Definition wanted (e : string) : bool :=
  negb (String.eqb e "") &&
  negb (bool_decide (e ∈ known_templates)) &&
  negb (bool_decide (e ∈ known_structs)) &&
  negb (bool_decide (e ∈ known_enums)) &&
  negb (bool_decide (e ∈ skip_types)).

(** The element types the first loop queues, over all fields of all
    templates. *)
Definition root_types (templates : gmap string Template) : gset string :=
  list_to_set
    (flat_map (fun '(_, tdata) =>
       flat_map (fun field =>
         match fd_element_type field with
         | Some elem_type => if wanted elem_type then [elem_type] else []
         | None => []
         end) (t_fields tdata))
       (map_to_list templates)).

(** The element types one parsed class queues: those of its classified
    fields that pass the test and are not processed. *)
Definition nested_types (processed : gset string) (fields : list FieldDef)
    : gset string :=
  list_to_set
    (flat_map (fun entry =>
       match fd_element_type entry with
       | Some element_type =>
           if wanted element_type && negb (bool_decide (element_type ∈ processed))
           then [element_type] else []
       | None => []
       end) fields).

(** One turn of the [while] loop, for the name [class_name] that
    [to_process.pop()] hands out. *)
Definition visit (class_name : string) (st : state) : state :=
  let to_process := to_process st ∖ {[ class_name ]} in
  if bool_decide (class_name ∈ processed st) || bool_decide (class_name ∈ skip_types)
  then MkState to_process (processed st) (embedded st)
  else
    let processed := {[ class_name ]} ∪ processed st in
    match parse_embedded_class content class_name with
    | None => MkState to_process processed (embedded st)
    | Some class_info =>
        let classified_fields :=
          map (classify_entry known_enums known_structs known_templates)
            (ei_fields class_info) in
        MkState (to_process ∪ nested_types processed classified_fields) processed
          (<[class_name := MkEmbeddedClass (ei_base class_info) classified_fields]>
             (embedded st))
    end.

Definition initial (templates : gmap string Template) : state :=
  MkState (root_types templates) ∅ ∅.

(** The loop, for every order in which [pop] can hand out the names:
    [run st final] when the loop started in [st] can end in [final]. *)
Inductive run : state -> state -> Prop :=
| run_done st : to_process st = ∅ -> run st st
| run_pop st class_name final :
    class_name ∈ to_process st -> run (visit class_name st) final -> run st final.

(** [steps n st st']: [n] turns of the loop lead from [st] to [st']. *)
Inductive steps : nat -> state -> state -> Prop :=
| steps_zero st : steps 0 st st
| steps_more n st class_name st' :
    class_name ∈ to_process st -> steps n (visit class_name st) st' ->
    steps (S n) st st'.

(** The loop run with [pop] handing out the least name, on fuel. *)
Fixpoint discover_loop (fuel : nat) (st : state) : option state :=
  match sorted_set (to_process st) with
  | [] => Some st
  | class_name :: _ =>
      match fuel with
      | O => None
      | S fuel' => discover_loop fuel' (visit class_name st)
      end
  end.

(** Every name the loop can process is a root or a piece of the dump. *)
Definition discover_fuel (templates : gmap string Template) : nat :=
  size (root_types templates) + length (pieces content).

Definition discover_embedded_classes (templates : gmap string Template)
    : option (gmap string EmbeddedClass) :=
  embedded <$> discover_loop (discover_fuel templates) (initial templates).

(** The classes the discovery reaches: the roots, and the wanted element
    types of the fields of the reached classes that parse. *)
Inductive reach (templates : gmap string Template) : string -> Prop :=
| reach_root c : c ∈ root_types templates -> reach templates c
| reach_nested c class_info entry e :
    reach templates c ->
    parse_embedded_class content c = Some class_info ->
    entry ∈ map (classify_entry known_enums known_structs known_templates)
              (ei_fields class_info) ->
    fd_element_type entry = Some e ->
    wanted e = true ->
    reach templates e.

(** What the loop keeps between two turns: a queued name is not processed;
    queued and processed names are reached; the roots are queued or
    processed; the element types of a processed class are queued or
    processed; and the dict holds the entries of the processed names that
    parse. *)
Record invariant (templates : gmap string Template) (st : state) : Prop := MkInvariant {
  inv_fresh : forall c, c ∈ to_process st -> c ∉ processed st;
  inv_reach : forall c, c ∈ to_process st \/ c ∈ processed st -> reach templates c;
  inv_roots : forall c, c ∈ root_types templates ->
    c ∈ to_process st \/ c ∈ processed st;
  inv_closed : forall c class_info entry e,
    c ∈ processed st -> parse_embedded_class content c = Some class_info ->
    entry ∈ map (classify_entry known_enums known_structs known_templates)
              (ei_fields class_info) ->
    fd_element_type entry = Some e -> wanted e = true ->
    e ∈ to_process st \/ e ∈ processed st;
  inv_embedded : forall c ec,
    embedded st !! c = Some ec <->
    c ∈ processed st /\ exists class_info,
      parse_embedded_class content c = Some class_info /\
      ec = MkEmbeddedClass (ei_base class_info)
             (map (classify_entry known_enums known_structs known_templates)
                (ei_fields class_info))
}.

End Discovery.

Arguments inv_fresh {_ _ _ _ _ _} _.
Arguments inv_reach {_ _ _ _ _ _} _.
Arguments inv_roots {_ _ _ _ _ _} _.
Arguments inv_closed {_ _ _ _ _ _} _.
Arguments inv_embedded {_ _ _ _ _ _} _.

(** The [embedded_classes] of the schema of a dump. *)
Definition schema_embedded_classes (content : string)
    : option (gmap string EmbeddedClass) :=
  schema ← build_schema content;
  discover_embedded_classes content (dom (s_enums schema)) (dom (s_structs schema))
    (list_to_set (parse_all_templates content)) (s_templates schema).

End Discover.

(** ** Declarations in the text of a dump *)

Module DumpText.
Import PyStr Re GenerateSchema.

(** [s] begins with [lit] and a character of the class [p] after it, as
    every match of a declaration pattern does: the keyword and a word
    character for an enum or a struct, the keyword, the name and a
    whitespace character for a class. *)
Fixpoint header_at (p : ascii -> bool) (lit s : string) : bool :=
  match lit, s with
  | EmptyString, String c _ => p c
  | String a lit', String c s' => Ascii.eqb a c && header_at p lit' s'
  | _, EmptyString => false
  end.

(** The tails of a text that are not empty, longest first. *)
Fixpoint tails (s : string) : list string :=
  match s with
  | EmptyString => []
  | String _ s' => s :: tails s'
  end.

(** In the text [pre +:+ follow], such a header begins at a place of
    [pre]. *)
Definition header_before (p : ascii -> bool) (lit pre follow : string) : bool :=
  existsb (fun b => header_at p lit (b +:+ follow)) (tails pre).

(** An enum or struct declaration in a dump: the text before it, its name,
    the rest of its header line and its body. *)
Record Decl : Type := MkDecl {
  d_before : string;
  d_name : string;
  d_hdr : string;
  d_body : string
}.

Definition decl_text (kw : string) (d : Decl) (rest : string) : string :=
  kw +:+ d_name d +:+ block (d_hdr d) (d_body d) rest.

(** The dump that consists of these declarations and the text [tail]. *)
Fixpoint dump_of (kw : string) (decls : list Decl) (tail : string) : string :=
  match decls with
  | [] => tail
  | d :: more => d_before d +:+ decl_text kw d (dump_of kw more tail)
  end.

(** The declaration [d], followed by [rest], is the next one of its kind:
    no header of the kind begins in the text before it; its name is a run
    of word characters that ends where the name does; the header ends on
    its line; and no line of the body begins with a closing brace. *)
Definition next_decl (kw : string) (d : Decl) (rest : string) : Prop :=
  header_before is_word kw (d_before d) (decl_text kw d rest) = false /\
  d_name d <> "" /\ all_chars is_word (d_name d) = true /\
  starts_outside is_word (d_hdr d) /\
  all_chars is_not_nl (d_hdr d) = true /\
  contains (String nl "}") (d_body d) = false.

Fixpoint decls_in_turn (kw : string) (decls : list Decl) (tail : string) : Prop :=
  match decls with
  | [] => True
  | d :: more => next_decl kw d (dump_of kw more tail) /\ decls_in_turn kw more tail
  end.

End DumpText.

(** * Sample dumps, schemas and data directories

    Small inputs in the shape of the repository's test fixture, used to
    run the definitions above. *)

Module Fixtures.
Import GenerateSchema ValidateExtraction.

Definition weapon_schema : Schema :=
  MkSchema "1.0.0" ∅ ∅
    {[ "WeaponTemplate" :=
         MkTemplate (Some "BaseItemTemplate") false
           [MkFieldDef "MinRange" "int" "0x88" "primitive" None;
            MkFieldDef "Damage" "float" "0x90" "primitive" None;
            MkFieldDef "Ammo" "int" "0x98" "primitive" None];
       "TagTemplate" :=
         MkTemplate (Some "DataTemplate") false
           [MkFieldDef "Priority" "int" "0x78" "primitive" None] ]}
    ∅.

Definition damage_info_dump : string :=
"public struct DamageInfo // TypeDefIndex: 700
{
	// Fields
	public int MinDamage; // 0x0
	public int MaxDamage; // 0x4
	public float CritChance; // 0x8
}
".

Definition damage_info_dump' : string :=
"public struct DamageInfo // TypeDefIndex: 700
{
	// Fields
	public int MinDamage; // 0x0
	public int MaxDamage; // 0x4
	public float CritChance; // 0x8
	public int Armor; // 0xC
}
".

Definition point_dump : string :=
"public class PointTemplate : ScriptableObject // TypeDefIndex: 9
{
	// Fields
	public int X; // 0x0
	public int Y; // 0x4
}
".

Definition widget_dump : string :=
"public class ChildTemplate : Widget // TypeDefIndex: 7
{
	// Fields
	public int B; // 0x20
}
".

Definition cycle_dump : string :=
"public class ATemplate : BTemplate // TypeDefIndex: 1
{
	public int A; // 0x10
}
public class BTemplate : ATemplate // TypeDefIndex: 2
{
	public int B; // 0x20
}
".

Definition base_child_dump : string :=
"public abstract class BaseTemplate : ScriptableObject // TypeDefIndex: 1
{
	public int A; // 0x10
}
public class ChildTemplate : BaseTemplate // TypeDefIndex: 2
{
	public int B; // 0x20
}
".

Definition base_child_schema : Schema :=
  MkSchema "1.0.0" ∅ ∅
    {[ "BaseTemplate" :=
         MkTemplate (Some "ScriptableObject") true
           [MkFieldDef "A" "int" "0x10" "primitive" None];
       "ChildTemplate" :=
         MkTemplate (Some "BaseTemplate") false
           [MkFieldDef "A" "int" "0x10" "primitive" None;
            MkFieldDef "B" "int" "0x20" "primitive" None] ]}
    {[ "BaseTemplate" := ["ScriptableObject"; "BaseTemplate"];
       "ChildTemplate" := ["ScriptableObject"; "BaseTemplate"; "ChildTemplate"] ]}.

Definition nested_body : string :=
"	public int X; // 0x10
	public Inner Data = new Inner
	{
		a = { 1 }
	}
	public int Y; // 0x14".

Definition coverage_schema : Schema :=
  MkSchema "1.0.0" ∅ ∅
    {[ "ATemplate" := MkTemplate None false [];
       "BTemplate" := MkTemplate None false [];
       "CTemplate" := MkTemplate None false [];
       "DTemplate" := MkTemplate None false [];
       "BaseTemplate" := MkTemplate None true [] ]}
    ∅.

Definition coverage_dir : gmap string load :=
  {[ "ATemplate.json" := Loaded (JList []);
     "BTemplate.json" := Loaded (JList []);
     "CTemplate.json" := JSONDecodeError;
     "BaseTemplate.json" := Loaded (JList []) ]}.

Definition validation_schema : Schema :=
  MkSchema "1.0.0" ∅ ∅
    {[ "ATemplate" :=
         MkTemplate None false [MkFieldDef "Damage" "float" "0x90" "primitive" None];
       "BTemplate" := MkTemplate None false [];
       "CTemplate" := MkTemplate None false [] ]}
    ∅.

Definition validation_dir : gmap string load :=
  {[ "ATemplate.json" :=
       Loaded (JList [JDict [("name", JStr "rifle"); ("Damage", JInt 12)];
                      JDict [("name", JStr "unknown_1")]]);
     "BTemplate.json" := Loaded (JList [JDict [("name", JStr "axe")]]);
     "CTemplate.json" := JSONDecodeError ]}.

(** The same directory with a file that is not UTF-8. *)
Definition undecodable_dir : gmap string load :=
  <["BTemplate.json" := OtherError "UnicodeDecodeError"]> validation_dir.

End Fixtures.

Module MoreFixtures.
Import GenerateSchema Discover.

Definition perk_dump : string :=
"public class SkillTemplate : ScriptableObject // TypeDefIndex: 11
{
	// Fields
	public List<Perk> Perks; // 0x20
}
public class Perk : Object // TypeDefIndex: 12
{
	// Fields
	public SkillTemplate Parent; // 0x10
	public int Cost; // 0x18
	public List<Perk> Next; // 0x20
}
".

Definition perk_templates : gmap string Template :=
  {[ "SkillTemplate" :=
       MkTemplate (Some "ScriptableObject") false
         [MkFieldDef "Perks" "List<Perk>" "0x20" "collection" (Some "Perk")] ]}.

Definition perk_embedded : gmap string EmbeddedClass :=
  {[ "Perk" :=
       MkEmbeddedClass (Some "Object")
         [MkFieldDef "Cost" "int" "0x18" "primitive" None;
          MkFieldDef "Next" "List<Perk>" "0x20" "collection" (Some "Perk")] ]}.

End MoreFixtures.

(** * Properties *)

#[local] Arguments String.append : simpl nomatch.
#[local] Set Warnings "-clear-no-such-hyp".

(** ** Strings *)

Module StrFacts.
Import PyStr.

Lemma str_app_assoc (a b c : string) : (a +:+ b) +:+ c = a +:+ (b +:+ c).
Proof. induction a as [|x a IH]; simpl; [reflexivity|now rewrite IH]. Qed.

Lemma str_app_nil_r (a : string) : a +:+ "" = a.
Proof. induction a as [|x a IH]; simpl; [reflexivity|now rewrite IH]. Qed.

Lemma str_length_app (a b : string) :
  String.length (a +:+ b) = String.length a + String.length b.
Proof. induction a as [|x a IH]; simpl; [reflexivity|now rewrite IH]. Qed.

Lemma substring_0_app (a b : string) :
  String.substring 0 (String.length a) (a +:+ b) = a.
Proof.
  induction a as [|x a IH]; simpl.
  - destruct b; reflexivity.
  - now rewrite IH.
Qed.

Lemma str_app_inv_head (a b c : string) : a +:+ b = a +:+ c -> b = c.
Proof. induction a as [|x a IH]; simpl; intros H; [exact H|]. inversion H; auto. Qed.

Lemma str_app_inv_tail (a b c : string) : a +:+ c = b +:+ c -> a = b.
Proof.
  revert b. induction a as [|x a IH]; intros [|y b] H; simpl in *.
  - reflexivity.
  - exfalso. apply (f_equal String.length) in H. simpl in H.
    rewrite str_length_app in H. lia.
  - exfalso. apply (f_equal String.length) in H. simpl in H.
    rewrite str_length_app in H. lia.
  - inversion H as [[Hx Hab]]. f_equal. now apply IH.
Qed.

Lemma startswith_app (p s : string) : startswith p (p +:+ s) = true.
Proof.
  induction p as [|c p IH]; simpl; [reflexivity|].
  now rewrite Ascii.eqb_refl, IH.
Qed.

Lemma startswith_inv (p s : string) :
  startswith p s = true -> exists t, s = p +:+ t.
Proof.
  revert s. induction p as [|c p IH]; intros s H.
  - exists s. reflexivity.
  - destruct s as [|d s]; simpl in H; [discriminate|].
    apply andb_true_iff in H as [Hc Hp]. apply Ascii.eqb_eq in Hc. subst d.
    destruct (IH _ Hp) as [t ->]. exists t. reflexivity.
Qed.

End StrFacts.

(** ** The matcher is sound for its relation *)

Module ReFacts.
Import PyStr Re StrFacts.

Section Soundness.
Context {R : Type}.

Lemma star_loop_sound (greedy : bool)
    (step : string -> groups -> (string -> groups -> option R) -> option R)
    (S1 : string -> groups -> string -> groups -> Prop)
    (k : string -> groups -> option R) :
  (forall s g k' x, step s g k' = Some x ->
     exists s' g', S1 s g s' g' /\ k' s' g' = Some x) ->
  forall n s g x, star_loop greedy step k n s g = Some x ->
    exists s' g', star_sem S1 s g s' g' /\ k s' g' = Some x.
Proof.
  intros Hstep n. induction n as [|n IHn]; intros s g x H; simpl in H.
  - destruct greedy.
    + exists s, g. split; [constructor|exact H].
    + destruct (k s g) eqn:E; [|discriminate].
      exists s, g. split; [constructor|congruence].
  - assert (Hmore : forall y,
        step s g (fun s' g' =>
           if (String.length s' <? String.length s)%nat
           then star_loop greedy step k n s' g' else None) = Some y ->
        exists s' g', star_sem S1 s g s' g' /\ k s' g' = Some y).
    { intros y Hy. apply Hstep in Hy. destruct Hy as (s1 & g1 & H1 & Hy).
      destruct (String.length s1 <? String.length s)%nat; [|discriminate].
      apply IHn in Hy. destruct Hy as (s2 & g2 & H2 & Hy).
      exists s2, g2. split; [|exact Hy]. econstructor; eauto. }
    destruct greedy.
    + specialize (Hmore x).
      match type of H with match ?e with _ => _ end = _ => destruct e eqn:E end.
      * inversion H; subst. apply Hmore. reflexivity.
      * exists s, g. split; [constructor|exact H].
    + destruct (k s g) eqn:E.
      * inversion H; subst. exists s, g. split; [constructor|exact E].
      * apply Hmore. exact H.
Qed.

Lemma exec_sound (r : regex) :
  forall (s : string) (g : groups) (k : string -> groups -> option R) (x : R),
    exec r s g k = Some x ->
    exists s' g', sem r s g s' g' /\ k s' g' = Some x.
Proof.
  induction r as [|c|p|r1 IH1 r2 IH2|r1 IH1 r2 IH2|gr r1 IH1|i r1 IH1];
    intros s g k x H; simpl in H.
  - exists s, g. simpl. auto.
  - destruct s as [|c' s1]; [discriminate|].
    destruct (Ascii.eqb c c') eqn:E; [|discriminate].
    apply Ascii.eqb_eq in E. subst c'. exists s1, g. simpl. auto.
  - destruct s as [|c' s1]; [discriminate|].
    destruct (p c') eqn:E; [|discriminate].
    exists s1, g. simpl. eauto.
  - apply IH1 in H. destruct H as (s1 & g1 & H1 & H).
    apply IH2 in H. destruct H as (s2 & g2 & H2 & H).
    exists s2, g2. simpl. eauto.
  - destruct (exec r1 s g k) eqn:E.
    + inversion H; subst. apply IH1 in E. destruct E as (s1 & g1 & H1 & E).
      exists s1, g1. simpl. auto.
    + apply IH2 in H. destruct H as (s1 & g1 & H1 & E').
      exists s1, g1. simpl. auto.
  - eapply star_loop_sound in H; [|exact IH1]. exact H.
  - apply IH1 in H. destruct H as (s1 & g1 & H1 & H).
    exists s1, ((i, consumed s s1) :: g1). simpl. eauto.
Qed.

End Soundness.

(** What a match leaves is a tail of the text. *)
Lemma sem_suffix (r : regex) :
  forall s g s' g', sem r s g s' g' -> exists w, s = w +:+ s'.
Proof.
  induction r as [|c|p|r1 IH1 r2 IH2|r1 IH1 r2 IH2|gr r1 IH1|i r1 IH1];
    intros s g s' g' H; simpl in H.
  - destruct H as [-> _]. exists "". reflexivity.
  - destruct H as [-> _]. exists (String c ""). reflexivity.
  - destruct H as (c & -> & _ & _). exists (String c ""). reflexivity.
  - destruct H as (s1 & g1 & H1 & H2).
    apply IH1 in H1 as [w1 ->]. apply IH2 in H2 as [w2 ->].
    exists (w1 +:+ w2). now rewrite str_app_assoc.
  - destruct H as [H|H]; eauto.
  - induction H as [s g|s g s1 g1 s' g' H1 _ IH].
    + exists "". reflexivity.
    + apply IH1 in H1 as [w1 ->]. destruct IH as [w2 ->].
      exists (w1 +:+ w2). now rewrite str_app_assoc.
  - destruct H as (g1 & H & _). eauto.
Qed.

Lemma consumed_app (w s' : string) : consumed (w +:+ s') s' = w.
Proof.
  unfold consumed. rewrite str_length_app.
  replace (String.length w + String.length s' - String.length s')
    with (String.length w) by lia.
  apply substring_0_app.
Qed.

Lemma sem_lit (l : string) :
  forall s g s' g', sem (lit l) s g s' g' -> s = l +:+ s' /\ g' = g.
Proof.
  induction l as [|c l IH]; intros s g s' g' H; simpl in H.
  - destruct H as [-> ->]. auto.
  - destruct H as (s1 & g1 & [-> ->] & H). apply IH in H as [-> ->]. auto.
Qed.

Lemma sem_star_cls (gr : bool) (p : ascii -> bool) :
  forall s g s' g', sem (Star gr (Cls p)) s g s' g' ->
    exists w, s = w +:+ s' /\ all_chars p w = true /\ g' = g.
Proof.
  intros s g s' g' H. simpl in H.
  induction H as [s g|s g s1 g1 s' g' H1 _ IH].
  - exists "". auto.
  - destruct H1 as (c & -> & Hc & ->). destruct IH as (w & -> & Hw & ->).
    exists (String c w). simpl. rewrite Hc, Hw. auto.
Qed.

Lemma sem_plus_cls (gr : bool) (p : ascii -> bool) :
  forall s g s' g', sem (plus gr (Cls p)) s g s' g' ->
    exists w, s = w +:+ s' /\ w <> "" /\ all_chars p w = true /\ g' = g.
Proof.
  intros s g s' g' H. destruct H as (s1 & g1 & (c & -> & Hc & ->) & H).
  apply sem_star_cls in H as (w & -> & Hw & ->).
  exists (String c w). simpl. rewrite Hc, Hw. repeat split; auto.
Qed.

(** A group holds the text its expression matched. *)
Lemma sem_grp (i : nat) (r : regex) :
  forall s g s' g', sem (Grp i r) s g s' g' ->
    exists w g1, s = w +:+ s' /\ sem r s g s' g1 /\ g' = (i, w) :: g1.
Proof.
  intros s g s' g' (g1 & H & ->).
  destruct (sem_suffix _ _ _ _ _ H) as [w ->].
  exists w, g1. rewrite consumed_app. auto.
Qed.

(** [match_at], [search] and [finditer] return matches of the relation, on
    a tail of the text. *)
Lemma match_at_sound (r : regex) (pos : nat) (s : string) (m : rmatch) :
  match_at r pos s = Some m ->
  exists s' g', sem r s [] s' g' /\ m = MkMatch pos g' (consumed s s') s'.
Proof.
  unfold match_at. intros H. apply exec_sound in H as (s' & g' & Hs & Hk).
  exists s', g'. split; [exact Hs|congruence].
Qed.

Lemma search_from_sound (r : regex) :
  forall s pos m, search_from r pos s = Some m ->
    exists pre s0, s = pre +:+ s0 /\
      match_at r (pos + String.length pre) s0 = Some m.
Proof.
  induction s as [|c s IH]; intros pos m H; simpl in H.
  - destruct (match_at r pos "") eqn:E; [|discriminate].
    exists "", "". simpl. rewrite Nat.add_0_r. split; [reflexivity|congruence].
  - destruct (match_at r pos (String c s)) eqn:E.
    + exists "", (String c s). simpl. rewrite Nat.add_0_r. split; [reflexivity|congruence].
    + apply IH in H as (pre & s0 & -> & H).
      exists (String c pre), s0. simpl. rewrite <- Nat.add_succ_comm. auto.
Qed.

Lemma search_match_of (r : regex) (s : string) (pos : nat) (m : rmatch) :
  search_from r pos s = Some m -> match_of r s m.
Proof.
  intros H. apply search_from_sound in H as (pre & s0 & -> & H).
  apply match_at_sound in H as (s' & g' & Hs & ->).
  exists pre, s0, s'. simpl. auto.
Qed.

Lemma match_of_suffix (r : regex) (pre s : string) (m : rmatch) :
  match_of r s m -> match_of r (pre +:+ s) m.
Proof.
  intros (pre' & s0 & s' & -> & H). exists (pre +:+ pre'), s0, s'.
  now rewrite str_app_assoc.
Qed.

Lemma match_of_rest (r : regex) (s : string) (m : rmatch) :
  match_of r s m -> exists pre, s = pre +:+ m_rest m.
Proof.
  intros (pre & s0 & s' & -> & H & -> & _).
  apply sem_suffix in H as [w ->]. exists (pre +:+ w). now rewrite str_app_assoc.
Qed.

Lemma finditer_from_sound (r : regex) :
  forall fuel pos s m, m ∈ finditer_from fuel r pos s -> match_of r s m.
Proof.
  induction fuel as [|fuel IH]; intros pos s m H; simpl in H.
  - inversion H.
  - destruct (search_from r pos s) as [m0|] eqn:E; [|inversion H].
    pose proof (search_match_of _ _ _ _ E) as Hm0.
    destruct (String.length (m_rest m0) <? String.length s)%nat.
    + apply elem_of_cons in H as [->|H]; [exact Hm0|].
      apply IH in H. destruct (match_of_rest _ _ _ Hm0) as [pre Hpre].
      rewrite Hpre. now apply match_of_suffix.
    + apply list_elem_of_singleton in H. now subst.
Qed.

Lemma finditer_sound (r : regex) (s : string) (m : rmatch) :
  m ∈ finditer r s -> match_of r s m.
Proof. apply finditer_from_sound. Qed.

Lemma search_sound (r : regex) (s : string) (m : rmatch) :
  search r s = Some m -> match_of r s m.
Proof. apply search_match_of. Qed.

End ReFacts.

(** ** Lists and sorted sets *)

Module ListFacts.
Import PySort.

Lemma elem_of_sorted_set (X : gset string) (x : string) : x ∈ sorted_set X <-> x ∈ X.
Proof.
  unfold sorted_set, sorted. rewrite merge_sort_Permutation. apply elem_of_elements.
Qed.

Lemma NoDup_sorted_set (X : gset string) : NoDup (sorted_set X).
Proof.
  unfold sorted_set, sorted. rewrite merge_sort_Permutation. apply NoDup_elements.
Qed.

Lemma sorted_set_empty : sorted_set ∅ = [].
Proof. unfold sorted_set. rewrite elements_empty. reflexivity. Qed.

Lemma flat_map_nil {A B : Type} (f : A -> list B) (l : list A) :
  (forall x, x ∈ l -> f x = []) -> flat_map f l = [].
Proof.
  induction l as [|a l IH]; intros H; simpl; [reflexivity|].
  rewrite (H a) by left. apply IH. intros x Hx. apply H. now right.
Qed.

Lemma flat_map_single {A B : Type} (f : A -> list B) (l : list A) (k : A) :
  NoDup l -> k ∈ l -> (forall x, x ∈ l -> x <> k -> f x = []) ->
  flat_map f l = f k.
Proof.
  induction l as [|a l IH]; intros Hnd Hk H; [inversion Hk|].
  apply NoDup_cons in Hnd as [Ha Hnd]. simpl.
  apply elem_of_cons in Hk as [<-|Hk].
  - rewrite flat_map_nil; [apply app_nil_r|].
    intros x Hx. apply H; [now right|]. intros ->. contradiction.
  - rewrite (H a); [|left|intros ->; contradiction]. simpl.
    apply IH; auto. intros x Hx. apply H. now right.
Qed.

Lemma elem_of_flat_map {A B : Type} (f : A -> list B) (l : list A) (y : B) :
  y ∈ flat_map f l <-> exists x, x ∈ l /\ y ∈ f x.
Proof.
  induction l as [|a l IH]; simpl.
  - split; [intros H; inversion H|intros (x & Hx & _); inversion Hx].
  - rewrite elem_of_app, IH. split.
    + intros [H|(x & Hx & Hy)]; [exists a|exists x]; split; auto; constructor; auto.
    + intros (x & Hx & Hy). apply elem_of_cons in Hx as [->|Hx]; eauto.
Qed.

End ListFacts.

(** ** Facts about the schema builder *)

Module SchemaFacts.
Import PyStr Re PySort GenerateSchema StrFacts ReFacts ListFacts.

Lemma field_pattern_groups (body : string) (m : rmatch) :
  match_of field_pattern body m ->
  exists ty name off,
    m_groups m = [(3, off); (2, name); (1, ty)] /\
    off <> "" /\ all_chars is_hex off = true /\
    name <> "" /\ all_chars is_word name = true /\
    ty <> "" /\ all_chars is_type_char ty = true.
Proof.
  intros (pre & s0 & s' & _ & H & _ & _).
  unfold field_pattern in H. cbn [cat] in H.
  destruct H as (s1 & g1 & H1 & H).
  assert (g1 = []) as ->.
  { destruct H1 as [H1|H1]; apply sem_lit in H1; tauto. }
  destruct H as (s2 & g2 & H2 & H). apply sem_plus_cls in H2 as (_ & _ & _ & _ & ->).
  destruct H as (s3 & g3 & H3 & H).
  apply sem_grp in H3 as (ty & g3' & E3 & H3 & ->).
  apply sem_plus_cls in H3 as (ty' & Hty & Hty1 & Hty2 & ->).
  rewrite E3 in Hty. apply str_app_inv_tail in Hty. subst ty'.
  destruct H as (s4 & g4 & H4 & H). apply sem_plus_cls in H4 as (_ & _ & _ & _ & ->).
  destruct H as (s5 & g5 & H5 & H).
  apply sem_grp in H5 as (name & g5' & E5 & H5 & ->).
  apply sem_plus_cls in H5 as (name' & Hn & Hn1 & Hn2 & ->).
  rewrite E5 in Hn. apply str_app_inv_tail in Hn. subst name'.
  destruct H as (s6 & g6 & [_ ->] & H).
  destruct H as (s7 & g7 & H7 & H). apply sem_plus_cls in H7 as (_ & _ & _ & _ & ->).
  destruct H as (s8 & g8 & H8 & H). apply sem_lit in H8 as [_ ->].
  destruct H as (s9 & g9 & H9 & H). apply sem_plus_cls in H9 as (_ & _ & _ & _ & ->).
  destruct H as (s10 & g10 & H10 & H). apply sem_lit in H10 as [_ ->].
  apply sem_grp in H as (off & g11 & E11 & H & Hg).
  apply sem_plus_cls in H as (off' & Ho & Ho1 & Ho2 & ->).
  rewrite E11 in Ho. apply str_app_inv_tail in Ho. subst off'.
  exists ty, name, off. auto 10.
Qed.

Lemma group_of_groups3 (m : rmatch) (ty name off : string) :
  m_groups m = [(3, off); (2, name); (1, ty)] ->
  group 1 m = ty /\ group 2 m = name /\ group 3 m = off.
Proof. unfold group. intros ->. auto. Qed.

Lemma digit_of_hex (c : ascii) :
  is_hex c = true -> exists d, digit_of 16 c = Some d.
Proof.
  destruct c as [[] [] [] [] [] [] [] []]; vm_compute; intros H;
    try discriminate; eauto.
Qed.

Lemma digits_value_hex (s : string) :
  forall acc, all_chars is_hex s = true -> exists v, digits_value 16 acc s = Some v.
Proof.
  induction s as [|c s IH]; intros acc H; simpl in *.
  - eauto.
  - apply andb_true_iff in H as [Hc Hs].
    destruct (digit_of_hex c Hc) as [d ->]. apply IH. exact Hs.
Qed.

Lemma int16_hex (off : string) :
  off <> "" -> all_chars is_hex off = true ->
  exists v, int16 ("0x" +:+ off) = Some v.
Proof.
  intros Hne H. simpl. unfold number_value.
  destruct off as [|c off]; [congruence|]. now apply digits_value_hex.
Qed.

Lemma struct_fields_offsets (body : string) (f : RawField) :
  f ∈ struct_fields_of body (finditer field_pattern body) ->
  exists v, int16 (rf_offset f) = Some v.
Proof.
  unfold struct_fields_of. rewrite elem_of_flat_map. intros (m & Hm & Hf).
  apply finditer_sound, field_pattern_groups in Hm
    as (ty & name & off & Hg & Hoff & Hhex & _).
  apply group_of_groups3 in Hg as (E1 & E2 & E3).
  cbv zeta in Hf. rewrite E1, E2, E3 in Hf.
  destruct (struct_field_skipped body name); [inversion Hf|].
  apply list_elem_of_singleton in Hf. subst f. simpl. now apply int16_hex.
Qed.

Lemma parse_struct_decls_some (ms : list rmatch) :
  forall structs, exists r, parse_struct_decls ms structs = Some r.
Proof.
  induction ms as [|m ms IH]; intros structs; simpl; [eauto|].
  destruct (last _) as [lf|] eqn:El; [|apply IH].
  apply last_Some_elem_of in El. apply struct_fields_offsets in El as [v ->].
  apply IH.
Qed.

Lemma parse_struct_decls_origin (ms : list rmatch) :
  forall structs r name sd,
    parse_struct_decls ms structs = Some r -> r !! name = Some sd ->
    structs !! name = Some sd \/
    exists m, m ∈ ms /\ group 1 m = name /\ sd_fields sd = struct_fields_in m /\
      sized_by_last_field sd.
Proof.
  induction ms as [|m ms IH]; intros structs r name sd H Hr; simpl in H.
  - left. congruence.
  - fold (struct_fields_in m) in H.
    destruct (last (struct_fields_in m)) as [lf|] eqn:El.
    + destruct (int16 (rf_offset lf)) as [v|] eqn:Ev; [|discriminate].
      destruct (IH _ _ _ _ H Hr) as [Hin|(m' & Hm' & Hrest)].
      * destruct (decide (group 1 m = name)) as [Heq|Hne].
        -- subst name. rewrite lookup_insert_eq in Hin. inversion Hin; subst sd.
           right. exists m. split; [left|]. repeat split. exists lf, v. auto.
        -- rewrite lookup_insert_ne in Hin by exact Hne. auto.
      * right. exists m'. split; [now right|exact Hrest].
    + destruct (IH _ _ _ _ H Hr) as [Hin|(m' & Hm' & Hrest)]; [auto|].
      right. exists m'. split; [now right|exact Hrest].
Qed.

(** The enum parser meets [ValueError] for one reason only: a value matched
    by the pattern is an optional minus sign and decimal digits, which
    [int] converts unless the digits are more than [max_str_digits]. *)
Lemma digit_of_dec (c : ascii) :
  is_digit c = true -> exists d, digit_of 10 c = Some d.
Proof.
  destruct c as [[] [] [] [] [] [] [] []]; vm_compute; intros H;
    try discriminate; eauto.
Qed.

Lemma digits_value_dec (s : string) :
  forall acc, all_chars is_digit s = true -> exists v, digits_value 10 acc s = Some v.
Proof.
  induction s as [|c s IH]; intros acc H; simpl in *.
  - eauto.
  - apply andb_true_iff in H as [Hc Hs].
    destruct (digit_of_dec c Hc) as [d ->]. apply IH. exact Hs.
Qed.

Lemma digits_of_signed (sign : bool) (w : string) :
  w <> "" -> all_chars is_digit w = true ->
  digits_of ((if sign then "-" else "") +:+ w) = w.
Proof.
  intros Hne Hw. destruct sign; [reflexivity|].
  destruct w as [|c w]; [congruence|].
  simpl in Hw. apply andb_true_iff in Hw as [Hc _].
  destruct c as [[] [] [] [] [] [] [] []]; try reflexivity; discriminate.
Qed.

Lemma int10_limit (s : string) :
  (max_str_digits < Z.of_nat (String.length (digits_of s)))%Z -> int10 s = None.
Proof.
  intros H. unfold int10. apply Z.ltb_lt in H. now rewrite H.
Qed.

Lemma int10_digits (sign : bool) (w : string) :
  w <> "" -> all_chars is_digit w = true ->
  (Z.of_nat (String.length w) <= max_str_digits)%Z ->
  exists v, int10 ((if sign then "-" else "") +:+ w) = Some v.
Proof.
  intros Hne Hw Hlen. unfold int10. rewrite digits_of_signed by assumption.
  apply Z.ltb_ge in Hlen. rewrite Hlen.
  destruct w as [|c w]; [congruence|].
  destruct (digits_value_dec (String c w) 0 Hw) as [v Hv].
  destruct sign.
  - exists (- v)%Z. simpl. unfold number_value. simpl in Hv |- *. rewrite Hv. reflexivity.
  - exists v. cbn [String.append].
    simpl in Hw. apply andb_true_iff in Hw as [Hc Hw].
    unfold number_value.
    destruct c as [[] [] [] [] [] [] [] []]; try exact Hv; discriminate.
Qed.

(** The value group of a constant: a sign or none, and a run of digits. *)
Lemma value_pattern_number (body : string) (m : rmatch) :
  match_of value_pattern body m ->
  exists sign w, group 2 m = (if sign : bool then "-" else "") +:+ w /\
    w <> "" /\ all_chars is_digit w = true.
Proof.
  intros (pre & s0 & s' & _ & H & _ & _).
  unfold value_pattern in H. cbn [cat] in H.
  destruct H as (s1 & g1 & H1 & H). apply sem_lit in H1 as [_ ->].
  destruct H as (s2 & g2 & H2 & H). apply sem_plus_cls in H2 as (_ & _ & _ & _ & ->).
  destruct H as (s3 & g3 & [_ ->] & H).
  destruct H as (s4 & g4 & H4 & H).
  apply sem_grp in H4 as (name & g4' & _ & H4 & ->).
  apply sem_plus_cls in H4 as (_ & _ & _ & _ & ->).
  destruct H as (s5 & g5 & H5 & H). apply sem_lit in H5 as [_ ->].
  destruct H as (s6 & g6 & H6 & H).
  apply sem_grp in H6 as (num & g6' & E6 & H6 & ->).
  destruct H as [_ Hg]. unfold group. rewrite Hg. cbn [lookup_group Nat.eqb default].
  destruct H6 as (s7 & g7 & Hsign & Hdig).
  apply sem_plus_cls in Hdig as (w & Hw & Hne & Hall & _).
  destruct Hsign as [[Hs _]|[Hs _]].
  - rewrite Hs, Hw in E6. change (String "-" (w +:+ s6)) with (String "-" w +:+ s6) in E6.
    apply str_app_inv_tail in E6. subst num. exists true, w. auto.
  - rewrite <- Hs, Hw in E6. apply str_app_inv_tail in E6. subst num.
    exists false, w. auto.
Qed.

(** [int] raises on a matched value exactly when its digits are too many. *)
Lemma value_pattern_int (body : string) (m : rmatch) :
  match_of value_pattern body m ->
  int10 (group 2 m) = None <->
  (max_str_digits < Z.of_nat (String.length (digits_of (group 2 m))))%Z.
Proof.
  intros Hm. destruct (value_pattern_number body m Hm) as (sign & w & E & Hne & Hw).
  split; [|apply int10_limit].
  intros Hnone.
  destruct (Z.lt_ge_cases max_str_digits (Z.of_nat (String.length (digits_of (group 2 m)))))
    as [Hlt|Hge]; [exact Hlt|].
  rewrite E in Hge, Hnone. rewrite digits_of_signed in Hge by assumption.
  destruct (int10_digits sign w Hne Hw Hge) as [v Hv]. congruence.
Qed.

Lemma enum_values_raises (body : string) (ms : list rmatch) :
  (forall m, m ∈ ms -> match_of value_pattern body m) ->
  forall values,
    enum_values ms values = None <->
    exists vm, vm ∈ ms /\
      (max_str_digits < Z.of_nat (String.length (digits_of (group 2 vm))))%Z.
Proof.
  induction ms as [|m ms IH]; intros Hms values; simpl.
  - split; [discriminate|]. intros (vm & Hvm & _). inversion Hvm.
  - assert (Hm : match_of value_pattern body m) by (apply Hms; left).
    assert (Hrest : forall m', m' ∈ ms -> match_of value_pattern body m')
      by (intros m' Hm'; apply Hms; now right).
    pose proof (value_pattern_int body m Hm) as Hint.
    destruct (int10 (group 2 m)) as [v|].
    + rewrite (IH Hrest). split.
      * intros (vm & Hvm & Hl). exists vm. split; [now right|exact Hl].
      * intros (vm & Hvm & Hl). apply elem_of_cons in Hvm as [->|Hvm]; [|eauto].
        apply Hint in Hl. discriminate.
    + split; [|reflexivity]. intros _. exists m. split; [left|]. now apply Hint.
Qed.

Lemma parse_enum_decls_raises (ms : list rmatch) :
  forall enums,
    parse_enum_decls ms enums = None <->
    exists m vm, m ∈ ms /\ vm ∈ finditer value_pattern (group 2 m) /\
      (max_str_digits < Z.of_nat (String.length (digits_of (group 2 vm))))%Z.
Proof.
  induction ms as [|m ms IH]; intros enums; simpl.
  - split; [discriminate|]. intros (m & vm & Hm & _). inversion Hm.
  - pose proof (enum_values_raises (group 2 m) (finditer value_pattern (group 2 m))
                  (fun m' => finditer_sound _ _ m') ∅) as Hv.
    destruct (enum_values (finditer value_pattern (group 2 m)) ∅) as [values|].
    + assert (Hno : ~ exists vm, vm ∈ finditer value_pattern (group 2 m) /\
                (max_str_digits < Z.of_nat (String.length (digits_of (group 2 vm))))%Z).
      { intros H. apply Hv in H. discriminate. }
      assert (Hgoal : forall acc, parse_enum_decls ms acc = None <->
                exists m0 vm, m0 ∈ m :: ms /\
                  vm ∈ finditer value_pattern (group 2 m0) /\
                  (max_str_digits < Z.of_nat (String.length (digits_of (group 2 vm))))%Z).
      { intros acc. rewrite (IH acc). split.
        - intros (m0 & vm & Hm0 & Hrest). exists m0, vm. split; [now right|exact Hrest].
        - intros (m0 & vm & Hm0 & Hvm & Hl).
          apply elem_of_cons in Hm0 as [->|Hm0]; [|eauto].
          exfalso. apply Hno. eauto. }
      destruct (bool_decide (values = ∅)); apply Hgoal.
    + split; [|reflexivity]. intros _.
      destruct (proj1 Hv eq_refl) as (vm & Hvm & Hl).
      exists m, vm. split; [left|]. auto.
Qed.

End SchemaFacts.

(** ** Facts about the schema differ *)

Module DiffFacts.
Import PyStr PySort GenerateSchema DiffSchemas ListFacts.

Lemma nonempty_empty : nonempty ∅ = false.
Proof. unfold nonempty. now rewrite bool_decide_eq_true_2. Qed.

Lemma fields_by_name_insert (post : list FieldDef) :
  forall (m : gmap string FieldDef) (f : FieldDef),
    (forall f', f' ∈ post -> fd_name f' <> fd_name f) ->
    fold_left (fun m f => <[fd_name f := f]> m) post (<[fd_name f := f]> m) =
    <[fd_name f := f]> (fold_left (fun m f => <[fd_name f := f]> m) post m).
Proof.
  induction post as [|p post IH]; intros m f H; simpl; [reflexivity|].
  rewrite insert_insert_ne by (apply H; left).
  apply IH. intros f' Hf'. apply H. now right.
Qed.

Lemma fields_by_name_split (pre post : list FieldDef) (f : FieldDef) :
  (forall f', f' ∈ post -> fd_name f' <> fd_name f) ->
  fields_by_name (pre ++ f :: post) =
  <[fd_name f := f]>
    (fold_left (fun m f => <[fd_name f := f]> m) post (fields_by_name pre)).
Proof.
  intros H. unfold fields_by_name. rewrite fold_left_app. simpl.
  now apply fields_by_name_insert.
Qed.

Lemma template_changes_same (name : string) (t : Template) :
  template_changes name t t = ([], 0).
Proof.
  unfold template_changes.
  assert (E : dom (fields_by_name (t_fields t)) ∖ dom (fields_by_name (t_fields t))
               = (∅ : gset string)) by set_solver.
  rewrite E.
  rewrite nonempty_empty.
  rewrite !flat_map_nil.
  - reflexivity.
  - intros x _. destruct (fields_by_name (t_fields t) !! x); [|reflexivity].
    now rewrite String.eqb_refl.
  - intros x _. destruct (fields_by_name (t_fields t) !! x); [|reflexivity].
    now rewrite String.eqb_refl.
Qed.

Lemma template_changes_offset (name : string) (t : Template)
    (pre post : list FieldDef) (f : FieldDef) (off' : string) :
  t_fields t = pre ++ f :: post ->
  (forall f', f' ∈ post -> fd_name f' <> fd_name f) ->
  fd_offset f <> off' ->
  template_changes name t (with_fields t (pre ++ with_offset f off' :: post)) =
  ([("CHG", name +:+ ":");
    ("CRIT", "  OFFSET " +:+ fd_name f +:+ ": " +:+ fd_offset f +:+ " -> " +:+ off')],
   1).
Proof.
  intros Ht Hpost Hoff. unfold template_changes. cbn [t_fields with_fields].
  rewrite Ht.
  rewrite (fields_by_name_split pre post f Hpost).
  rewrite (fields_by_name_split pre post (with_offset f off'));
    [|exact Hpost].
  cbn [fd_name with_offset].
  set (M := fold_left _ post (fields_by_name pre)).
  rewrite !dom_insert_L.
  assert (E1 : ({[fd_name f]} ∪ dom M) ∖ ({[fd_name f]} ∪ dom M)
                = (∅ : gset string)) by set_solver.
  assert (E2 : ({[fd_name f]} ∪ dom M) ∩ ({[fd_name f]} ∪ dom M)
                = ({[fd_name f]} ∪ dom M : gset string)) by set_solver.
  rewrite E1, E2.
  rewrite nonempty_empty, sorted_set_empty.
  set (both := sorted_set _).
  assert (Hk : fd_name f ∈ both).
  { apply elem_of_sorted_set. set_solver. }
  rewrite (flat_map_single _ both (fd_name f) (NoDup_sorted_set _) Hk).
  2:{ intros x _ Hx. rewrite !lookup_insert_ne by congruence.
      destruct (M !! x); [|reflexivity]. now rewrite String.eqb_refl. }
  rewrite (flat_map_nil _ both).
  2:{ intros x _. destruct (decide (x = fd_name f)) as [->|Hx].
      - rewrite !lookup_insert_eq. cbn. now rewrite String.eqb_refl.
      - rewrite !lookup_insert_ne by congruence.
        destruct (M !! x); [|reflexivity]. now rewrite String.eqb_refl. }
  rewrite !lookup_insert_eq. cbn [fd_offset with_offset].
  destruct (String.eqb_spec (fd_offset f) off'); [contradiction|].
  reflexivity.
Qed.

Lemma common_loop_single (old new : gmap string Template) (k : string)
    (lines : list record) (n : nat) (l : list string) :
  NoDup l -> k ∈ l ->
  common_step old new ([], 0) k = (lines, n) ->
  (forall x, x ∈ l -> x <> k -> forall acc, common_step old new acc x = acc) ->
  forall results c,
    fold_left (common_step old new) l (results, c) = (results ++ lines, c + n).
Proof.
  intros Hnd Hk Hstep Hother.
  assert (Hk' : forall results c,
            common_step old new (results, c) k = (results ++ lines, c + n)).
  { intros results c. unfold common_step in *.
    destruct (old !! k), (new !! k); try (inversion Hstep; subst;
      now rewrite app_nil_r, Nat.add_0_r).
    destruct (template_changes k t t0). inversion Hstep; subst. reflexivity. }
  assert (Hrest : forall l', (forall x, x ∈ l' -> forall acc, common_step old new acc x = acc) ->
            forall acc, fold_left (common_step old new) l' acc = acc).
  { induction l' as [|a l' IH]; intros H acc; cbn [fold_left]; [reflexivity|].
    rewrite (H a) by left. apply IH. intros x Hx. apply H. now right. }
  clear Hstep. revert Hnd Hk Hother.
  induction l as [|a l IH]; intros Hnd Hk Hother results c; [inversion Hk|].
  apply NoDup_cons in Hnd as [Ha Hnd]. cbn [fold_left].
  apply elem_of_cons in Hk as [<-|Hk].
  - rewrite Hk'. apply Hrest. intros x Hx. apply Hother; [now right|].
    intros ->. contradiction.
  - rewrite (Hother a); [|left|intros ->; contradiction].
    apply IH; auto. intros x Hx. apply Hother. now right.
Qed.

Lemma any_crit_elem (results : list record) (msg : string) :
  ("CRIT", msg) ∈ results -> any_crit results = true.
Proof.
  intros H. unfold any_crit. apply existsb_exists. exists ("CRIT", msg).
  split; [now apply list_elem_of_In|reflexivity].
Qed.

Lemma diff_structs_size_changed (old new : gmap string StructDef)
    (name : string) (so sn : StructDef) :
  old !! name = Some so -> new !! name = Some sn ->
  sd_size_bytes so <> sd_size_bytes sn ->
  ("CRIT", name +:+ ": size changed " +:+ pretty (sd_size_bytes so) +:+ " -> "
             +:+ pretty (sd_size_bytes sn)) ∈ diff_structs old new.
Proof.
  intros Ho Hn Hne. unfold diff_structs.
  rewrite !elem_of_app. right. right.
  apply elem_of_flat_map. exists name. split.
  - apply elem_of_sorted_set. apply elem_of_intersection.
    split; apply elem_of_dom; eauto.
  - rewrite Ho, Hn. destruct (Z.eqb_spec (sd_size_bytes so) (sd_size_bytes sn));
      [contradiction|]. now left.
Qed.

End DiffFacts.

(** * The properties of the specification *)

Import PyStr Re PySort GenerateSchema DiffSchemas Fixtures.
Import StrFacts ReFacts ListFacts SchemaFacts DiffFacts.

(** ** The differ *)

(** C1, as amended.  Two schemas that differ only in the offset of one field
    of one common template, where no later field of that template has the
    same name: [diff_templates] returns the summary line, the line of the
    template, and exactly one [CRIT] line for the field, and [main] exits
    with 2.  For all schemas, [main] exits with 2 when some result has a
    [CRIT] line and with 0 when none has. *)
Theorem offset_change_is_critical (old_schema : Schema) (tname : string)
    (t : Template) (pre post : list FieldDef) (f : FieldDef) (off' : string) :
  s_templates old_schema !! tname = Some t ->
  t_fields t = pre ++ f :: post ->
  (forall f', f' ∈ post -> fd_name f' <> fd_name f) ->
  fd_offset f <> off' ->
  let new_schema :=
    MkSchema (s_version old_schema) (s_enums old_schema) (s_structs old_schema)
      (<[tname := with_fields t (pre ++ with_offset f off' :: post)]>
         (s_templates old_schema))
      (s_inheritance old_schema) in
  diff_templates (s_templates old_schema) (s_templates new_schema) =
    [("CRIT", "*** 1 OFFSET CHANGES - extraction code must be regenerated ***");
     ("CHG", tname +:+ ":");
     ("CRIT", "  OFFSET " +:+ fd_name f +:+ ": " +:+ fd_offset f +:+ " -> " +:+ off')]
  /\ DiffSchemas.main (Some old_schema) (Some new_schema) = 2%Z
  /\ (forall a b : Schema,
        DiffSchemas.main (Some a) (Some b) =
        if any_crit (diff_enums (s_enums a) (s_enums b)) ||
           any_crit (diff_structs (s_structs a) (s_structs b)) ||
           any_crit (diff_templates (s_templates a) (s_templates b))
        then 2%Z else 0%Z).
Proof.
  intros Ht Hf Hpost Hoff new_schema.
  set (old := s_templates old_schema) in *.
  set (t' := with_fields t (pre ++ with_offset f off' :: post)) in *.
  assert (Hdiff : diff_templates old (<[tname := t']> old) =
    [("CRIT", "*** 1 OFFSET CHANGES - extraction code must be regenerated ***");
     ("CHG", tname +:+ ":");
     ("CRIT", "  OFFSET " +:+ fd_name f +:+ ": " +:+ fd_offset f +:+ " -> " +:+ off')]).
  { unfold diff_templates.
    assert (Hdom : dom (<[tname := t']> old) = dom old).
    { rewrite dom_insert_L. apply elem_of_dom_2 in Ht. set_solver. }
    rewrite Hdom.
    assert (E1 : dom old ∖ dom old = (∅ : gset string)) by set_solver.
    assert (E2 : dom old ∩ dom old = dom old) by set_solver.
    rewrite E1, E2. unfold name_section. rewrite nonempty_empty. simpl app.
    rewrite (common_loop_single old (<[tname := t']> old) tname
               [("CHG", tname +:+ ":");
                ("CRIT", "  OFFSET " +:+ fd_name f +:+ ": " +:+ fd_offset f
                           +:+ " -> " +:+ off')] 1).
    - reflexivity.
    - apply NoDup_sorted_set.
    - apply elem_of_sorted_set. now apply elem_of_dom_2 in Ht.
    - unfold common_step. rewrite Ht, lookup_insert_eq.
      unfold t'. now rewrite (template_changes_offset tname t pre post f off').
    - intros x _ Hx [results c]. unfold common_step.
      rewrite lookup_insert_ne by congruence.
      destruct (old !! x) as [tx|]; [|reflexivity].
      rewrite template_changes_same. now rewrite app_nil_r, Nat.add_0_r. }
  split; [exact Hdiff|]. split; [|reflexivity].
  unfold main. cbn [s_templates new_schema]. fold old. rewrite Hdiff.
  cbn [any_crit existsb fst]. rewrite orb_true_r. reflexivity.
Qed.

Lemma offset_change_is_critical_witness :
  diff_templates (s_templates weapon_schema)
    (<["WeaponTemplate" :=
         MkTemplate (Some "BaseItemTemplate") false
           [MkFieldDef "MinRange" "int" "0x88" "primitive" None;
            MkFieldDef "Damage" "float" "0xFF" "primitive" None;
            MkFieldDef "Ammo" "int" "0x98" "primitive" None]]>
       (s_templates weapon_schema)) =
  [("CRIT", "*** 1 OFFSET CHANGES - extraction code must be regenerated ***");
   ("CHG", "WeaponTemplate:");
   ("CRIT", "  OFFSET Damage: 0x90 -> 0xFF")].
Proof.
  refine (proj1 (offset_change_is_critical weapon_schema "WeaponTemplate"
            (MkTemplate (Some "BaseItemTemplate") false
               [MkFieldDef "MinRange" "int" "0x88" "primitive" None;
                MkFieldDef "Damage" "float" "0x90" "primitive" None;
                MkFieldDef "Ammo" "int" "0x98" "primitive" None])
            [MkFieldDef "MinRange" "int" "0x88" "primitive" None]
            [MkFieldDef "Ammo" "int" "0x98" "primitive" None]
            (MkFieldDef "Damage" "float" "0x90" "primitive" None)
            "0xFF" _ _ _ _)).
  - reflexivity.
  - reflexivity.
  - intros f' Hf'. apply list_elem_of_singleton in Hf'. subst f'. discriminate.
  - discriminate.
Defined.

(** C1 as stated fails when the changed field is shadowed by a later field
    of the same name (a derived class that declares a name of its base
    again): the differ compares one field per name, the last, reports
    nothing, and [main] exits with 0. *)
Lemma offset_change_shadowed_unreported :
  let fields (first_offset : string) :=
    [MkFieldDef "A" "int" first_offset "primitive" None;
     MkFieldDef "A" "int" "0x20" "primitive" None] in
  let schema (first_offset : string) :=
    MkSchema "1.0.0" ∅ ∅
      {[ "ChildTemplate" := MkTemplate (Some "Common") false (fields first_offset) ]}
      ∅ in
  diff_templates (s_templates (schema "0x10")) (s_templates (schema "0x18")) = [] /\
  DiffSchemas.main (Some (schema "0x10")) (Some (schema "0x18")) = 0%Z.
Proof. split; vm_compute; reflexivity. Qed.

(** ** Struct sizes *)

(** C10, as amended.  [parse_all_structs] returns for every dump; every
    struct of its result has [size_bytes] equal to the value of the hex
    offset of its last parsed field plus 4; a name whose declarations all
    parse to no field is not in the result; and when a second dump gives
    the same struct one more field at the end, at an offset other than
    that of the previous last field, the sizes are the two last offsets
    plus 4 and [diff_structs] reports the [CRIT] size line. *)
Theorem struct_size_from_last_field (content : string) :
  exists structs, parse_all_structs content = Some structs /\
    (forall name sd, structs !! name = Some sd -> sized_by_last_field sd) /\
    (forall name,
       (forall m, m ∈ finditer struct_pattern content -> group 1 m = name ->
                  struct_fields_in m = []) ->
       structs !! name = None) /\
    (forall content' structs' name sd sd' f off off',
       parse_all_structs content' = Some structs' ->
       structs !! name = Some sd -> structs' !! name = Some sd' ->
       sd_fields sd' = sd_fields sd ++ [f] ->
       (last (sd_fields sd) ≫= fun l => int16 (rf_offset l)) = Some off ->
       int16 (rf_offset f) = Some off' ->
       off <> off' ->
       sd_size_bytes sd = (off + 4)%Z /\ sd_size_bytes sd' = (off' + 4)%Z /\
       ("CRIT", name +:+ ": size changed " +:+ pretty (off + 4)%Z +:+ " -> "
                  +:+ pretty (off' + 4)%Z) ∈ diff_structs structs structs').
Proof.
  unfold parse_all_structs.
  destruct (parse_struct_decls_some (finditer struct_pattern content) ∅)
    as [structs Hs].
  assert (Hinv : forall name sd, structs !! name = Some sd -> sized_by_last_field sd).
  { intros name sd H.
    destruct (parse_struct_decls_origin _ _ _ _ _ Hs H) as [H0|(m & _ & _ & _ & HP)];
      [rewrite lookup_empty in H0; discriminate|exact HP]. }
  exists structs. split; [exact Hs|]. split; [exact Hinv|]. split.
  - intros name Hzero. destruct (structs !! name) as [sd|] eqn:E; [|reflexivity].
    destruct (parse_struct_decls_origin _ _ _ _ _ Hs E)
      as [H0|(m & Hm & Hname & Hf & (lf & v & Hl & _))];
      [rewrite lookup_empty in H0; discriminate|].
    rewrite Hf, (Hzero m Hm Hname) in Hl. discriminate.
  - intros content' structs' name sd sd' f off off' Hs' Hsd Hsd' Happ Hoff Hoff' Hlt.
    assert (Hinv' : sized_by_last_field sd').
    { destruct (parse_struct_decls_origin _ _ _ _ _ Hs' Hsd')
        as [H0|(m & _ & _ & _ & HP)];
        [rewrite lookup_empty in H0; discriminate|exact HP]. }
    destruct (Hinv _ _ Hsd) as (lf & v & Hl & Hv & Hsize).
    destruct Hinv' as (lf' & v' & Hl' & Hv' & Hsize').
    rewrite Hl in Hoff. simpl in Hoff. rewrite Hv in Hoff. inversion Hoff; subst v.
    rewrite Happ, last_snoc in Hl'. inversion Hl'; subst lf'.
    rewrite Hoff' in Hv'. inversion Hv'; subst v'.
    split; [exact Hsize|]. split; [exact Hsize'|].
    assert (Hin : ("CRIT", name +:+ ": size changed " +:+ pretty (off + 4)%Z +:+ " -> "
                  +:+ pretty (off' + 4)%Z) ∈ diff_structs structs structs').
    { rewrite <- Hsize, <- Hsize'. apply diff_structs_size_changed; auto. lia. }
    exact Hin.
Qed.

Lemma struct_size_from_last_field_witness :
  exists structs structs',
    parse_all_structs damage_info_dump = Some structs /\
    parse_all_structs damage_info_dump' = Some structs' /\
    (sd_size_bytes <$> structs !! "DamageInfo") = Some 12%Z /\
    (sd_size_bytes <$> structs' !! "DamageInfo") = Some 16%Z /\
    ("CRIT", "DamageInfo: size changed 12 -> 16") ∈ diff_structs structs structs'.
Proof.
  assert (Hv : parse_all_structs damage_info_dump =
    Some {[ "DamageInfo" := MkStructDef 12
            [MkRawField "int" "MinDamage" "0x0"; MkRawField "int" "MaxDamage" "0x4";
             MkRawField "float" "CritChance" "0x8"] ]}) by (vm_compute; reflexivity).
  assert (Hs' : parse_all_structs damage_info_dump' =
    Some {[ "DamageInfo" := MkStructDef 16
            [MkRawField "int" "MinDamage" "0x0"; MkRawField "int" "MaxDamage" "0x4";
             MkRawField "float" "CritChance" "0x8"; MkRawField "int" "Armor" "0xC"] ]})
    by (vm_compute; reflexivity).
  destruct (struct_size_from_last_field damage_info_dump)
    as (structs & Hs & _ & _ & Hdiff).
  rewrite Hv in Hs. injection Hs as <-.
  eexists _, _. split; [exact Hv|]. split; [exact Hs'|].
  split; [now rewrite lookup_singleton_eq|].
  split; [now rewrite lookup_singleton_eq|].
  refine (proj2 (proj2 (Hdiff damage_info_dump' _ "DamageInfo" _ _
            (MkRawField "int" "Armor" "0xC") 8%Z 12%Z Hs'
            (lookup_singleton_eq _ _) (lookup_singleton_eq _ _) _ _ _ _)));
    first [reflexivity | discriminate].
Defined.

(** C10 as stated fails.  In a struct with explicit layout a field can
    stand at the offset of the field before it: the second dump appends
    [AsFloat] after the previous last field [AsInt], at the same offset
    [0x4].  The last offset is what it was, [size_bytes] stays 8, and
    [diff_structs] reports nothing. *)
Lemma field_appended_at_same_offset_unreported :
  let old_dump :=
"public struct Variant // TypeDefIndex: 701
{
	// Fields
	public int Tag; // 0x0
	public int AsInt; // 0x4
}
" in
  let new_dump :=
"public struct Variant // TypeDefIndex: 701
{
	// Fields
	public int Tag; // 0x0
	public int AsInt; // 0x4
	public float AsFloat; // 0x4
}
" in
  let fields :=
    [MkRawField "int" "Tag" "0x0"; MkRawField "int" "AsInt" "0x4"] in
  exists structs structs',
    parse_all_structs old_dump = Some structs /\
    parse_all_structs new_dump = Some structs' /\
    structs !! "Variant" = Some (MkStructDef 8 fields) /\
    structs' !! "Variant" =
      Some (MkStructDef 8 (fields ++ [MkRawField "float" "AsFloat" "0x4"])) /\
    diff_structs structs structs' = [].
Proof.
  intros old_dump new_dump fields.
  exists {[ "Variant" := MkStructDef 8 fields ]},
         {[ "Variant" :=
              MkStructDef 8 (fields ++ [MkRawField "float" "AsFloat" "0x4"]) ]}.
  split; [vm_compute; reflexivity|].
  split; [vm_compute; reflexivity|].
  split; [apply lookup_singleton_eq|]. split; [apply lookup_singleton_eq|].
  vm_compute. reflexivity.
Qed.

(** ** Class fields at offset zero *)

Lemma class_fields_of_elem (ms : list rmatch) (f : RawField) :
  f ∈ class_fields_of ms ->
  exists m, m ∈ ms /\
    class_field_skipped (group 2 m) (group 3 m) = false /\
    f = MkRawField (group 1 m) (group 2 m) ("0x" +:+ group 3 m).
Proof.
  unfold class_fields_of. rewrite elem_of_flat_map. intros (m & Hm & Hf).
  exists m. split; [exact Hm|]. cbv zeta in Hf.
  destruct (class_field_skipped (group 2 m) (group 3 m)); [inversion Hf|].
  apply list_elem_of_singleton in Hf. auto.
Qed.

(** C5, as amended.  In class field parsing a field whose offset comment is
    the literal [0x0] is always excluded, whether the member is static or
    not: no field of a parsed class has the offset [0x0]. *)
Theorem class_fields_never_at_offset_zero (content class_name : string)
    (allow_abstract : bool) (info : ClassInfo) (f : RawField) :
  parse_class_from_dump content class_name allow_abstract = Some info ->
  f ∈ ci_fields info ->
  rf_offset f <> "0x0".
Proof.
  unfold parse_class_from_dump. intros H Hf.
  destruct (first_search _ content) as [m|]; [|discriminate].
  inversion H; subst info. cbn [ci_fields] in Hf.
  apply class_fields_of_elem in Hf as (fm & _ & Hskip & ->).
  unfold class_field_skipped in Hskip.
  apply orb_false_iff in Hskip as [_ Hzero].
  apply String.eqb_neq in Hzero. cbn [rf_offset]. simpl.
  intros E. inversion E. contradiction.
Qed.

Lemma class_fields_never_at_offset_zero_witness :
  parse_class_from_dump point_dump "PointTemplate" true =
    Some (MkClassInfo "PointTemplate" (Some "ScriptableObject") false
            [MkRawField "int" "Y" "0x4"]) /\
  rf_offset (MkRawField "int" "Y" "0x4") <> "0x0".
Proof.
  assert (H : parse_class_from_dump point_dump "PointTemplate" true =
    Some (MkClassInfo "PointTemplate" (Some "ScriptableObject") false
            [MkRawField "int" "Y" "0x4"])) by (vm_compute; reflexivity).
  split; [exact H|].
  apply (class_fields_never_at_offset_zero point_dump "PointTemplate" true _ _ H).
  cbn [ci_fields]. apply list_elem_of_singleton. reflexivity.
Defined.

(** C5 as stated fails: [X] is an instance field (its line has no
    [static]), the first of a class whose base is a root type, and the
    class parser drops it for its offset alone; the struct parser keeps the
    same line. *)
Lemma offset_zero_instance_field_dropped :
  (ci_fields <$> parse_class_from_dump point_dump "PointTemplate" true) =
    Some [MkRawField "int" "Y" "0x4"] /\
  collect_all_fields point_dump "PointTemplate" = [MkRawField "int" "Y" "0x4"] /\
  struct_fields_of "	public int X; // 0x0
	public int Y; // 0x4"
    (finditer field_pattern "	public int X; // 0x0
	public int Y; // 0x4") =
    [MkRawField "int" "X" "0x0"; MkRawField "int" "Y" "0x4"].
Proof. repeat split; vm_compute; reflexivity. Qed.

(** ** Array types in the classifier *)

(** C4 fails on the code for an array of a primitive, string, enum, struct,
    localization or asset name: [rstrip] removes the brackets before the
    first tests, which return before the collection test is reached.  The
    [List<T>] form of the same element is a collection. *)
Example array_of_known_name_not_collection :
  classify_field "int[]" ∅ ∅ ∅ = ("primitive", None) /\
  classify_field "string[]" ∅ ∅ ∅ = ("string", None) /\
  classify_field "WeaponType[]" {[ "WeaponType" ]} ∅ ∅ = ("enum", None) /\
  classify_field "DamageInfo[]" ∅ {[ "DamageInfo" ]} ∅ = ("struct", None) /\
  classify_field "LocalizedLine[]" ∅ ∅ ∅ = ("localization", None) /\
  classify_field "Sprite[]" ∅ ∅ ∅ = ("unity_asset", None) /\
  classify_field "List<int>" ∅ ∅ ∅ = ("collection", Some "int") /\
  classify_field "Perk[]" ∅ ∅ ∅ = ("collection", Some "Perk").
Proof. repeat split; vm_compute; reflexivity. Qed.

(** ** The recorded ancestor chain *)

(** C6 fails on the code: both branches of the conditional in
    [build_template_hierarchy] store the parent, so a base that is neither
    a template nor a root sentinel is recorded and then appears in the
    chain. *)
Example non_template_base_in_chain :
  parse_all_templates widget_dump = ["ChildTemplate"] /\
  build_template_hierarchy widget_dump {[ "ChildTemplate" ]} =
    {[ "ChildTemplate" := "Widget" ]} /\
  (s_inheritance <$> build_schema widget_dump) =
    Some {[ "ChildTemplate" := ["Widget"; "ChildTemplate"] ]}.
Proof. repeat split; vm_compute; reflexivity. Qed.

(** ** The base walk *)

Module WalkFacts.
Import PyStr Re PySort GenerateSchema StrFacts ReFacts ListFacts SchemaFacts.

Lemma substring_app_mid (pre w post : string) :
  String.substring (String.length pre) (String.length w) (pre +:+ w +:+ post) = w.
Proof.
  induction pre as [|c pre IH]; simpl.
  - apply substring_0_app.
  - exact IH.
Qed.

Lemma length_flat_map_const {A B : Type} (f : A -> list B) (k : nat) (l : list A) :
  (forall a, length (f a) = k) -> length (flat_map f l) = length l * k.
Proof.
  intros H. induction l as [|a l IH]; simpl; [reflexivity|].
  rewrite length_app, H, IH. reflexivity.
Qed.

Lemma length_pieces (content : string) :
  length (pieces content) = S (String.length content) * S (String.length content).
Proof.
  unfold pieces. rewrite (length_flat_map_const _ (S (String.length content))).
  - now rewrite length_seq.
  - intros i. now rewrite length_map, length_seq.
Qed.

Lemma piece_elem (pre w post : string) :
  w ∈ pieces (pre +:+ w +:+ post).
Proof.
  unfold pieces. apply elem_of_flat_map. exists (String.length pre). split.
  - apply elem_of_seq. rewrite !str_length_app. lia.
  - apply list_elem_of_fmap. exists (String.length w). split.
    + symmetry. apply substring_app_mid.
    + apply elem_of_seq. rewrite !str_length_app. lia.
Qed.

(** The base read by the class parser is a piece of the dump. *)
Lemma base_pattern_group (kw name content : string) (m : rmatch) :
  match_of (base_pattern kw name) content m ->
  exists pre post, content = pre +:+ group 1 m +:+ post.
Proof.
  intros (pre & s0 & s' & -> & H & _ & _).
  unfold base_pattern in H. cbn [cat] in H.
  destruct H as (s1 & g1 & H1 & H). apply sem_lit in H1 as [-> ->].
  destruct H as (s2 & g2 & H2 & H). apply sem_lit in H2 as [-> ->].
  destruct H as (s3 & g3 & H3 & H). apply sem_star_cls in H3 as (w3 & -> & _ & ->).
  destruct H as (s4 & g4 & [-> ->] & H).
  destruct H as (s5 & g5 & H5 & H). apply sem_plus_cls in H5 as (w5 & -> & _ & _ & ->).
  apply sem_grp in H as (w & g6 & -> & _ & Hg).
  unfold group. rewrite Hg. cbn.
  exists (pre +:+ kw +:+ name +:+ w3 +:+ String ":" w5), s'.
  rewrite !str_app_assoc. simpl. reflexivity.
Qed.

Lemma first_search_sound (patterns : list regex) (content : string) (m : rmatch) :
  first_search patterns content = Some m ->
  exists p, p ∈ patterns /\ match_of p content m.
Proof.
  induction patterns as [|p ps IH]; simpl; [discriminate|].
  destruct (search p content) as [m0|] eqn:E.
  - intros H. inversion H; subst. exists p. split; [left|]. now apply search_sound.
  - intros H. destruct (IH H) as (q & Hq & Hm). exists q. split; [now right|exact Hm].
Qed.

Lemma parsed_base_is_piece (content class_name : string) (aa : bool)
    (info : ClassInfo) (base : string) :
  parse_class_from_dump content class_name aa = Some info ->
  ci_base info = Some base ->
  base ∈ pieces content.
Proof.
  unfold parse_class_from_dump.
  remember (first_search [base_pattern "public class " class_name;
                          base_pattern "public abstract class " class_name] content)
    as bs eqn:E.
  intros H Hb.
  destruct (first_search [class_pattern _ _; _] content) as [m|]; [|discriminate].
  injection H as <-. cbn [ci_base] in Hb.
  destruct bs as [bm|]; simpl in Hb; [|discriminate].
  injection Hb as <-. symmetry in E.
  apply first_search_sound in E as (p & Hp & Hm).
  assert (exists kw, p = base_pattern kw class_name) as [kw ->].
  { apply elem_of_cons in Hp as [->|Hp]; [eauto|].
    apply list_elem_of_singleton in Hp. eauto. }
  apply base_pattern_group in Hm as (pre & post & ->). apply piece_elem.
Qed.

Lemma size_difference_shrinks (X V : gset string) (a : string) :
  a ∈ X -> a ∉ V -> size (X ∖ ({[a]} ∪ V)) < size (X ∖ V).
Proof. intros HX HV. apply subset_size. set_solver. Qed.

Section Walk.
Variable content : string.

Abbreviation U := (list_to_set (pieces content) : gset string).

Lemma size_list_to_set_le (l : list string) :
  size (list_to_set l : gset string) <= length l.
Proof.
  induction l as [|a l IH].
  - rewrite list_to_set_nil, size_empty. simpl. lia.
  - rewrite list_to_set_cons. simpl.
    destruct (decide (a ∈ (list_to_set l : gset string))) as [Hin|Hout].
    + assert (E : {[a]} ∪ list_to_set l = (list_to_set l : gset string)) by set_solver.
      rewrite E. lia.
    + rewrite size_union by set_solver. rewrite size_singleton. lia.
Qed.

Lemma size_pieces_set :
  size U <= S (String.length content) * S (String.length content).
Proof. rewrite <- length_pieces. apply size_list_to_set_le. Qed.

(** The step of the walk: what one call does before it recurses. *)
Lemma collect_rec_visited (fuel : nat) (class_name : string) (visited : gset string) :
  class_name ∈ visited ->
  collect_all_fields_rec fuel content class_name visited = Some ([], visited, []).
Proof.
  intros H. destruct fuel; simpl; now rewrite decide_True.
Qed.

Lemma collect_rec_total :
  forall fuel class_name visited,
    class_name ∈ U ->
    size (U ∖ visited) <= fuel ->
    exists r, collect_all_fields_rec fuel content class_name visited = Some r.
Proof.
  induction fuel as [|fuel IH]; intros class_name visited HU Hsize.
  - destruct (decide (class_name ∈ visited)) as [Hin|Hout].
    + rewrite collect_rec_visited by exact Hin. eauto.
    + exfalso. assert (H0 : U ∖ visited ≡ ∅) by (apply size_empty_inv; lia).
      apply (not_elem_of_empty (C := gset string) class_name), H0.
      apply elem_of_difference. split; assumption.
  - simpl. destruct (decide (class_name ∈ visited)) as [Hin|Hout]; [eauto|].
    destruct (parse_class_from_dump content class_name true) as [info|] eqn:Ep;
      [|eauto].
    destruct (ci_base info) as [base|] eqn:Eb; [|eauto].
    destruct (negb (base =? "")%string && negb (bool_decide (base ∈ stop_bases)));
      [|eauto].
    destruct (IH base ({[class_name]} ∪ visited)) as [[[inh vis] parsed] ->].
    + apply elem_of_list_to_set. eapply parsed_base_is_piece; eauto.
    + assert (Hlt : size (U ∖ ({[class_name]} ∪ visited)) < size (U ∖ visited)).
      { apply size_difference_shrinks; assumption. }
      lia.
    + eauto.
Qed.

(** What one walk parses: no name twice, none that was visited before, and
    the visited set grows by exactly these names. *)
Lemma collect_rec_trace :
  forall fuel class_name visited fields visited' parsed,
    collect_all_fields_rec fuel content class_name visited
      = Some (fields, visited', parsed) ->
    NoDup parsed /\ (forall x, x ∈ parsed -> x ∉ visited) /\
    visited' = list_to_set parsed ∪ visited.
Proof.
  assert (Hone : forall class_name (visited : gset string),
            class_name ∉ visited ->
            NoDup [class_name] /\
            (forall x, x ∈ [class_name] -> x ∉ visited) /\
            {[class_name]} ∪ visited = list_to_set [class_name] ∪ visited).
  { intros class_name visited Hout. split; [apply NoDup_singleton|]. split.
    - intros x Hx. apply list_elem_of_singleton in Hx. now subst.
    - set_solver. }
  induction fuel as [|fuel IH]; intros class_name visited fields visited' parsed H;
    simpl in H; destruct (decide (class_name ∈ visited)) as [Hin|Hout];
    try (injection H as <- <- <-; split; [constructor|];
         split; [intros x Hx; inversion Hx|set_solver]);
    destruct (parse_class_from_dump content class_name true) as [info|];
    try (injection H as <- <- <-; now apply Hone);
    destruct (ci_base info) as [base|];
    try (injection H as <- <- <-; now apply Hone);
    destruct (negb (base =? "")%string && negb (bool_decide (base ∈ stop_bases)));
    try (injection H as <- <- <-; now apply Hone);
    try discriminate.
  destruct (collect_all_fields_rec fuel content base ({[class_name]} ∪ visited))
    as [[[inh vis] par]|] eqn:Er; [|discriminate].
  injection H as <- <- <-.
  destruct (IH _ _ _ _ _ Er) as (Hnd & Hfresh & ->).
  split; [|split].
  - apply NoDup_cons. split; [|exact Hnd].
    intros Hx. apply Hfresh in Hx. set_solver.
  - intros x Hx. apply elem_of_cons in Hx as [->|Hx]; [exact Hout|].
    apply Hfresh in Hx. set_solver.
  - set_solver.
Qed.

(** More fuel changes nothing. *)
Lemma collect_rec_more_fuel :
  forall fuel fuel' class_name visited r,
    collect_all_fields_rec fuel content class_name visited = Some r ->
    fuel <= fuel' ->
    collect_all_fields_rec fuel' content class_name visited = Some r.
Proof.
  induction fuel as [|fuel IH]; intros fuel' class_name visited r H Hle.
  - destruct fuel' as [|fuel']; [exact H|]. simpl in *.
    destruct (decide (class_name ∈ visited)); [exact H|].
    destruct (parse_class_from_dump content class_name true) as [info|]; [|exact H].
    destruct (ci_base info) as [base|]; [|exact H].
    destruct (negb (base =? "")%string && negb (bool_decide (base ∈ stop_bases)));
      [discriminate|exact H].
  - destruct fuel' as [|fuel']; [lia|]. simpl in *.
    destruct (decide (class_name ∈ visited)); [exact H|].
    destruct (parse_class_from_dump content class_name true) as [info|]; [|exact H].
    destruct (ci_base info) as [base|]; [|exact H].
    destruct (negb (base =? "")%string && negb (bool_decide (base ∈ stop_bases)));
      [|exact H].
    destruct (collect_all_fields_rec fuel content base ({[class_name]} ∪ visited))
      as [r0|] eqn:Er; [|discriminate].
    rewrite (IH fuel' _ _ _ Er) by lia. exact H.
Qed.

(** Names visited before the walk that the walk does not meet change
    nothing but the set returned. *)
Lemma collect_rec_more_visited :
  forall fuel class_name visited extra fields visited' parsed,
    collect_all_fields_rec fuel content class_name visited
      = Some (fields, visited', parsed) ->
    (forall x, x ∈ parsed -> x ∉ extra) ->
    collect_all_fields_rec fuel content class_name (visited ∪ extra)
      = Some (fields, visited' ∪ extra, parsed).
Proof.
  induction fuel as [|fuel IH];
    intros class_name visited extra fields visited' parsed H Hextra; simpl in *.
  - destruct (decide (class_name ∈ visited)) as [Hin|Hout].
    + injection H as <- <- <-. rewrite decide_True by set_solver. reflexivity.
    + assert (Hp : class_name ∈ parsed).
      { destruct (parse_class_from_dump content class_name true) as [info|];
          [|injection H as <- <- <-; left].
        destruct (ci_base info) as [base|]; [|injection H as <- <- <-; left].
        destruct (negb (base =? "")%string && negb (bool_decide (base ∈ stop_bases)));
          [discriminate|injection H as <- <- <-; left]. }
      rewrite decide_False by (specialize (Hextra _ Hp); set_solver).
      assert (E : {[class_name]} ∪ (visited ∪ extra)
                  = ({[class_name]} ∪ visited) ∪ extra) by set_solver.
      rewrite E.
      destruct (parse_class_from_dump content class_name true) as [info|];
        [|injection H as <- <- <-; reflexivity].
      destruct (ci_base info) as [base|]; [|injection H as <- <- <-; reflexivity].
      destruct (negb (base =? "")%string && negb (bool_decide (base ∈ stop_bases)));
        [discriminate|injection H as <- <- <-; reflexivity].
  - destruct (decide (class_name ∈ visited)) as [Hin|Hout].
    + injection H as <- <- <-. rewrite decide_True by set_solver. reflexivity.
    + assert (E : {[class_name]} ∪ (visited ∪ extra)
                  = ({[class_name]} ∪ visited) ∪ extra) by set_solver.
      destruct (parse_class_from_dump content class_name true) as [info|].
      2:{ injection H as <- <- <-.
          rewrite decide_False by (specialize (Hextra class_name); set_solver).
          now rewrite E. }
      destruct (ci_base info) as [base|].
      2:{ injection H as <- <- <-.
          rewrite decide_False by (specialize (Hextra class_name); set_solver).
          now rewrite E. }
      destruct (negb (base =? "")%string && negb (bool_decide (base ∈ stop_bases))).
      2:{ injection H as <- <- <-.
          rewrite decide_False by (specialize (Hextra class_name); set_solver).
          now rewrite E. }
      destruct (collect_all_fields_rec fuel content base ({[class_name]} ∪ visited))
        as [[[inh vis] par]|] eqn:Er; [|discriminate].
      injection H as <- <- <-.
      rewrite decide_False by (specialize (Hextra class_name); set_solver).
      rewrite E.
      rewrite (IH _ _ extra _ _ _ Er); [reflexivity|].
      intros x Hx. apply Hextra. now right.
Qed.

End Walk.

Lemma endswith_app (p x : string) : endswith p (x +:+ p) = true.
Proof.
  induction x as [|c x IH].
  - simpl. destruct p; cbn [endswith]; now rewrite String.eqb_refl.
  - cbn [String.append endswith]. rewrite IH. apply orb_true_r.
Qed.

Lemma template_name_pattern_group (kw content : string) (m : rmatch) :
  match_of (template_name_pattern kw) content m ->
  endswith "Template" (group 1 m) = true.
Proof.
  intros (pre & s0 & s' & _ & H & _ & _).
  unfold template_name_pattern in H. cbn [cat] in H.
  destruct H as (s1 & g1 & H1 & H). apply sem_lit in H1 as [-> ->].
  destruct H as (s2 & g2 & H2 & H).
  apply sem_grp in H2 as (w & g3 & E & H2 & ->).
  destruct H2 as (s3 & g4 & H3 & H4).
  apply sem_plus_cls in H3 as (x & -> & _ & _ & ->).
  apply sem_lit in H4 as [-> ->].
  rewrite <- str_app_assoc in E. apply str_app_inv_tail in E.
  destruct H as (c & _ & _ & Hg).
  unfold group. rewrite Hg. cbn. rewrite <- E. apply (endswith_app "Template").
Qed.

Lemma parse_all_templates_suffix (content name : string) :
  name ∈ parse_all_templates content -> endswith "Template" name = true.
Proof.
  unfold parse_all_templates. rewrite elem_of_sorted_set, elem_of_filter.
  intros [_ H]. apply elem_of_union in H.
  destruct H as [H|H]; apply elem_of_list_to_set in H; unfold findall1 in H;
    apply list_elem_of_fmap in H as (m & -> & Hm);
    apply finditer_sound in Hm; eapply template_name_pattern_group; eauto.
Qed.

Lemma template_name_walked (name : string) :
  endswith "Template" name = true ->
  negb (name =? "")%string && negb (bool_decide (name ∈ stop_bases)) = true.
Proof.
  intros H. apply andb_true_iff. split.
  - destruct name; [discriminate|reflexivity].
  - apply negb_true_iff, bool_decide_eq_false. unfold stop_bases.
    rewrite !elem_of_union, !elem_of_singleton.
    intros [[[->| ->]| ->]| ->]; vm_compute in H; discriminate.
Qed.

Lemma build_templates_lookup (content : string) (ke ks kt : gset string)
    (names : list string) :
  forall (acc : gmap string Template) (T : string) (tT : Template),
    fold_left (add_template content ke ks kt) names acc !! T = Some tT ->
    acc !! T = Some tT \/
    (T ∈ names /\ exists info,
       parse_class_from_dump content T true = Some info /\
       tT = MkTemplate (ci_base info) (ci_is_abstract info)
              (map (classify_entry ke ks kt) (collect_all_fields content T))).
Proof.
  induction names as [|n names IH]; intros acc T tT H; simpl in H; [now left|].
  apply IH in H as [H|(Hin & info & Hp & ->)].
  - unfold add_template in H.
    destruct (parse_class_from_dump content n true) as [info|] eqn:Ep; [|now left].
    destruct (decide (n = T)) as [->|Hne].
    + rewrite lookup_insert_eq in H. injection H as <-.
      right. split; [left|]. eauto.
    + rewrite lookup_insert_ne in H by exact Hne. now left.
  - right. split; [now right|]. eauto.
Qed.

Lemma collect_run_total (content class_name : string) :
  exists r, collect_all_fields_run content class_name = Some r.
Proof.
  unfold collect_all_fields_run, walk_fuel. simpl.
  rewrite decide_False by set_solver.
  destruct (parse_class_from_dump content class_name true) as [info|] eqn:Ep;
    [|eauto].
  destruct (ci_base info) as [base|] eqn:Eb; [|eauto].
  destruct (negb (base =? "")%string && negb (bool_decide (base ∈ stop_bases)));
    [|eauto].
  destruct (collect_rec_total content
              (S (String.length content) * S (String.length content))
              base ({[class_name]} ∪ ∅)) as [[[inh vis] par] Hr].
  - apply elem_of_list_to_set. eapply parsed_base_is_piece; eauto.
  - etransitivity; [|apply size_pieces_set]. apply subseteq_size. set_solver.
  - simpl in Hr. rewrite Hr. eauto.
Qed.

Lemma collect_extend_parent (content T P : string) (info : ClassInfo) :
  parse_class_from_dump content T true = Some info ->
  ci_base info = Some P ->
  negb (P =? "")%string && negb (bool_decide (P ∈ stop_bases)) = true ->
  T ∉ walk_names content P ->
  collect_all_fields content T = collect_all_fields content P ++ ci_fields info.
Proof.
  intros Hp Hb Hwalk Hacyclic.
  destruct (collect_run_total content P) as [[[fsP visP] parsedP] HP].
  unfold walk_names in Hacyclic. unfold collect_all_fields at 2.
  rewrite HP in *.
  unfold collect_all_fields, collect_all_fields_run, walk_fuel.
  cbn [collect_all_fields_rec].
  rewrite decide_False by set_solver. rewrite Hp, Hb, Hwalk.
  set (F := S (String.length content) * S (String.length content)).
  destruct (collect_rec_total content F P ({[T]} ∪ ∅)) as [r Hr].
  - apply elem_of_list_to_set. eapply parsed_base_is_piece; eauto.
  - etransitivity; [|apply size_pieces_set]. apply subseteq_size. set_solver.
  - rewrite Hr.
    pose proof (collect_rec_more_fuel content _ (S F) _ _ _ Hr ltac:(lia)) as Hr'.
    unfold collect_all_fields_run, walk_fuel in HP. fold F in HP.
    pose proof (collect_rec_more_visited content _ _ _ {[T]} _ _ _ HP) as Hv.
    assert (E : ∅ ∪ {[T]} = ({[T]} ∪ ∅ : gset string)) by set_solver.
    rewrite E in Hv. rewrite Hv in Hr'.
    + injection Hr' as <-. reflexivity.
    + intros x Hx. set_solver.
Qed.

(** The fuel of [get_inheritance_chain] is enough: more fuel gives the same
    chain.  Every turn that goes on has a key of [hierarchy] as [current],
    and no name is [current] twice. *)
Lemma chain_loop_fuel (hierarchy : gmap string string) :
  forall n rest current fuel1 fuel2,
    size (dom hierarchy ∖ list_to_set rest) < n ->
    n <= fuel1 -> n <= fuel2 ->
    NoDup (rest ++ [current]) ->
    (forall x, x ∈ rest -> x ∈ dom hierarchy) ->
    chain_loop fuel1 hierarchy (rest ++ [current]) current =
    chain_loop fuel2 hierarchy (rest ++ [current]) current.
Proof.
  induction n as [|n IH]; intros rest current fuel1 fuel2 Hn H1 H2 Hnd Hkeys; [lia|].
  destruct fuel1 as [|fuel1]; [lia|]. destruct fuel2 as [|fuel2]; [lia|].
  cbn [chain_loop].
  destruct (hierarchy !! current) as [parent|] eqn:E; [|reflexivity].
  destruct (String.eqb parent ""); [reflexivity|].
  destruct (bool_decide (parent ∈ rest ++ [current])) eqn:Ep; [reflexivity|].
  apply bool_decide_eq_false in Ep.
  apply (IH (rest ++ [current]) parent fuel1 fuel2); try lia.
  - assert (Hc : current ∈ dom hierarchy) by (apply elem_of_dom; eauto).
    assert (Hout : current ∉ (list_to_set rest : gset string)).
    { rewrite elem_of_list_to_set. apply NoDup_app in Hnd as (_ & Hd & _).
      intros Hin. apply (Hd _ Hin). left. }
    pose proof (size_difference_shrinks _ _ _ Hc Hout) as Hlt.
    assert (Eq : (list_to_set (rest ++ [current]) : gset string) =
                 {[current]} ∪ list_to_set rest).
    { rewrite list_to_set_app_L. simpl. set_solver. }
    rewrite Eq. lia.
  - apply NoDup_app. split; [exact Hnd|]. split; [|apply NoDup_singleton].
    intros x Hx Hx'. apply list_elem_of_singleton in Hx'. subst x. contradiction.
  - intros x Hx. apply elem_of_app in Hx as [Hx|Hx]; [auto|].
    apply list_elem_of_singleton in Hx. subst x. apply elem_of_dom; eauto.
Qed.

Lemma get_inheritance_chain_fuel (class_name : string)
    (hierarchy : gmap string string) (fuel : nat) :
  S (size hierarchy) <= fuel ->
  rev (chain_loop fuel hierarchy [class_name] class_name) =
  get_inheritance_chain class_name hierarchy.
Proof.
  intros Hf. unfold get_inheritance_chain. f_equal.
  apply (chain_loop_fuel hierarchy (S (size hierarchy)) [] class_name); try lia.
  - simpl. rewrite difference_empty_L, size_dom. lia.
  - apply NoDup_singleton.
  - intros x Hx. inversion Hx.
Qed.

End WalkFacts.

Import WalkFacts.

Module LimitFacts.
Import PyStr Re PySort GenerateSchema StrFacts ReFacts ListFacts SchemaFacts WalkFacts.

Section Limit.
Variable content : string.

Lemma limited_step (frames : nat) (class_name : string) (visited : gset string) :
  collect_all_fields_limited (S frames) content class_name visited =
  if decide (class_name ∈ visited) then Returned [] visited []
  else
    match parse_class_from_dump content class_name true with
    | None => Returned [] ({[ class_name ]} ∪ visited) [class_name]
    | Some class_info =>
        match ci_base class_info with
        | Some base =>
            if negb (String.eqb base "") && negb (bool_decide (base ∈ stop_bases)) then
              match collect_all_fields_limited frames content base
                      ({[ class_name ]} ∪ visited) with
              | RecursionError => RecursionError
              | Returned inherited visited' parsed =>
                  Returned (inherited ++ ci_fields class_info) visited'
                    (class_name :: parsed)
              end
            else Returned (ci_fields class_info) ({[ class_name ]} ∪ visited) [class_name]
        | None => Returned (ci_fields class_info) ({[ class_name ]} ∪ visited) [class_name]
        end
    end.
Proof. reflexivity. Qed.

(** The walk under the limit is the walk on fuel: one frame for the first
    call, one unit of fuel for each call below it. *)
Lemma limited_rec :
  forall frames class_name visited,
    collect_all_fields_limited (S frames) content class_name visited =
    match collect_all_fields_rec frames content class_name visited with
    | Some (fields, visited', parsed) => Returned fields visited' parsed
    | None => RecursionError
    end.
Proof.
  induction frames as [|frames IH]; intros class_name visited.
  - simpl. destruct (decide (class_name ∈ visited)); [reflexivity|].
    destruct (parse_class_from_dump content class_name true) as [info|]; [|reflexivity].
    destruct (ci_base info) as [base|]; [|reflexivity].
    destruct (negb (base =? "")%string && negb (bool_decide (base ∈ stop_bases)));
      reflexivity.
  - rewrite limited_step. cbn [collect_all_fields_rec].
    destruct (decide (class_name ∈ visited)); [reflexivity|].
    destruct (parse_class_from_dump content class_name true) as [info|]; [|reflexivity].
    destruct (ci_base info) as [base|]; [|reflexivity].
    destruct (negb (base =? "")%string && negb (bool_decide (base ∈ stop_bases)));
      [|reflexivity].
    rewrite IH.
    destruct (collect_all_fields_rec frames content base ({[class_name]} ∪ visited))
      as [[[inh vis] par]|]; reflexivity.
Qed.

(** A walk that returns nests no deeper than the names it parses, and one
    call more when it ends on a name met before. *)
Lemma collect_rec_depth :
  forall fuel class_name visited fields visited' parsed,
    collect_all_fields_rec fuel content class_name visited
      = Some (fields, visited', parsed) ->
    length parsed <= S fuel.
Proof.
  induction fuel as [|fuel IH]; intros class_name visited fields visited' parsed H;
    simpl in H; destruct (decide (class_name ∈ visited));
    try (injection H as <- <- <-; simpl; lia);
    destruct (parse_class_from_dump content class_name true) as [info|];
    try (injection H as <- <- <-; simpl; lia);
    destruct (ci_base info) as [base|];
    try (injection H as <- <- <-; simpl; lia);
    destruct (negb (base =? "")%string && negb (bool_decide (base ∈ stop_bases)));
    try (injection H as <- <- <-; simpl; lia);
    try discriminate.
  destruct (collect_all_fields_rec fuel content base ({[class_name]} ∪ visited))
    as [[[inh vis] par]|] eqn:Er; [|discriminate].
  injection H as <- <- <-. apply IH in Er. simpl. lia.
Qed.

Lemma collect_rec_enough :
  forall fuel class_name visited fields visited' parsed,
    collect_all_fields_rec fuel content class_name visited
      = Some (fields, visited', parsed) ->
    forall n, length parsed <= n ->
      collect_all_fields_rec n content class_name visited
        = Some (fields, visited', parsed).
Proof.
  induction fuel as [|fuel IH]; intros class_name visited fields visited' parsed H n Hn.
  - apply (collect_rec_more_fuel content 0); [exact H|lia].
  - destruct n as [|n].
    + simpl in H |- *. destruct (decide (class_name ∈ visited)); [exact H|].
      destruct (parse_class_from_dump content class_name true) as [info|]; [|exact H].
      destruct (ci_base info) as [base|]; [|exact H].
      destruct (negb (base =? "")%string && negb (bool_decide (base ∈ stop_bases)));
        [|exact H].
      destruct (collect_all_fields_rec fuel content base ({[class_name]} ∪ visited))
        as [[[inh vis] par]|]; [|discriminate].
      injection H as <- <- <-. simpl in Hn. lia.
    + simpl in H |- *. destruct (decide (class_name ∈ visited)); [exact H|].
      destruct (parse_class_from_dump content class_name true) as [info|]; [|exact H].
      destruct (ci_base info) as [base|]; [|exact H].
      destruct (negb (base =? "")%string && negb (bool_decide (base ∈ stop_bases)));
        [|exact H].
      destruct (collect_all_fields_rec fuel content base ({[class_name]} ∪ visited))
        as [[[inh vis] par]|] eqn:Er; [|discriminate].
      injection H as <- <- <-. simpl in Hn.
      rewrite (IH _ _ _ _ _ Er n) by lia. reflexivity.
Qed.

End Limit.

End LimitFacts.

Import LimitFacts.

(** C7.  The walk ends on every dump and from every name, cycle or not,
    whatever room the recursion limit leaves: it returns, always the same
    result, or it ends in [RecursionError].  It returns whenever there is
    room for more nested calls than the names it has to parse, which are
    at most [(|content|+1)^2+2]; it ends in [RecursionError] whenever there
    is room for fewer.  The names it hands to the parser are pairwise
    distinct and are exactly the names it marks visited; and a call on a
    name already visited returns no field and parses nothing. *)
Theorem field_walk_terminates (content class_name : string) :
  exists fields visited parsed,
    (forall frames,
       collect_all_fields_limited frames content class_name ∅
         = Returned fields visited parsed \/
       collect_all_fields_limited frames content class_name ∅ = RecursionError) /\
    (forall frames, length parsed < frames ->
       collect_all_fields_limited frames content class_name ∅
         = Returned fields visited parsed) /\
    (forall frames, frames < length parsed ->
       collect_all_fields_limited frames content class_name ∅ = RecursionError) /\
    length parsed <= S (walk_fuel content) /\
    collect_all_fields content class_name = fields /\
    walk_names content class_name = parsed /\
    NoDup parsed /\
    visited = list_to_set parsed /\
    (forall frames name seen, name ∈ seen ->
       collect_all_fields_limited (S frames) content name seen = Returned [] seen []).
Proof.
  destruct (collect_run_total content class_name) as [[[fields visited] parsed] Hr].
  exists fields, visited, parsed.
  assert (Hroom : forall frames, length parsed < frames ->
            collect_all_fields_limited frames content class_name ∅
              = Returned fields visited parsed).
  { intros [|frames] Hlt; [lia|]. rewrite limited_rec.
    rewrite (collect_rec_enough content _ _ _ _ _ _ Hr frames) by lia. reflexivity. }
  assert (Hsame : forall frames,
            collect_all_fields_limited frames content class_name ∅
              = Returned fields visited parsed \/
            collect_all_fields_limited frames content class_name ∅ = RecursionError).
  { intros [|frames]; [now right|]. rewrite limited_rec.
    destruct (collect_all_fields_rec frames content class_name ∅)
      as [[[f v] p]|] eqn:E; [left|now right].
    pose proof (collect_rec_more_fuel content _ (frames + walk_fuel content) _ _ _ E
                  ltac:(lia)) as E1.
    pose proof (collect_rec_more_fuel content _ (frames + walk_fuel content) _ _ _ Hr
                  ltac:(lia)) as E2.
    rewrite E1 in E2. now injection E2 as -> -> ->. }
  split; [exact Hsame|]. split; [exact Hroom|]. split.
  { intros frames Hlt. destruct (Hsame frames) as [H|H]; [|exact H].
    destruct frames as [|frames]; [discriminate|].
    rewrite limited_rec in H.
    destruct (collect_all_fields_rec frames content class_name ∅)
      as [[[f v] p]|] eqn:E; [|discriminate].
    injection H as -> -> ->. apply collect_rec_depth in E. lia. }
  split; [exact (collect_rec_depth content _ _ _ _ _ _ Hr)|].
  split; [unfold collect_all_fields; now rewrite Hr|].
  split; [unfold walk_names; now rewrite Hr|].
  apply collect_rec_trace in Hr as (Hnd & _ & ->).
  split; [exact Hnd|]. split; [set_solver|].
  intros frames name seen Hin. rewrite limited_rec.
  now rewrite collect_rec_visited.
Qed.

Lemma field_walk_terminates_witness :
  collect_all_fields_limited 3 cycle_dump "ATemplate" ∅ =
    Returned [MkRawField "int" "B" "0x20"; MkRawField "int" "A" "0x10"]
      {[ "ATemplate"; "BTemplate" ]} ["ATemplate"; "BTemplate"] /\
  collect_all_fields_limited 1 cycle_dump "ATemplate" ∅ = RecursionError /\
  walk_names cycle_dump "ATemplate" = ["ATemplate"; "BTemplate"] /\
  collect_all_fields cycle_dump "ATemplate" =
    [MkRawField "int" "B" "0x20"; MkRawField "int" "A" "0x10"] /\
  NoDup (walk_names cycle_dump "ATemplate").
Proof.
  assert (Hv : collect_all_fields_limited 3 cycle_dump "ATemplate" ∅ =
    Returned [MkRawField "int" "B" "0x20"; MkRawField "int" "A" "0x10"]
      {[ "ATemplate"; "BTemplate" ]} ["ATemplate"; "BTemplate"])
    by (vm_compute; reflexivity).
  destruct (field_walk_terminates cycle_dump "ATemplate")
    as (fields & visited & parsed & Hsame & _ & Hfew & _ & Hfields & Hnames & Hnd & _).
  destruct (Hsame 3) as [H3|H3]; rewrite Hv in H3; [|discriminate].
  injection H3 as <- _ <-.
  split; [exact Hv|]. split; [apply Hfew; simpl; lia|].
  rewrite Hnames, Hfields. auto.
Defined.

(** C2, as amended.  For every template [T] of the schema whose recorded
    base class [P] is a template of the schema, when the walk from [P] does
    not come back to [T], the fields of [T] are exactly the fields of [P],
    in order, followed by the classified fields [T] declares itself. *)
Theorem flattened_fields_extend_parent (content : string) (schema : Schema)
    (T P : string) (tT tP : Template) :
  build_schema content = Some schema ->
  s_templates schema !! T = Some tT ->
  s_templates schema !! P = Some tP ->
  t_base_class tT = Some P ->
  T ∉ walk_names content P ->
  exists own,
    parse_class_from_dump content T true = Some own /\
    t_fields tT =
      t_fields tP ++
      map (classify_entry (dom (s_enums schema)) (dom (s_structs schema))
             (list_to_set (parse_all_templates content)))
        (ci_fields own).
Proof.
  unfold build_schema. intros Hb HT HP Hbase Hacyclic.
  destruct (parse_all_enums content) as [enums|]; [|discriminate].
  destruct (parse_all_structs content) as [structs|]; [|discriminate].
  simpl in Hb. injection Hb as <-. cbn [s_templates s_enums s_structs] in *.
  unfold build_templates in HT, HP.
  apply build_templates_lookup in HT as [HT|(_ & infoT & HpT & ->)];
    [rewrite lookup_empty in HT; discriminate|].
  apply build_templates_lookup in HP as [HP|(HinP & infoP & HpP & ->)];
    [rewrite lookup_empty in HP; discriminate|].
  cbn [t_base_class t_fields] in *.
  exists infoT. split; [exact HpT|].
  rewrite (collect_extend_parent content T P infoT HpT Hbase); auto.
  - apply map_app.
  - apply template_name_walked. eapply parse_all_templates_suffix; eauto.
Qed.

Lemma flattened_fields_extend_parent_witness :
  build_schema base_child_dump = Some base_child_schema /\
  exists own,
    parse_class_from_dump base_child_dump "ChildTemplate" true = Some own /\
    [MkFieldDef "A" "int" "0x10" "primitive" None;
     MkFieldDef "B" "int" "0x20" "primitive" None] =
    [MkFieldDef "A" "int" "0x10" "primitive" None] ++
    map (classify_entry (dom (s_enums base_child_schema))
           (dom (s_structs base_child_schema))
           (list_to_set (parse_all_templates base_child_dump)))
      (ci_fields own).
Proof.
  assert (Hb : build_schema base_child_dump = Some base_child_schema)
    by (vm_compute; reflexivity).
  split; [exact Hb|].
  refine (flattened_fields_extend_parent base_child_dump base_child_schema
            "ChildTemplate" "BaseTemplate"
            (MkTemplate (Some "BaseTemplate") false
               [MkFieldDef "A" "int" "0x10" "primitive" None;
                MkFieldDef "B" "int" "0x20" "primitive" None])
            (MkTemplate (Some "ScriptableObject") true
               [MkFieldDef "A" "int" "0x10" "primitive" None])
            Hb _ _ _ _).
  - vm_compute; reflexivity.
  - vm_compute; reflexivity.
  - reflexivity.
  - vm_compute. intros H. apply list_elem_of_singleton in H. discriminate.
Defined.

(** C2 as stated fails on a cyclic base relation: the chain recorded for
    [ATemplate] contains the ancestor [BTemplate], and the fields of
    [ATemplate] do not start with the fields of [BTemplate], since each walk
    stops where it meets its own starting name. *)
Lemma cyclic_bases_break_prefix :
  let fA := MkFieldDef "A" "int" "0x10" "primitive" None in
  let fB := MkFieldDef "B" "int" "0x20" "primitive" None in
  build_schema cycle_dump =
    Some (MkSchema "1.0.0" ∅ ∅
            {[ "ATemplate" := MkTemplate (Some "BTemplate") false [fB; fA];
               "BTemplate" := MkTemplate (Some "ATemplate") false [fA; fB] ]}
            {[ "ATemplate" := ["BTemplate"; "ATemplate"];
               "BTemplate" := ["ATemplate"; "BTemplate"] ]}) /\
  ~ (exists rest, [fB; fA] = [fA; fB] ++ rest).
Proof.
  split; [vm_compute; reflexivity|].
  intros [rest H]. discriminate.
Qed.

(** ** Body extraction *)

Module ExtractFacts.
Import PyStr Re PySort GenerateSchema StrFacts ReFacts.

Lemma all_chars_app (p : ascii -> bool) (a b : string) :
  all_chars p (a +:+ b) = all_chars p a && all_chars p b.
Proof.
  induction a as [|c a IH]; simpl; [reflexivity|]. now rewrite IH, andb_assoc.
Qed.

Lemma contains_app_r (p a b : string) :
  contains p (a +:+ b) = false -> contains p b = false.
Proof.
  induction a as [|c a IH]; simpl; [auto|].
  intros H. apply orb_false_iff in H as [_ H]. auto.
Qed.

Section Forward.
Context {R : Type}.

Lemma exec_lit (l s : string) (g : groups) (k : string -> groups -> option R) :
  exec (lit l) (l +:+ s) g k = k s g.
Proof.
  revert g k. induction l as [|c l IH]; intros g k; simpl; [reflexivity|].
  rewrite Ascii.eqb_refl. apply IH.
Qed.

(** A lazy [.*?] under DOTALL stops at the first place where the rest of
    the pattern matches. *)
Lemma lazy_any_first (pre s2 : string) (g : groups)
    (k : string -> groups -> option R) (x : R) :
  (forall a b, pre = a +:+ b -> b <> "" -> k (b +:+ s2) g = None) ->
  k s2 g = Some x ->
  forall n, String.length pre <= n ->
    star_loop false (exec any) k n (pre +:+ s2) g = Some x.
Proof.
  induction pre as [|c pre IH]; intros Hfail Hk n Hn.
  - simpl. destruct n; simpl; now rewrite Hk.
  - destruct n as [|n]; [simpl in Hn; lia|].
    cbn [star_loop]. rewrite (Hfail "" (String c pre)) by (auto; discriminate).
    simpl.
    assert (Hlt : (String.length (pre +:+ s2) <? S (String.length (pre +:+ s2)))%nat = true)
      by (apply Nat.ltb_lt; lia).
    rewrite Hlt. apply IH; [|exact Hk|simpl in Hn; lia].
    intros a b -> Hb. apply (Hfail (String c a) b); auto.
Qed.

(** A greedy [p+] takes the whole run of [p] when the rest of the pattern
    matches after it. *)
Lemma greedy_cls_all (p : ascii -> bool) (w s' : string) (g : groups)
    (k : string -> groups -> option R) (x : R) :
  all_chars p w = true ->
  k s' g = Some x ->
  match s' with String c _ => p c = false | EmptyString => True end ->
  forall n, String.length w <= n ->
    star_loop true (exec (Cls p)) k n (w +:+ s') g = Some x.
Proof.
  intros Hw Hk Hs'. induction w as [|c w IH]; intros n Hn.
  - simpl. destruct n; simpl; [exact Hk|].
    destruct s' as [|c s']; [exact Hk|]. now rewrite Hs'.
  - destruct n as [|n]; [simpl in Hn; lia|].
    simpl in Hw. apply andb_true_iff in Hw as [Hc Hw].
    cbn [star_loop]. simpl. rewrite Hc.
    assert (Hlt : (String.length (w +:+ s') <? S (String.length (w +:+ s')))%nat = true)
      by (apply Nat.ltb_lt; lia).
    rewrite Hlt. rewrite IH; auto. simpl in Hn. lia.
Qed.

Lemma exec_plus_cls (p : ascii -> bool) (w s' : string) (g : groups)
    (k : string -> groups -> option R) (x : R) :
  w <> "" -> all_chars p w = true ->
  k s' g = Some x ->
  match s' with String c _ => p c = false | EmptyString => True end ->
  exec (plus true (Cls p)) (w +:+ s') g k = Some x.
Proof.
  intros Hne Hw Hk Hs'. destruct w as [|c w]; [congruence|].
  simpl in Hw. apply andb_true_iff in Hw as [Hc Hw].
  simpl. rewrite Hc. apply greedy_cls_all; auto.
  rewrite str_length_app. lia.
Qed.

(** The tail shared by the three declaration patterns: with the header on
    one line, the body group is the text up to the first line that starts
    with a closing brace. *)
Lemma exec_body_tail (i : nat) (hdr body rest : string) (g : groups)
    (k : string -> groups -> option R) (x : R) :
  all_chars is_not_nl hdr = true ->
  contains (String nl "}") body = false ->
  k rest ((i, body) :: g) = Some x ->
  exec (body_tail i)
    (hdr +:+ String nl (String "{" (String nl (body +:+ String nl (String "}" rest)))))
    g k = Some x.
Proof.
  intros Hhdr Hbody Hk. unfold body_tail. cbn [cat exec].
  apply lazy_any_first; [| |rewrite str_length_app; lia].
  - intros a b -> Hb. destruct b as [|c b]; [congruence|].
    rewrite all_chars_app in Hhdr. apply andb_true_iff in Hhdr as [_ Hb'].
    cbn [all_chars] in Hb'. apply andb_true_iff in Hb' as [Hc _].
    unfold is_not_nl in Hc. apply negb_true_iff in Hc.
    cbn [String.append]. rewrite Ascii.eqb_sym. now rewrite Hc.
  - rewrite !Ascii.eqb_refl.
    apply lazy_any_first; [| |rewrite str_length_app; lia].
    + intros a b E Hb. destruct b as [|c b]; [congruence|]. subst body.
      apply contains_app_r in Hbody. cbn [String.append].
      destruct (Ascii.eqb nl c) eqn:Ec; [|reflexivity].
      apply Ascii.eqb_eq in Ec. subst c.
      destruct b as [|d b]; cbn [String.append].
      * destruct (Ascii.eqb "}" nl) eqn:E; [vm_compute in E; discriminate|reflexivity].
      * destruct (Ascii.eqb "}" d) eqn:Ed; [|reflexivity].
        apply Ascii.eqb_eq in Ed. subst d.
        cbn [contains startswith] in Hbody.
        rewrite !Ascii.eqb_refl in Hbody. discriminate.
    + rewrite !Ascii.eqb_refl. rewrite consumed_app. exact Hk.
Qed.

End Forward.

End ExtractFacts.

Import ExtractFacts.

Module ScanFacts.
Import PyStr Re PySort GenerateSchema DumpText StrFacts ReFacts ExtractFacts.

Lemma header_at_spec (p : ascii -> bool) (lit : string) :
  forall s, header_at p lit s = true <->
    exists c t, p c = true /\ s = lit +:+ String c t.
Proof.
  induction lit as [|a lit IH]; intros s; simpl.
  - destruct s as [|c s]; split.
    + discriminate.
    + intros (c & t & _ & E). discriminate.
    + intros H. exists c, s. auto.
    + intros (c' & t & H & E). injection E as -> ->. exact H.
  - destruct s as [|c s]; split.
    + discriminate.
    + intros (c & t & _ & E). discriminate.
    + intros H. apply andb_true_iff in H as [Hc H]. apply Ascii.eqb_eq in Hc.
      subst c. apply IH in H as (c & t & Hp & ->). exists c, t. auto.
    + intros (c' & t & H & E). injection E as -> ->.
      rewrite Ascii.eqb_refl. apply IH. eauto.
Qed.

(** Where a declaration pattern matches, a header stands. *)
Lemma decl_match_header (kw : string) (pos : nat) (s : string) (m : rmatch) :
  match_at (decl_pattern kw) pos s = Some m -> header_at is_word kw s = true.
Proof.
  intros H. apply match_at_sound in H as (s' & g' & H & _).
  unfold decl_pattern in H. cbn [cat] in H.
  destruct H as (s1 & g1 & H1 & H). apply sem_lit in H1 as [-> ->].
  destruct H as (s2 & g2 & H2 & _).
  apply sem_grp in H2 as (w & g3 & -> & H2 & _).
  apply sem_plus_cls in H2 as (w' & E & Hne & Hw & _).
  apply str_app_inv_tail in E. subst w'.
  destruct w as [|c w]; [congruence|]. simpl in Hw.
  apply andb_true_iff in Hw as [Hc _].
  apply header_at_spec. exists c, (w +:+ s2). auto.
Qed.

Lemma class_match_header (kw class_name : string) (pos : nat) (s : string)
    (m : rmatch) :
  match_at (class_pattern kw class_name) pos s = Some m ->
  header_at is_space (kw +:+ class_name) s = true.
Proof.
  intros H. apply match_at_sound in H as (s' & g' & H & _).
  unfold class_pattern in H. cbn [cat] in H.
  destruct H as (s1 & g1 & H1 & H). apply sem_lit in H1 as [-> ->].
  destruct H as (s2 & g2 & H2 & H). apply sem_lit in H2 as [-> ->].
  destruct H as (s3 & g3 & (c & -> & Hc & _) & _).
  apply header_at_spec. exists c, s3. rewrite str_app_assoc. auto.
Qed.

(** [search] passes over a text in which no header begins. *)
Lemma search_from_skip (r : regex) (p : ascii -> bool) (lit follow : string) :
  (forall pos s m, match_at r pos s = Some m -> header_at p lit s = true) ->
  forall pre pos,
    header_before p lit pre follow = false ->
    search_from r pos (pre +:+ follow) =
    search_from r (pos + String.length pre) follow.
Proof.
  intros Hr. induction pre as [|c pre IH]; intros pos H.
  - simpl. now rewrite Nat.add_0_r.
  - unfold header_before in H. cbn [tails existsb] in H.
    apply orb_false_iff in H as [Hc H].
    cbn [String.append search_from].
    destruct (match_at r pos (String c (pre +:+ follow))) as [m|] eqn:E.
    + apply Hr in E. cbn [String.append] in Hc. congruence.
    + rewrite (IH (S pos) H). f_equal. simpl. lia.
Qed.

Lemma search_from_none (r : regex) (p : ascii -> bool) (lit s : string) :
  (forall pos s m, match_at r pos s = Some m -> header_at p lit s = true) ->
  header_before p lit s "" = false ->
  forall pos, search_from r pos s = None.
Proof.
  intros Hr H pos.
  rewrite <- (str_app_nil_r s), (search_from_skip r p lit "" Hr s pos H).
  simpl. destruct (match_at r (pos + String.length s) "") as [m|] eqn:E;
    [|reflexivity].
  apply Hr in E. destruct lit; discriminate.
Qed.

Lemma match_decl_at (kw name hdr body rest : string) (pos : nat) :
  name <> "" -> all_chars is_word name = true ->
  starts_outside is_word hdr ->
  all_chars is_not_nl hdr = true ->
  contains (String nl "}") body = false ->
  match_at (decl_pattern kw) pos (kw +:+ name +:+ block hdr body rest) =
  Some (MkMatch pos [(2, body); (1, name)]
          (consumed (kw +:+ name +:+ block hdr body rest) rest) rest).
Proof.
  intros Hne Hname Hout Hhdr Hbody.
  unfold match_at, decl_pattern. cbn [cat exec]. rewrite exec_lit.
  apply exec_plus_cls; auto.
  - rewrite consumed_app. unfold block. now apply exec_body_tail.
  - unfold block. destruct hdr as [|c hdr]; [vm_compute; reflexivity|exact Hout].
Qed.

Lemma match_class_at (kw class_name hdr body rest : string) (c : ascii) (pos : nat) :
  is_space c = true ->
  all_chars is_not_nl hdr = true ->
  contains (String nl "}") body = false ->
  match_at (class_pattern kw class_name) pos
    (kw +:+ class_name +:+ String c (block hdr body rest)) =
  Some (MkMatch pos [(1, body)]
          (consumed (kw +:+ class_name +:+ String c (block hdr body rest)) rest) rest).
Proof.
  intros Hc Hhdr Hbody.
  unfold match_at, class_pattern. cbn [cat exec]. rewrite !exec_lit.
  unfold ws. cbn [exec]. rewrite Hc. unfold block. now apply exec_body_tail.
Qed.

Lemma search_from_here (r : regex) (pos : nat) (s : string) (m : rmatch) :
  match_at r pos s = Some m -> search_from r pos s = Some m.
Proof. destruct s; simpl; now intros ->. Qed.

Lemma length_block (hdr body rest : string) :
  String.length rest < String.length (block hdr body rest).
Proof.
  unfold block. rewrite str_length_app. simpl. rewrite str_length_app. simpl. lia.
Qed.

(** The matches of a dump whose declarations come in turn begin with one
    match for each, with its name and its body. *)
Lemma finditer_decls (kw : string) (tail : string) :
  forall decls fuel pos,
    decls_in_turn kw decls tail ->
    String.length (dump_of kw decls tail) < fuel ->
    exists more,
      map (fun m => (group 1 m, group 2 m))
        (finditer_from fuel (decl_pattern kw) pos (dump_of kw decls tail)) =
      map (fun d => (d_name d, d_body d)) decls ++ more.
Proof.
  induction decls as [|d decls IH]; intros fuel pos Hwf Hfuel.
  - simpl. eauto.
  - destruct Hwf as [(Hbefore & Hne & Hname & Hout & Hhdr & Hbody) Hwf].
    destruct fuel as [|fuel]; [lia|].
    cbn [dump_of finditer_from] in *.
    rewrite (search_from_skip _ is_word kw _ (decl_match_header kw) _ _ Hbefore).
    unfold decl_text at 1.
    rewrite (search_from_here _ _ _ _
               (match_decl_at kw (d_name d) (d_hdr d) (d_body d)
                  (dump_of kw decls tail) _ Hne Hname Hout Hhdr Hbody)).
    cbn [m_rest m_start m_text].
    assert (Hlen : String.length (dump_of kw decls tail) <
                   String.length (d_before d +:+ decl_text kw d (dump_of kw decls tail))).
    { unfold decl_text. rewrite !str_length_app.
      pose proof (length_block (d_hdr d) (d_body d) (dump_of kw decls tail)). lia. }
    apply Nat.ltb_lt in Hlen as Hlt. rewrite Hlt.
    destruct (IH fuel
                (pos + String.length (d_before d) +
                 String.length
                   (consumed (kw +:+ d_name d +:+
                              block (d_hdr d) (d_body d) (dump_of kw decls tail))
                      (dump_of kw decls tail)))
                Hwf ltac:(lia)) as [more Hmore].
    exists more. cbn [map]. rewrite Hmore. reflexivity.
Qed.

End ScanFacts.

Import DumpText ScanFacts.

(** C3, as amended.  The extractor counts no braces.  In a dump whose enum
    (or struct) declarations come in turn, each with its header ending on
    its line and no line of its body beginning with a closing brace, the
    matches begin with one match for each declaration, and the body it
    captures is the text from the line after the opening brace up to the
    first later line that begins with a closing brace: braces nested in the
    body that do not begin a line are captured with it.  The class parser
    captures the body in the same way at the first place of the dump where
    [public class NAME] and a whitespace stand, and, when that stands
    nowhere, at the first place where [public abstract class NAME] and a
    whitespace stand. *)
Theorem body_ends_at_first_line_start_brace :
  (forall kw decls tail,
     decls_in_turn kw decls tail ->
     exists more,
       map (fun m => (group 1 m, group 2 m))
         (finditer (decl_pattern kw) (dump_of kw decls tail)) =
       map (fun d => (d_name d, d_body d)) decls ++ more) /\
  (forall pre class_name c hdr body rest allow_abstract,
     let text := "public class " +:+ class_name +:+ String c (block hdr body rest) in
     header_before is_space ("public class " +:+ class_name) pre text = false ->
     is_space c = true ->
     all_chars is_not_nl hdr = true ->
     contains (String nl "}") body = false ->
     exists info,
       parse_class_from_dump (pre +:+ text) class_name allow_abstract = Some info /\
       ci_fields info = class_fields_of (finditer field_pattern body)) /\
  (forall pre class_name c hdr body rest allow_abstract,
     let text :=
       "public abstract class " +:+ class_name +:+ String c (block hdr body rest) in
     header_before is_space ("public class " +:+ class_name) (pre +:+ text) "" = false ->
     header_before is_space ("public abstract class " +:+ class_name) pre text = false ->
     is_space c = true ->
     all_chars is_not_nl hdr = true ->
     contains (String nl "}") body = false ->
     exists info,
       parse_class_from_dump (pre +:+ text) class_name allow_abstract = Some info /\
       ci_fields info = class_fields_of (finditer field_pattern body)).
Proof.
  split; [|split].
  - intros kw decls tail Hwf. unfold finditer.
    apply finditer_decls; [exact Hwf|lia].
  - intros pre class_name c hdr body rest aa text Hbefore Hc Hhdr Hbody.
    unfold parse_class_from_dump. cbn [first_search]. unfold search.
    rewrite (search_from_skip _ is_space _ _
               (class_match_header "public class " class_name) _ _ Hbefore).
    unfold text.
    rewrite (search_from_here _ _ _ _
               (match_class_at "public class " class_name hdr body rest c _
                  Hc Hhdr Hbody)).
    eexists. split; reflexivity.
  - intros pre class_name c hdr body rest aa text Hnone Hbefore Hc Hhdr Hbody.
    unfold parse_class_from_dump. cbn [first_search]. unfold search.
    rewrite (search_from_none _ is_space _ _
               (class_match_header "public class " class_name) Hnone).
    rewrite (search_from_skip _ is_space _ _
               (class_match_header "public abstract class " class_name) _ _ Hbefore).
    unfold text.
    rewrite (search_from_here _ _ _ _
               (match_class_at "public abstract class " class_name hdr body rest c _
                  Hc Hhdr Hbody)).
    eexists. split; reflexivity.
Qed.

Lemma body_ends_at_first_line_start_brace_witness :
  (exists info,
     parse_class_from_dump
       ("public class Bar : Object // TypeDefIndex: 2
{
	public int B; // 0x10
}
public class Foo // TypeDefIndex: 3
{
" +:+ nested_body +:+ "
}
") "Foo" true = Some info /\
     ci_fields info = [MkRawField "int" "X" "0x10"; MkRawField "int" "Y" "0x14"]) /\
  exists more,
    map (fun m => (group 1 m, group 2 m))
      (finditer enum_pattern
"// Namespace: Game
public enum Mode // TypeDefIndex: 5
{
	public const Mode A = 0; // { }
}

// Namespace: Game
public enum Side // TypeDefIndex: 6
{
	public const Side L = 1;
}
") = [("Mode", "	public const Mode A = 0; // { }");
      ("Side", "	public const Side L = 1;")] ++ more.
Proof.
  destruct body_ends_at_first_line_start_brace as (Hdecls & Hclass & _).
  split.
  - destruct (Hclass
"public class Bar : Object // TypeDefIndex: 2
{
	public int B; // 0x10
}
" "Foo" " "%char "// TypeDefIndex: 3" nested_body (String nl "") true)
      as (info & Hp & Hf); [reflexivity..|].
    exists info. split; [exact Hp|]. rewrite Hf. vm_compute. reflexivity.
  - apply (Hdecls "public enum "
      [MkDecl ("// Namespace: Game" +:+ NL) "Mode" " // TypeDefIndex: 5"
         "	public const Mode A = 0; // { }";
       MkDecl (NL +:+ NL +:+ "// Namespace: Game" +:+ NL) "Side" " // TypeDefIndex: 6"
         "	public const Side L = 1;"]
      NL).
    repeat split; try reflexivity; discriminate.
Defined.

(** C3 as stated fails.  A nested brace pair whose closing brace starts a
    line ends the body there: the enum below loses its member [B].  A
    body with nothing in it is captured past its own closing brace, into
    the next declaration: [Empty] gets the field of [Next].  And a header
    that stands earlier in the dump, here in a comment, takes the body of
    the declaration that follows it: [Foo] gets the field of [Bar]. *)
Lemma nested_brace_at_line_start_truncates :
  (fmap (M := gmap string) ed_values <$> parse_all_enums
"public enum Mode // TypeDefIndex: 5
{
	public const Mode A = 0;
	public Inner Data = new Inner
{
}
	public const Mode B = 1;
}
") = Some ({[ "Mode" := ({[ "A" := 0%Z ]} : gmap string Z) ]}
           : gmap string (gmap string Z)) /\
  (ci_fields <$> parse_class_from_dump
"public class Empty : Object // TypeDefIndex: 1
{
}

public class Next : Object // TypeDefIndex: 2
{
	public int N; // 0x10
}
" "Empty" true) = Some [MkRawField "int" "N" "0x10"] /\
  (ci_fields <$> parse_class_from_dump
"// public class Foo is declared below
public class Bar : Object // TypeDefIndex: 1
{
	public int B; // 0x10
}
public class Foo : Object // TypeDefIndex: 2
{
	public int F; // 0x18
}
" "Foo" true) = Some [MkRawField "int" "B" "0x10"].
Proof. repeat split; vm_compute; reflexivity. Qed.

(** ** Float arithmetic of the percentages *)

Module FloatFacts.
Import Float64.
#[local] Open Scope Z_scope.

Lemma round_half_even_bounds (n d : Z) :
  0 < d -> 0 <= n ->
  2 * n - d <= 2 * (round_half_even n d * d) <= 2 * n + d.
Proof.
  intros Hd Hn. unfold round_half_even.
  pose proof (Z.div_mod n d ltac:(lia)) as E.
  pose proof (Z.mod_pos_bound n d Hd) as Hr.
  set (q := n / d) in *. set (r := n mod d) in *.
  destruct (2 * r <? d) eqn:E1; [apply Z.ltb_lt in E1; nia|].
  apply Z.ltb_ge in E1.
  destruct (d <? 2 * r) eqn:E2; [apply Z.ltb_lt in E2; nia|].
  apply Z.ltb_ge in E2.
  destruct (Z.even q); nia.
Qed.

Lemma scaled_pos (a b p : Z) :
  0 < a -> 0 < b -> 0 < (scaled a b p).1 /\ 0 < (scaled a b p).2.
Proof.
  intros Ha Hb. unfold scaled. destruct (0 <=? p) eqn:E; simpl.
  - apply Z.leb_le in E. split; [|lia].
    apply Z.mul_pos_pos; [lia|]. apply Z.pow_pos_nonneg; lia.
  - apply Z.leb_gt in E. split; [lia|].
    apply Z.mul_pos_pos; [lia|]. apply Z.pow_pos_nonneg; lia.
Qed.

(** [scaled a b (p - 1)] is half of [scaled a b p]. *)
Lemma scaled_pred (a b p : Z) :
  0 < a -> 0 < b ->
  2 * ((scaled a b (p - 1)).1 * (scaled a b p).2) =
  (scaled a b p).1 * (scaled a b (p - 1)).2.
Proof.
  intros Ha Hb. unfold scaled.
  destruct (0 <=? p) eqn:E; destruct (0 <=? p - 1) eqn:E'; simpl;
    try apply Z.leb_le in E; try apply Z.leb_le in E';
    try apply Z.leb_gt in E; try apply Z.leb_gt in E'; try lia.
  - replace p with (Z.succ (p - 1)) at 2 by lia. rewrite Z.pow_succ_r by lia. ring.
  - assert (p = 0) by lia. subst p. simpl. lia.
  - replace (- (p - 1)) with (Z.succ (- p)) by lia. rewrite Z.pow_succ_r by lia. ring.
Qed.

Lemma binade_spec (a b : Z) :
  0 < a -> 0 < b ->
  let nd := scaled a b (binade a b) in
  2 ^ 52 * nd.2 <= nd.1 < 2 ^ 53 * nd.2.
Proof.
  intros Ha Hb.
  pose proof (Z.log2_spec a Ha) as [La1 La2].
  pose proof (Z.log2_spec b Hb) as [Lb1 Lb2].
  pose proof (Z.log2_nonneg a) as Hla. pose proof (Z.log2_nonneg b) as Hlb.
  set (la := Z.log2 a) in *. set (lb := Z.log2 b) in *.
  rewrite Z.pow_succ_r in La2, Lb2 by lia.
  assert (H0 : 2 ^ 53 * (scaled a b (53 - (la - lb))).2
               < (scaled a b (53 - (la - lb))).1 * 2
               /\ (scaled a b (53 - (la - lb))).1
               < 2 ^ 54 * (scaled a b (53 - (la - lb))).2).
  { unfold scaled. destruct (0 <=? 53 - (la - lb)) eqn:E; simpl.
    - apply Z.leb_le in E.
      assert (E1 : 2 ^ la * 2 ^ (53 - (la - lb)) = 2 ^ 53 * 2 ^ lb).
      { rewrite <- !Z.pow_add_r by lia. f_equal. lia. }
      assert (0 < 2 ^ (53 - (la - lb))) by (apply Z.pow_pos_nonneg; lia).
      assert (0 < 2 ^ lb) by (apply Z.pow_pos_nonneg; lia).
      split; nia.
    - apply Z.leb_gt in E.
      assert (E1 : 2 ^ lb * 2 ^ 53 * 2 ^ (- (53 - (la - lb))) = 2 ^ la).
      { rewrite <- !Z.pow_add_r by lia. f_equal. lia. }
      assert (0 < 2 ^ (- (53 - (la - lb)))) by (apply Z.pow_pos_nonneg; lia).
      assert (0 < 2 ^ lb) by (apply Z.pow_pos_nonneg; lia).
      split; nia. }
  unfold binade. fold la lb.
  destruct (scaled a b (53 - (la - lb))) as [n0 d0] eqn:Es. simpl in H0.
  destruct (n0 <? 2 ^ 53 * d0) eqn:E.
  - apply Z.ltb_lt in E. rewrite Es. simpl. lia.
  - apply Z.ltb_ge in E.
    pose proof (scaled_pred a b (53 - (la - lb)) Ha Hb) as Hp.
    pose proof (scaled_pos a b (53 - (la - lb) - 1) Ha Hb) as [Hn Hd].
    pose proof (scaled_pos a b (53 - (la - lb)) Ha Hb) as [Hn0 Hd0].
    rewrite Es in Hp, Hn0, Hd0. simpl in Hp, Hn0, Hd0.
    destruct (scaled a b (53 - (la - lb) - 1)) as [n d]. simpl in *.
    split; nia.
Qed.

(** What [round_ratio] computes, for a positive fraction. *)
Lemma round_ratio_spec (a b : Z) :
  0 < a -> 0 < b ->
  let p := binade a b in
  let nd := scaled a b p in
  round_ratio a b = MkFloat (round_half_even nd.1 nd.2) (- p) /\
  2 ^ 52 * nd.2 <= nd.1 < 2 ^ 53 * nd.2 /\
  2 * nd.1 - nd.2 <= 2 * (round_half_even nd.1 nd.2 * nd.2) <= 2 * nd.1 + nd.2.
Proof.
  intros Ha Hb p nd. pose proof (binade_spec a b Ha Hb) as Hs.
  pose proof (scaled_pos a b p Ha Hb) as [Hn Hd].
  fold p in Hs. fold nd in Hs, Hn, Hd.
  split; [|split; [exact Hs|apply round_half_even_bounds; lia]].
  unfold round_ratio. destruct (Z.eqb_spec a 0); [lia|].
  fold p. fold nd. now destruct nd.
Qed.

Lemma pow2_pos (p : Z) : 0 <= p -> 0 < 2 ^ p.
Proof. intros. apply Z.pow_pos_nonneg; lia. Qed.

(** The quotient of two lengths, [0 < K <= N]: a mantissa over [2 ^ p]. *)
Lemma div_int_spec (K N : Z) :
  0 < K <= N ->
  exists m p,
    div_int K N = MkFloat m (- p) /\ 52 <= p /\
    2 ^ 52 * N <= K * 2 ^ p < 2 ^ 53 * N /\
    2 * (K * 2 ^ p) - N <= 2 * (m * N) <= 2 * (K * 2 ^ p) + N.
Proof.
  intros HK. destruct (round_ratio_spec K N) as (E & Hs & Hr); [lia|lia|].
  set (p := binade K N) in *.
  assert (Hp : 52 <= p).
  { unfold scaled in Hs. destruct (0 <=? p) eqn:E0; simpl in Hs.
    - apply Z.leb_le in E0. destruct (Z.le_gt_cases 52 p) as [|Hlt]; [assumption|].
      exfalso. assert (2 ^ p <= 2 ^ 51) by (apply Z.pow_le_mono_r; lia).
      pose proof (pow2_pos p E0). nia.
    - apply Z.leb_gt in E0. exfalso.
      assert (1 <= 2 ^ (- p)) by (pose proof (pow2_pos (- p)); lia).
      nia. }
  exists (round_half_even (scaled K N p).1 (scaled K N p).2), p.
  unfold scaled in *. destruct (0 <=? p) eqn:E0; [|apply Z.leb_gt in E0; lia].
  simpl in *. auto.
Qed.

Lemma mul_100_spec (m1 p1 : Z) :
  52 <= p1 -> 2 ^ 52 <= m1 <= 2 ^ 53 ->
  exists m2 p2,
    mul_int (MkFloat m1 (- p1)) 100 = MkFloat m2 (- p2) /\ 0 <= p2 /\
    2 ^ 52 * 2 ^ p1 <= 100 * m1 * 2 ^ p2 < 2 ^ 53 * 2 ^ p1 /\
    2 * (100 * m1 * 2 ^ p2) - 2 ^ p1 <= 2 * (m2 * 2 ^ p1)
      <= 2 * (100 * m1 * 2 ^ p2) + 2 ^ p1.
Proof.
  intros Hp1 Hm1. unfold mul_int, to_ratio. cbn [f_exp f_mant].
  destruct (0 <=? - p1) eqn:E0; [apply Z.leb_le in E0; lia|].
  replace (- - p1) with p1 by lia.
  assert (HP1 : 2 ^ 52 <= 2 ^ p1) by (apply Z.pow_le_mono_r; lia).
  destruct (round_ratio_spec (m1 * 100) (2 ^ p1)) as (E & Hs & Hr); [lia|lia|].
  set (p2 := binade (m1 * 100) (2 ^ p1)) in *.
  assert (Hp2 : 0 <= p2).
  { unfold scaled in Hs. destruct (0 <=? p2) eqn:E2; simpl in Hs.
    - now apply Z.leb_le in E2.
    - apply Z.leb_gt in E2. exfalso.
      assert (2 ^ 1 <= 2 ^ (- p2)) by (apply Z.pow_le_mono_r; lia).
      nia. }
  exists (round_half_even (scaled (m1 * 100) (2 ^ p1) p2).1
            (scaled (m1 * 100) (2 ^ p1) p2).2), p2.
  unfold scaled in *. destruct (0 <=? p2) eqn:E2; [|apply Z.leb_gt in E2; lia].
  simpl in *. split; [exact E|]. split; [exact Hp2|].
  replace (100 * m1 * 2 ^ p2) with (m1 * 100 * 2 ^ p2) by ring. auto.
Qed.

Lemma ge_int_spec (m p c : Z) :
  0 <= p -> ge_int (MkFloat m (- p)) c = (c * 2 ^ p <=? m).
Proof.
  intros Hp. unfold ge_int, to_ratio. cbn [f_exp f_mant].
  destruct (0 <=? - p) eqn:E.
  - apply Z.leb_le in E. assert (p = 0) by lia. subst p. simpl.
    f_equal; lia.
  - now replace (- - p) with p by lia.
Qed.

Lemma mant_bounds (K N m P : Z) :
  0 < N ->
  2 ^ 52 * N <= K * P < 2 ^ 53 * N ->
  2 * (K * P) - N <= 2 * (m * N) <= 2 * (K * P) + N ->
  2 ^ 52 <= m <= 2 ^ 53.
Proof. intros HN H1 H2. split; nia. Qed.

(** The threshold of the coverage check: the float comparison decides the
    exact one, for counts below [2 ^ 49]. *)
Lemma percent_ge_70 (K N : Z) :
  0 < K <= N -> N < 2 ^ 49 ->
  ge_int (mul_int (div_int K N) 100) 70 = true <-> 7 * N <= 10 * K.
Proof.
  intros HK HN.
  destruct (div_int_spec K N HK) as (m1 & p1 & -> & Hp1 & H1 & H2).
  pose proof (mant_bounds K N m1 (2 ^ p1) ltac:(lia) H1 H2) as Hm1.
  destruct (mul_100_spec m1 p1 Hp1 Hm1) as (m2 & p2 & -> & Hp2 & H3 & H4).
  rewrite ge_int_spec by exact Hp2. rewrite Z.leb_le.
  pose proof (pow2_pos p1 ltac:(lia)) as HP1.
  pose proof (pow2_pos p2 Hp2) as HP2.
  assert (HP1' : 2 ^ 52 <= 2 ^ p1) by (apply Z.pow_le_mono_r; lia).
  set (P1 := 2 ^ p1) in *. set (P2 := 2 ^ p2) in *.
  split.
  - (* the float says >= 70, so the fraction is *)
    intros H5. destruct (Z.le_gt_cases (7 * N) (10 * K)) as [|H6]; [assumption|].
    exfalso.
    assert (Ha : 2 ^ 53 * (m1 * N) <= (2 ^ 53 + 1) * (K * P1)) by nia.
    assert (Hb : 7 * 2 ^ 53 * P1 <= 10 * (2 ^ 53 + 1) * m1).
    { assert (Hb' : (7 * 2 ^ 53 * P1) * P2 <= (10 * (2 ^ 53 + 1) * m1) * P2) by nia.
      apply Z.mul_le_mono_pos_r in Hb'; assumption. }
    assert (Hc : 7 * 2 ^ 53 * 2 ^ 53 * N <= 10 * (2 ^ 53 + 1) * (2 ^ 53 + 1) * K).
    { assert (Hc' : (7 * 2 ^ 53 * 2 ^ 53 * N) * P1
                    <= (10 * (2 ^ 53 + 1) * (2 ^ 53 + 1) * K) * P1).
      { transitivity (10 * (2 ^ 53 + 1) * (2 ^ 53 * (m1 * N))).
        - assert (0 <= 2 ^ 53 * N) by lia.
          replace (7 * 2 ^ 53 * 2 ^ 53 * N * P1)
            with ((7 * 2 ^ 53 * P1) * (2 ^ 53 * N)) by ring.
          replace (10 * (2 ^ 53 + 1) * (2 ^ 53 * (m1 * N)))
            with ((10 * (2 ^ 53 + 1) * m1) * (2 ^ 53 * N)) by ring.
          apply Z.mul_le_mono_nonneg_r; assumption.
        - replace (10 * (2 ^ 53 + 1) * (2 ^ 53 + 1) * K * P1)
            with (10 * (2 ^ 53 + 1) * ((2 ^ 53 + 1) * (K * P1))) by ring.
          apply Z.mul_le_mono_nonneg_l; [lia|assumption]. }
      apply Z.mul_le_mono_pos_r in Hc'; assumption. }
    lia.
  - (* the fraction is >= 0.7, so the float says >= 70 *)
    intros H6.
    destruct (Z.eq_dec p1 52) as [E52|N52].
    + (* the quotient is exactly one *)
      assert (P1 = 2 ^ 52) by (unfold P1; now rewrite E52).
      assert (2 ^ 52 <= m1) by lia.
      assert (Hg : 2 * ((70 * P2 - 1) * P1) < 2 * (m2 * P1)) by nia.
      nia.
    + assert (HP53 : 2 ^ 53 <= P1) by (apply Z.pow_le_mono_r; lia).
      assert (Hm : 14 * P1 - 10 <= 20 * m1).
      { assert (Hm' : (14 * P1 - 10) * N <= (20 * m1) * N) by nia.
        apply Z.mul_le_mono_pos_r in Hm'; lia. }
      assert (Hlt : P2 < 2 ^ 47).
      { destruct (Z.lt_ge_cases P2 (2 ^ 47)) as [|Hge]; [assumption|]. exfalso. nia. }
      assert (Hp46 : p2 <= 46).
      { apply Z.pow_lt_mono_r_iff in Hlt; lia. }
      assert (HP46 : P2 <= 2 ^ 46) by (apply Z.pow_le_mono_r; lia).
      assert (Hg : 2 * ((70 * P2 - 1) * P1) < 2 * (m2 * P1)) by nia.
      nia.
Qed.

End FloatFacts.

(** ** Template coverage *)

Module CoverageFacts.
Import PyStr PySort GenerateSchema Float64 ValidateExtraction FloatFacts.

Lemma percent_ge_70_nat (K N : nat) :
  (K <= N)%nat -> (0 < N)%nat -> (Z.of_nat N < 2 ^ 49)%Z ->
  ge_int (percent K N) 70 = true <-> (7 * N <= 10 * K)%nat.
Proof.
  intros HK HN Hb. unfold percent. destruct K as [|K].
  - change (Z.of_nat 0) with 0%Z. split; [intros H; discriminate H|lia].
  - rewrite percent_ge_70 by lia. lia.
Qed.

Lemma subseteq_difference_empty (X Y : gset string) :
  X ⊆ Y -> Y ∖ X = ∅ -> X = Y.
Proof.
  intros Hsub He. apply set_eq. intros x. split; [apply Hsub|].
  intros Hy. destruct (decide (x ∈ X)) as [|Hx]; [assumption|].
  exfalso. apply (not_elem_of_empty (C := gset string) x).
  rewrite <- He. apply elem_of_difference. auto.
Qed.

Lemma subseteq_difference_nonempty (X Y : gset string) :
  X ⊆ Y -> Y ∖ X <> ∅ -> X ⊂ Y.
Proof.
  intros Hsub Hne. split; [exact Hsub|]. intros Hsup. apply Hne.
  apply set_eq. intros x. rewrite elem_of_difference. split.
  - intros [Hy Hx]. exfalso. apply Hx, Hsup, Hy.
  - intros Hx. exfalso. now apply (not_elem_of_empty (C := gset string) x).
Qed.

End CoverageFacts.

Import Float64 ValidateExtraction FloatFacts CoverageFacts.

(** C8.  With [N] the number of templates that are not abstract and [K] the
    number of those whose file exists (a schema that fits in memory has
    fewer than [2 ^ 49] templates, and below that the float comparison
    [pct >= 70] decides [7 * N <= 10 * K] exactly): the check reports
    [K/N], one line per missing template, and returns the found names; its
    level is [PASS] iff [K = N], [WARN] iff [0.7 <= K / N < 1], and [FAIL]
    otherwise.  Abstract templates are in neither [K] nor [N], whether or
    not a file of their name exists. *)
Theorem coverage_verdict (schema : Schema) (dir : gmap string load) :
  let expected : gset string :=
    dom (filter (fun kv => t_is_abstract kv.2 = false) (s_templates schema)) in
  let abstract : gset string :=
    dom (filter (fun kv => t_is_abstract kv.2 = true) (s_templates schema)) in
  let found : gset string :=
    filter (fun tname => is_Some (dir !! json_path tname)) expected in
  let N := size expected in
  let K := size found in
  (Z.of_nat N < 2 ^ 49)%Z ->
  exists level,
    check_template_coverage schema dir =
      ((level, pretty K +:+ "/" +:+ pretty N +:+ " types have output (" +:+
               pretty (size abstract) +:+ " abstract, expected no output)") ::
       map (fun m => ("INFO", "  Missing: " +:+ m)) (sorted_set (expected ∖ found)),
       found) /\
    (K <= N)%nat /\
    (level = "PASS" <-> K = N) /\
    (level = "WARN" <-> (7 * N <= 10 * K)%nat /\ (K < N)%nat) /\
    (level = "FAIL" <-> (10 * K < 7 * N)%nat) /\
    (forall t, t ∈ expected <->
       exists tinfo, s_templates schema !! t = Some tinfo /\ t_is_abstract tinfo = false) /\
    (forall t, t ∈ found <-> t ∈ expected /\ is_Some (dir !! json_path t)).
Proof.
  intros expected abstract found N K HN.
  assert (Hsub : found ⊆ expected).
  { intros t Ht. unfold found in Ht. apply elem_of_filter in Ht. tauto. }
  assert (HKN : (K <= N)%nat) by (apply subseteq_size; exact Hsub).
  assert (Hexp : forall t, t ∈ expected <->
            exists tinfo, s_templates schema !! t = Some tinfo /\
                          t_is_abstract tinfo = false).
  { intros t. unfold expected. rewrite elem_of_dom. split.
    - intros [ti Hti]. apply map_lookup_filter_Some in Hti as [H1 H2]. eauto.
    - intros (ti & H1 & H2). exists ti. apply map_lookup_filter_Some. auto. }
  assert (Hfound : forall t, t ∈ found <-> t ∈ expected /\ is_Some (dir !! json_path t)).
  { intros t. unfold found. rewrite elem_of_filter. tauto. }
  assert (Hsize : size abstract =
            size (filter (fun kv => t_is_abstract kv.2 = true) (s_templates schema))).
  { unfold abstract. apply size_dom. }
  unfold check_template_coverage. fold expected. fold found. fold N. fold K.
  rewrite <- Hsize. clear Hsize.
  clearbody found. clearbody expected abstract.
  destruct (decide (expected ∖ found = ∅)) as [Hm|Hm].
  - assert (E : found = expected) by (now apply subseteq_difference_empty).
    assert (HEq : K = N) by (unfold K, N; now rewrite E).
    exists "PASS". rewrite bool_decide_eq_true_2 by exact Hm.
    split; [reflexivity|]. split; [exact HKN|].
    split; [split; auto|].
    split; [split; [discriminate|intros [_ H]; lia]|].
    split; [split; [discriminate|lia]|]. auto.
  - assert (Hlt : (K < N)%nat).
    { apply subset_size. now apply subseteq_difference_nonempty. }
    rewrite bool_decide_eq_false_2 by exact Hm.
    destruct (Nat.eqb_spec N 0) as [HN0|HN0]; [lia|].
    pose proof (percent_ge_70_nat K N HKN ltac:(lia) HN) as Hpct.
    destruct (ge_int (percent K N) 70) eqn:Ege.
    + exists "WARN". split; [reflexivity|]. split; [exact HKN|].
      assert (7 * N <= 10 * K)%nat by (apply Hpct; reflexivity).
      split; [split; [discriminate|lia]|].
      split; [split; auto|].
      split; [split; [discriminate|lia]|]. auto.
    + exists "FAIL". split; [reflexivity|]. split; [exact HKN|].
      assert (~ (7 * N <= 10 * K)%nat) by (intros H; apply Hpct in H; discriminate).
      split; [split; [discriminate|lia]|].
      split; [split; [discriminate|intros [H' _]; contradiction]|].
      split; [split; [lia|reflexivity]|]. auto.
Qed.

Lemma coverage_verdict_witness :
  check_template_coverage coverage_schema coverage_dir =
    ([("WARN", "3/4 types have output (1 abstract, expected no output)");
      ("INFO", "  Missing: DTemplate")],
     {[ "ATemplate"; "BTemplate"; "CTemplate" ]}).
Proof.
  pose proof (coverage_verdict coverage_schema coverage_dir) as H.
  cbv zeta in H. specialize (H ltac:(vm_compute; reflexivity)).
  destruct H as (level & Heq & _ & _ & Hwarn & _).
  assert (level = "WARN") as -> by (apply Hwarn; split; vm_compute; lia).
  rewrite Heq. vm_compute. reflexivity.
Defined.

(** ** Unreadable instance files *)

Module ValidateFacts.
Import PyStr PySort GenerateSchema Float64 ValidateExtraction ListFacts.

Lemma sorted_set_sorted (X : gset string) : StronglySorted String.le (sorted_set X).
Proof. unfold sorted_set, sorted. apply StronglySorted_merge_sort; apply _. Qed.

Lemma StronglySorted_app_remove {A : Type} (R : relation A) (l1 l2 : list A) (a : A) :
  StronglySorted R (l1 ++ a :: l2) -> StronglySorted R (l1 ++ l2).
Proof.
  induction l1 as [|b l1 IH]; simpl; intros H.
  - now apply StronglySorted_inv in H as [H _].
  - apply StronglySorted_inv in H as [H1 H2]. constructor; [now apply IH|].
    rewrite Forall_app in *. destruct H2 as [H2 H3].
    split; [exact H2|]. now apply Forall_cons in H3 as [_ H3].
Qed.

(** Taking one name out of a set takes it out of the sorted list and
    leaves the others where they were. *)
Lemma sorted_set_remove (X : gset string) (t : string) :
  t ∈ X ->
  exists before after,
    sorted_set X = before ++ t :: after /\
    sorted_set (X ∖ {[t]}) = before ++ after.
Proof.
  intros Ht. apply elem_of_sorted_set in Ht.
  apply list_elem_of_split in Ht as (before & after & E).
  exists before, after. split; [exact E|].
  pose proof (NoDup_sorted_set X) as Hnd. rewrite E in Hnd.
  apply (StronglySorted_unique String.le).
  - apply sorted_set_sorted.
  - pose proof (sorted_set_sorted X) as Hs. rewrite E in Hs.
    eapply StronglySorted_app_remove; eauto.
  - apply NoDup_Permutation.
    + apply NoDup_sorted_set.
    + apply NoDup_app in Hnd as (H1 & H2 & H3). apply NoDup_cons in H3 as [_ H3].
      apply NoDup_app. split; [exact H1|]. split; [|exact H3].
      intros x Hx Hx'. apply (H2 x Hx). now right.
    + intros x. rewrite elem_of_sorted_set, elem_of_difference, elem_of_singleton.
      rewrite <- (elem_of_sorted_set X), E, !elem_of_app, elem_of_cons.
      apply NoDup_app in Hnd as (H1 & H2 & H3). apply NoDup_cons in H3 as [H3 _].
      split.
      * intros [[H|[H|H]] Hne]; auto. contradiction.
      * intros [H|H]; split; auto.
        -- intros ->. apply (H2 t H). now left.
        -- intros ->. contradiction.
Qed.

Lemma for_each_app {A B : Type} (body : A -> result (list B)) (l1 l2 : list A) :
  for_each body (l1 ++ l2) =
  (r1 ← for_each body l1; r2 ← for_each body l2; Ok (r1 ++ r2)).
Proof.
  induction l1 as [|a l1 IH]; simpl.
  - destruct (for_each body l2); reflexivity.
  - destruct (body a) as [ra|e]; simpl; [|reflexivity].
    rewrite IH. destruct (for_each body l1) as [r1|e]; simpl; [|reflexivity].
    destruct (for_each body l2) as [r2|e]; simpl; [|reflexivity].
    now rewrite app_assoc.
Qed.

(** A turn that adds one line and cannot fail. *)
Lemma for_each_insert {A B : Type} (body : A -> result (list B))
    (l1 l2 : list A) (t : A) (x : B) (rs : list B) :
  body t = Ok [x] ->
  for_each body (l1 ++ l2) = Ok rs ->
  exists rs1 rs2, rs = rs1 ++ rs2 /\
    for_each body l1 = Ok rs1 /\ for_each body l2 = Ok rs2 /\
    for_each body (l1 ++ t :: l2) = Ok (rs1 ++ x :: rs2).
Proof.
  intros Ht H. rewrite for_each_app in H. rewrite for_each_app. simpl.
  rewrite Ht. simpl.
  destruct (for_each body l1) as [r1|e]; simpl in *; [|discriminate].
  destruct (for_each body l2) as [r2|e]; simpl in *; [|discriminate].
  injection H as <-. exists r1, r2. auto.
Qed.

(** A turn that adds nothing and cannot fail. *)
Lemma for_each_skip {A B : Type} (body : A -> result (list B))
    (l1 l2 : list A) (t : A) :
  body t = Ok [] ->
  for_each body (l1 ++ t :: l2) = for_each body (l1 ++ l2).
Proof.
  intros Ht. rewrite !for_each_app. simpl. rewrite Ht. simpl.
  destruct (for_each body l1) as [r1|e]; simpl; [|reflexivity].
  destruct (for_each body l2) as [r2|e]; simpl; reflexivity.
Qed.

(** A turn that raises ends the loop: it returns nothing. *)
Lemma for_each_raise {A B : Type} (body : A -> result (list B))
    (l : list A) (t : A) (e : string) :
  body t = Raise e -> t ∈ l -> exists e', for_each body l = Raise e'.
Proof.
  intros Ht. induction l as [|a l IH]; intros Hin; [inversion Hin|].
  simpl. destruct (body a) as [ra|ea] eqn:Ea; simpl; [|eauto].
  apply elem_of_cons in Hin as [->|Hin]; [congruence|].
  destruct (IH Hin) as [e' ->]. simpl. eauto.
Qed.

Lemma count_level_app (level : string) (l1 l2 : list record) :
  count_level level (l1 ++ l2) = count_level level l1 + count_level level l2.
Proof. unfold count_level. now rewrite filter_app, length_app. Qed.

Lemma count_level_cons_same (level msg : string) (l : list record) :
  count_level level ((level, msg) :: l) = S (count_level level l).
Proof. unfold count_level. now rewrite filter_cons_True. Qed.

End ValidateFacts.

Import ValidateFacts.

Section Malformed.
Variable format_value : json -> string.
Variable format_3e : json -> result string.

(** The case the handlers cover.  When the file of template [t] is not
    JSON ([json.load] raises [JSONDecodeError]): the turn of [t] in
    [check_instance_names] is the one
    line [FAIL t: Could not read JSON]; the run over all found templates
    returns whenever the run over the others does, with exactly their lines
    and that one line; in the field and type checks the turn of [t] adds
    nothing and the others are checked as without it; and [main] ends with
    exit code 2 rather than an exception. *)
Lemma malformed_file_is_scoped_fail (schema : Schema) (dir : gmap string load)
    (found_types : gset string) (t : string) :
  dir !! json_path t = Some JSONDecodeError ->
  t ∈ found_types ->
  let others := found_types ∖ {[t]} in
  instance_names_of dir t = Ok [("FAIL", t +:+ ": Could not read JSON")] /\
  (forall rs, check_instance_names dir others = Ok rs ->
     exists rs1 rs2, rs = rs1 ++ rs2 /\
       check_instance_names dir found_types =
         Ok (rs1 ++ ("FAIL", t +:+ ": Could not read JSON") :: rs2)) /\
  check_field_coverage schema dir found_types =
    check_field_coverage schema dir others /\
  check_type_validation format_value format_3e schema dir found_types =
    check_type_validation format_value format_3e schema dir others /\
  (forall names fields types,
     (check_template_coverage schema dir).2 = found_types ->
     check_instance_names dir others = Ok names ->
     check_field_coverage schema dir others = Ok fields ->
     check_type_validation format_value format_3e schema dir others = Ok types ->
     ValidateExtraction.main format_value format_3e (Some schema) (Some dir) = Ok 2%Z).
Proof.
  intros Hbad Ht others.
  destruct (sorted_set_remove found_types t Ht) as (before & after & E & E').
  fold others in E'.
  assert (Hn : instance_names_of dir t = Ok [("FAIL", t +:+ ": Could not read JSON")]).
  { unfold instance_names_of. now rewrite Hbad. }
  assert (Hf : field_coverage_of schema dir t = Ok []).
  { unfold field_coverage_of. rewrite Hbad. now destruct (s_templates schema !! t). }
  assert (Hv : type_validation_of format_value format_3e schema dir t = Ok []).
  { unfold type_validation_of. rewrite Hbad. now destruct (s_templates schema !! t). }
  assert (Hnames : forall rs, check_instance_names dir others = Ok rs ->
     exists rs1 rs2, rs = rs1 ++ rs2 /\
       check_instance_names dir found_types =
         Ok (rs1 ++ ("FAIL", t +:+ ": Could not read JSON") :: rs2)).
  { intros rs H. unfold check_instance_names in *. rewrite E' in H. rewrite E.
    destruct (for_each_insert _ _ _ _ _ _ Hn H) as (rs1 & rs2 & -> & _ & _ & H').
    eauto. }
  assert (Hfields : check_field_coverage schema dir found_types =
                    check_field_coverage schema dir others).
  { unfold check_field_coverage. rewrite E, E'. now apply for_each_skip. }
  assert (Htypes : check_type_validation format_value format_3e schema dir found_types =
                   check_type_validation format_value format_3e schema dir others).
  { unfold check_type_validation. rewrite E, E'. now apply for_each_skip. }
  split; [exact Hn|]. split; [exact Hnames|]. split; [exact Hfields|].
  split; [exact Htypes|].
  intros names fields types Hcov Hon Hof Hot.
  unfold main. destruct (check_template_coverage schema dir) as [cov found].
  simpl in Hcov. subst found.
  rewrite bool_decide_eq_false_2.
  2:{ intros He. rewrite He in Ht. now apply not_elem_of_empty in Ht. }
  destruct (Hnames names Hon) as (rs1 & rs2 & -> & ->).
  rewrite Hfields, Hof, Htypes, Hot. simpl.
  rewrite count_level_app, count_level_cons_same.
  destruct (0 <? _)%nat eqn:Epos; [reflexivity|].
  apply Nat.ltb_ge in Epos. lia.
Qed.

(** C9.  The handlers of the per-template loops name
    [json.JSONDecodeError] and [OSError] only.  When loading the file of a
    found template [t] raises anything else ([UnicodeDecodeError] for a
    file that is not UTF-8, [RecursionError] for one nested too deep), the
    turn of [t] in [check_instance_names] raises it: no [FAIL] line is
    recorded, the loop returns no line for any template, and [main] ends in
    the exception instead of an exit code.  The field and type checks, run
    on their own, end in the same way when [t] is a template of the
    schema. *)
Theorem undecodable_file_aborts_run (schema : Schema) (dir : gmap string load)
    (found_types : gset string) (t e : string) :
  dir !! json_path t = Some (OtherError e) ->
  t ∈ found_types ->
  instance_names_of dir t = Raise e /\
  (exists e', check_instance_names dir found_types = Raise e') /\
  ((check_template_coverage schema dir).2 = found_types ->
   exists e',
     ValidateExtraction.main format_value format_3e (Some schema) (Some dir) = Raise e') /\
  (is_Some (s_templates schema !! t) ->
   (exists e', check_field_coverage schema dir found_types = Raise e') /\
   (exists e',
      check_type_validation format_value format_3e schema dir found_types = Raise e')).
Proof.
  intros Hbad Ht.
  assert (Hn : instance_names_of dir t = Raise e).
  { unfold instance_names_of. now rewrite Hbad. }
  assert (Hnames : exists e', check_instance_names dir found_types = Raise e').
  { unfold check_instance_names. apply (for_each_raise _ _ t e Hn).
    now apply elem_of_sorted_set. }
  split; [exact Hn|]. split; [exact Hnames|]. split.
  2:{ intros [tinfo Ht']. split.
      - unfold check_field_coverage. apply (for_each_raise _ _ t e).
        + unfold field_coverage_of. now rewrite Ht', Hbad.
        + now apply elem_of_sorted_set.
      - unfold check_type_validation. apply (for_each_raise _ _ t e).
        + unfold type_validation_of. now rewrite Ht', Hbad.
        + now apply elem_of_sorted_set. }
  intros Hcov. unfold main.
  destruct (check_template_coverage schema dir) as [cov found].
  simpl in Hcov. subst found.
  rewrite bool_decide_eq_false_2.
  2:{ intros He. rewrite He in Ht. now apply not_elem_of_empty in Ht. }
  destruct Hnames as [e' ->]. simpl. eauto.
Qed.
End Malformed.

Lemma malformed_file_is_scoped_fail_witness :
  check_instance_names validation_dir {[ "ATemplate"; "BTemplate"; "CTemplate" ]} =
    Ok [("WARN", "ATemplate: 1/2 named (50%)");
        ("PASS", "BTemplate: 1/1 named (100%)");
        ("FAIL", "CTemplate: Could not read JSON")] /\
  ValidateExtraction.main (fun _ => "") (fun _ => Ok "")
    (Some validation_schema) (Some validation_dir) = Ok 2%Z.
Proof.
  split; [vm_compute; reflexivity|].
  destruct (malformed_file_is_scoped_fail (fun _ => "") (fun _ => Ok "")
              validation_schema validation_dir
              {[ "ATemplate"; "BTemplate"; "CTemplate" ]} "CTemplate")
    as (_ & _ & _ & _ & Hmain).
  - vm_compute; reflexivity.
  - apply elem_of_union_r, elem_of_singleton. reflexivity.
  - eapply Hmain; vm_compute; reflexivity.
Defined.

Lemma undecodable_file_aborts_run_witness :
  instance_names_of undecodable_dir "BTemplate" = Raise "UnicodeDecodeError" /\
  check_instance_names undecodable_dir {[ "ATemplate"; "BTemplate"; "CTemplate" ]} =
    Raise "UnicodeDecodeError" /\
  ValidateExtraction.main (fun _ => "") (fun _ => Ok "")
    (Some validation_schema) (Some undecodable_dir) = Raise "UnicodeDecodeError".
Proof.
  destruct (undecodable_file_aborts_run (fun _ => "") (fun _ => Ok "")
              validation_schema undecodable_dir
              {[ "ATemplate"; "BTemplate"; "CTemplate" ]} "BTemplate"
              "UnicodeDecodeError")
    as (Hturn & _ & _ & _).
  - vm_compute; reflexivity.
  - apply elem_of_union_l, elem_of_union_r, elem_of_singleton. reflexivity.
  - split; [exact Hturn|]. split; vm_compute; reflexivity.
Defined.

(** * Further properties of the three tools *)

(** ** More on the differ *)

Module DiffReportFacts.
Import PyStr PySort GenerateSchema DiffSchemas DiffReport ListFacts DiffFacts.

Lemma any_crit_app (a b : list record) :
  any_crit (a ++ b) = any_crit a || any_crit b.
Proof. apply existsb_app. Qed.

Lemma any_crit_flat_map {A : Type} (f : A -> list record) (l : list A) :
  any_crit (flat_map f l) = existsb (fun x => any_crit (f x)) l.
Proof.
  induction l as [|a l IH]; simpl; [reflexivity|].
  now rewrite any_crit_app, IH.
Qed.

Lemma any_crit_map_level {A : Type} (level : string) (msg : A -> string) (l : list A) :
  level <> "CRIT" -> any_crit (map (fun x => (level, msg x)) l) = false.
Proof.
  intros H. induction l as [|a l IH]; simpl; [reflexivity|].
  rewrite IH, orb_false_r. now apply String.eqb_neq.
Qed.

Lemma any_crit_name_section (level summary : string) (names : gset string)
    (line : string -> string) :
  level <> "CRIT" -> any_crit (name_section level summary names line) = false.
Proof.
  intros H. unfold name_section. destruct (nonempty names); [|reflexivity].
  cbn [any_crit existsb fst].
  change (existsb _ ?l) with (any_crit l).
  rewrite (any_crit_map_level "INFO") by discriminate.
  rewrite orb_false_r. now apply String.eqb_neq.
Qed.

Lemma nonempty_true (X : gset string) : nonempty X = true <-> exists x, x ∈ X.
Proof.
  unfold nonempty. rewrite negb_true_iff, bool_decide_eq_false. split.
  - intros H. apply set_choose_L in H. exact H.
  - intros [x Hx] ->. now apply not_elem_of_empty in Hx.
Qed.

Lemma nonempty_false (X : gset string) : nonempty X = false -> X = ∅.
Proof.
  unfold nonempty. rewrite negb_false_iff, bool_decide_eq_true. auto.
Qed.

Lemma name_section_empty level summary line : name_section level summary ∅ line = [].
Proof. unfold name_section. now rewrite nonempty_empty. Qed.

(** The lines of one enum hold a [CRIT] exactly when a value changed. *)
Lemma any_crit_enum_changes (name : string) (old_vals new_vals : gmap string Z) :
  any_crit (enum_changes name old_vals new_vals) = true <->
  exists k v v', old_vals !! k = Some v /\ new_vals !! k = Some v' /\ v <> v'.
Proof.
  unfold enum_changes.
  set (added_v := dom new_vals ∖ dom old_vals).
  set (removed_v := dom old_vals ∖ dom new_vals).
  set (changed_v := filter _ _ : gset string).
  assert (Hch : (exists k, k ∈ changed_v) <->
                exists k v v', old_vals !! k = Some v /\ new_vals !! k = Some v' /\ v <> v').
  { unfold changed_v. split.
    - intros (k & Hk). apply elem_of_filter in Hk as [Hne Hk].
      apply elem_of_intersection in Hk as [Ho Hn].
      apply elem_of_dom in Ho as [v Hv]. apply elem_of_dom in Hn as [v' Hv'].
      exists k, v, v'. repeat split; auto. intros ->. apply Hne. congruence.
    - intros (k & v & v' & Hv & Hv' & Hne). exists k. apply elem_of_filter. split.
      + rewrite Hv, Hv'. congruence.
      + apply elem_of_intersection. split; apply elem_of_dom; eauto. }
  rewrite <- Hch, <- nonempty_true.
  destruct (nonempty changed_v) eqn:Ec.
  - rewrite !orb_true_r. cbn [any_crit existsb fst].
    change (existsb _ ?l) with (any_crit l).
    rewrite !any_crit_app.
    apply nonempty_true in Ec as [k Hk].
    split; [reflexivity|intros _].
    apply orb_true_iff. right. apply orb_true_iff. right. apply orb_true_iff. right.
    apply existsb_exists.
    eexists. split.
    + apply in_map_iff. exists k. split; [reflexivity|].
      apply list_elem_of_In, elem_of_sorted_set. exact Hk.
    + reflexivity.
  - rewrite orb_false_r.
    apply nonempty_false in Ec. rewrite Ec, sorted_set_empty.
    destruct (nonempty added_v || nonempty removed_v); [|split; discriminate].
    cbn [any_crit existsb fst]. change (existsb _ ?l) with (any_crit l).
    rewrite !any_crit_app.
    rewrite !(any_crit_map_level "INFO") by discriminate.
    simpl. split; discriminate.
Qed.

Lemma dom_self_difference (X : gset string) : X ∖ X = ∅.
Proof. set_solver. Qed.

Lemma enum_changes_same (name : string) (vals : gmap string Z) :
  enum_changes name vals vals = [].
Proof.
  destruct (enum_changes name vals vals) as [|r l] eqn:E; [reflexivity|].
  exfalso. unfold enum_changes in E. rewrite dom_self_difference in E.
  rewrite nonempty_empty in E. simpl in E.
  destruct (nonempty _) eqn:En; [|discriminate].
  apply nonempty_true in En as [k Hk]. apply elem_of_filter in Hk as [Hk _].
  now apply Hk.
Qed.

(** The fold over the common templates, as its lines and its count. *)
Lemma common_loop_lines (old new : gmap string Template) (l : list string) :
  forall results c,
    fold_left (common_step old new) l (results, c) =
    (results ++ flat_map (fun name => (common_step old new ([], 0) name).1) l,
     c + list_sum (map (fun name => (common_step old new ([], 0) name).2) l)).
Proof.
  induction l as [|a l IH]; intros results c; cbn [fold_left flat_map map list_sum].
  - now rewrite app_nil_r, Nat.add_0_r.
  - assert (E : common_step old new (results, c) a =
               (results ++ (common_step old new ([], 0) a).1,
                c + (common_step old new ([], 0) a).2)).
    { unfold common_step. destruct (old !! a), (new !! a);
        try (cbn; now rewrite app_nil_r, Nat.add_0_r).
      destruct (template_changes a t t0). reflexivity. }
    rewrite E, IH. rewrite <- app_assoc, <- Nat.add_assoc. reflexivity.
Qed.

Lemma count_crit_cons (r : record) (l : list record) :
  count_crit (r :: l) = (if String.eqb r.1 "CRIT" then 1 else 0) + count_crit l.
Proof.
  unfold count_crit. destruct (String.eqb_spec r.1 "CRIT") as [E|E].
  - now rewrite filter_cons_True by exact E.
  - now rewrite filter_cons_False by exact E.
Qed.

Lemma count_crit_app (a b : list record) :
  count_crit (a ++ b) = count_crit a + count_crit b.
Proof. unfold count_crit. now rewrite filter_app, length_app. Qed.

Lemma count_crit_map {A : Type} (level : string) (msg : A -> string) (l : list A) :
  count_crit (map (fun x => (level, msg x)) l) =
  if String.eqb level "CRIT" then length l else 0.
Proof.
  induction l as [|a l IH]; [now destruct (String.eqb level "CRIT")|].
  cbn [map]. rewrite count_crit_cons, IH. cbn [fst length].
  now destruct (String.eqb level "CRIT").
Qed.

Lemma count_crit_name_section (level summary : string) (names : gset string)
    (line : string -> string) :
  level <> "CRIT" -> count_crit (name_section level summary names line) = 0.
Proof.
  intros H. unfold name_section. destruct (nonempty names); [|reflexivity].
  rewrite count_crit_cons, (count_crit_map "INFO"). cbn [fst].
  apply String.eqb_neq in H. now rewrite H.
Qed.

Lemma count_crit_flat_map {A : Type} (f : A -> list record) (l : list A) :
  count_crit (flat_map f l) = list_sum (map (fun x => count_crit (f x)) l).
Proof.
  induction l as [|a l IH]; [reflexivity|].
  cbn [flat_map map list_sum]. now rewrite count_crit_app, IH.
Qed.

Lemma any_crit_count (results : list record) :
  any_crit results = true <-> 0 < count_crit results.
Proof.
  unfold any_crit. induction results as [|r l IH].
  - cbn. split; [discriminate|lia].
  - rewrite count_crit_cons. cbn [existsb].
    destruct (String.eqb r.1 "CRIT"); cbn [orb]; [split; [lia|reflexivity]|].
    rewrite IH. reflexivity.
Qed.

(** The lines of one template carry one [CRIT] per offset change. *)
Lemma count_crit_template_changes (name : string) (old_t new_t : Template) :
  count_crit (template_changes name old_t new_t).1 =
  (template_changes name old_t new_t).2.
Proof.
  unfold template_changes. cbn [fst snd].
  set (oc := flat_map _ _). set (tc := flat_map _ _).
  destruct (nonempty _ || nonempty _ || negb (bool_decide (oc = [])) ||
            negb (bool_decide (tc = []))) eqn:E.
  - rewrite count_crit_cons. cbn [fst String.eqb Ascii.eqb Bool.eqb].
    rewrite !count_crit_app.
    assert (H1 : forall (fields : gmap string FieldDef) sign l,
              count_crit (map (fun f : string =>
                match fields !! f with
                | Some d => ("INFO", sign +:+ f +:+ ": " +:+ fd_type d +:+ " @ " +:+ fd_offset d)
                | None => ("INFO", sign +:+ f)
                end) l) = 0).
    { intros fields sign l. induction l as [|a l IH]; [reflexivity|].
      cbn [map]. rewrite count_crit_cons, IH. now destruct (fields !! a). }
    rewrite !H1.
    assert (H2 : count_crit (map (fun '(fname, old_off, new_off) =>
              ("CRIT", "  OFFSET " +:+ fname +:+ ": " +:+ old_off +:+ " -> " +:+ new_off))
              oc) = length oc).
    { clear. induction oc as [|[[a b] c] l IH]; [reflexivity|].
      cbn [map]. rewrite count_crit_cons, IH. reflexivity. }
    assert (H3 : count_crit (map (fun '(fname, old_type, new_type) =>
              ("WARN", "  TYPE " +:+ fname +:+ ": " +:+ old_type +:+ " -> " +:+ new_type))
              tc) = 0).
    { clear. induction tc as [|[[a b] c] l IH]; [reflexivity|].
      cbn [map]. rewrite count_crit_cons, IH. reflexivity. }
    rewrite H2, H3. lia.
  - apply orb_false_iff in E as [E _]. apply orb_false_iff in E as [_ E].
    apply negb_false_iff, bool_decide_eq_true in E. rewrite E. reflexivity.
Qed.

(** A template has an offset change when a name that both field lists hold
    has two offsets. *)
Lemma template_offset_changes (name : string) (old_t new_t : Template) :
  0 < (template_changes name old_t new_t).2 <->
  exists fname old_f new_f,
    fields_by_name (t_fields old_t) !! fname = Some old_f /\
    fields_by_name (t_fields new_t) !! fname = Some new_f /\
    fd_offset old_f <> fd_offset new_f.
Proof.
  unfold template_changes. cbn [snd].
  set (M := fields_by_name (t_fields old_t)). set (N := fields_by_name (t_fields new_t)).
  set (oc := flat_map _ _). split.
  - intros H. destruct oc as [|[[fname oo] no] l] eqn:E; [simpl in H; lia|].
    assert (Hin : (fname, oo, no) ∈ oc) by (rewrite E; left).
    unfold oc in Hin. apply elem_of_flat_map in Hin as (x & _ & Hx).
    destruct (M !! x) as [fo|] eqn:Eo; [|inversion Hx].
    destruct (N !! x) as [fn|] eqn:En; [|inversion Hx].
    destruct (String.eqb_spec (fd_offset fo) (fd_offset fn)); [inversion Hx|].
    exists x, fo, fn. auto.
  - intros (fname & fo & fn & Ho & Hn & Hne).
    assert (Hin : (fname, fd_offset fo, fd_offset fn) ∈ oc).
    { unfold oc. apply elem_of_flat_map. exists fname. split.
      - apply elem_of_sorted_set, elem_of_intersection. split; apply elem_of_dom; eauto.
      - fold M N. rewrite Ho, Hn.
        destruct (String.eqb_spec (fd_offset fo) (fd_offset fn)); [contradiction|left]. }
    destruct oc; [inversion Hin|simpl; lia].
Qed.

End DiffReportFacts.

Module DiffTemplateFacts.
Import PyStr PySort GenerateSchema DiffSchemas DiffReport ListFacts DiffFacts DiffReportFacts.

(** The lines and the offset count one common name contributes. *)
Lemma common_step_count (old new : gmap string Template) (name : string) :
  count_crit (common_step old new ([], 0) name).1 = (common_step old new ([], 0) name).2.
Proof.
  unfold common_step. destruct (old !! name) as [ot|]; [|reflexivity].
  destruct (new !! name) as [nt|]; [|reflexivity].
  pose proof (count_crit_template_changes name ot nt) as H.
  destruct (template_changes name ot nt) as [lines n]. exact H.
Qed.

(** [diff_templates] without the fold: the lines of the added, removed and
    common names, under the summary line when offsets changed. *)
Lemma diff_templates_lines (old new : gmap string Template) :
  exists lines n,
    count_crit lines = n /\
    n = list_sum (map (fun name => (common_step old new ([], 0) name).2)
                    (sorted_set (dom old ∩ dom new))) /\
    diff_templates old new =
      if Nat.eqb n 0 then lines
      else ("CRIT", "*** " +:+ pretty n +:+
                    " OFFSET CHANGES - extraction code must be regenerated ***") :: lines.
Proof.
  unfold diff_templates. rewrite common_loop_lines. cbn [Nat.add].
  eexists _, _. split; [|split; reflexivity].
  rewrite !count_crit_app, !count_crit_name_section by discriminate.
  rewrite count_crit_flat_map. cbn [Nat.add]. f_equal.
  apply map_ext. intros name. apply common_step_count.
Qed.

Lemma list_sum_pos (l : list nat) : 0 < list_sum l <-> exists n, n ∈ l /\ 0 < n.
Proof.
  induction l as [|a l IH]; simpl.
  - split; [lia|intros (n & Hn & _); inversion Hn].
  - split.
    + intros H. destruct (Nat.eq_dec a 0) as [->|Ha].
      * apply IH in H as (n & Hn & Hpos). exists n. split; [now right|exact Hpos].
      * exists a. split; [left|lia].
    + intros (n & Hn & Hpos). apply elem_of_cons in Hn as [->|Hn]; [lia|].
      assert (0 < list_sum l) by (apply IH; eauto). lia.
Qed.

End DiffTemplateFacts.

Import PyStr PySort GenerateSchema DiffSchemas DiffReport.
Import ListFacts DiffFacts DiffReportFacts DiffTemplateFacts.

(** X1.  A schema compared with itself: the three diffs are empty and
    [main] exits with 0. *)
Theorem diff_with_itself_is_empty (schema : Schema) :
  diff_enums (s_enums schema) (s_enums schema) = [] /\
  diff_structs (s_structs schema) (s_structs schema) = [] /\
  diff_templates (s_templates schema) (s_templates schema) = [] /\
  DiffSchemas.main (Some schema) (Some schema) = 0%Z.
Proof.
  assert (He : diff_enums (s_enums schema) (s_enums schema) = []).
  { unfold diff_enums. rewrite dom_self_difference, !name_section_empty.
    apply flat_map_nil. intros name _.
    destruct (s_enums schema !! name); [apply enum_changes_same|reflexivity]. }
  assert (Hs : diff_structs (s_structs schema) (s_structs schema) = []).
  { unfold diff_structs. rewrite dom_self_difference, !name_section_empty.
    apply flat_map_nil. intros name _.
    destruct (s_structs schema !! name); [|reflexivity]. now rewrite Z.eqb_refl. }
  assert (Ht : diff_templates (s_templates schema) (s_templates schema) = []).
  { unfold diff_templates. rewrite common_loop_lines.
    rewrite dom_self_difference, !name_section_empty.
    assert (Hstep : forall name,
              common_step (s_templates schema) (s_templates schema) ([], 0) name = ([], 0)).
    { intros name. unfold common_step.
      destruct (s_templates schema !! name); [|reflexivity].
      now rewrite template_changes_same. }
    rewrite flat_map_nil by (intros name _; now rewrite Hstep).
    assert (E : forall l, list_sum (map (fun name =>
                  (common_step (s_templates schema) (s_templates schema) ([], 0) name).2) l) = 0).
    { intros l. transitivity (list_sum (map (fun _ : string => 0) l)).
      - f_equal. apply map_ext. intros name. now rewrite Hstep.
      - induction l as [|a l IH]; [reflexivity|exact IH]. }
    rewrite E. reflexivity. }
  repeat split; auto. unfold main. now rewrite He, Hs, Ht.
Qed.

(** X2.  The enum diff has a [CRIT] line exactly when an enum of both
    schemas has a value name of both with two different numbers; added and
    removed enums and value names are never critical. *)
Theorem enum_crit_iff_value_changed (old_enums new_enums : gmap string EnumDef) :
  any_crit (diff_enums old_enums new_enums) = true <->
  exists name old_e new_e k v v',
    old_enums !! name = Some old_e /\ new_enums !! name = Some new_e /\
    ed_values old_e !! k = Some v /\ ed_values new_e !! k = Some v' /\ v <> v'.
Proof.
  unfold diff_enums. rewrite !any_crit_app, !any_crit_name_section by discriminate.
  cbn [orb]. rewrite any_crit_flat_map. split.
  - intros H. apply existsb_exists in H as (name & _ & H).
    destruct (old_enums !! name) as [oe|] eqn:Eo; [|discriminate].
    destruct (new_enums !! name) as [ne|] eqn:En; [|discriminate].
    apply any_crit_enum_changes in H as (k & v & v' & H).
    exists name, oe, ne, k, v, v'. tauto.
  - intros (name & oe & ne & k & v & v' & Ho & Hn & H).
    apply existsb_exists. exists name. split.
    + apply list_elem_of_In, elem_of_sorted_set, elem_of_intersection.
      split; apply elem_of_dom; eauto.
    + rewrite Ho, Hn. apply any_crit_enum_changes. eauto.
Qed.

(** X3.  The struct diff has a [CRIT] line exactly when a struct of both
    schemas has two different sizes; added and removed structs are never
    critical, and a change of the fields that keeps the size is not seen. *)
Theorem struct_crit_iff_size_changed (old_structs new_structs : gmap string StructDef) :
  any_crit (diff_structs old_structs new_structs) = true <->
  exists name old_s new_s,
    old_structs !! name = Some old_s /\ new_structs !! name = Some new_s /\
    sd_size_bytes old_s <> sd_size_bytes new_s.
Proof.
  unfold diff_structs. rewrite !any_crit_app, !any_crit_name_section by discriminate.
  cbn [orb]. rewrite any_crit_flat_map. split.
  - intros H. apply existsb_exists in H as (name & _ & H).
    destruct (old_structs !! name) as [so|] eqn:Eo; [|discriminate].
    destruct (new_structs !! name) as [sn|] eqn:En; [|discriminate].
    destruct (Z.eqb_spec (sd_size_bytes so) (sd_size_bytes sn)); [discriminate|].
    exists name, so, sn. auto.
  - intros (name & so & sn & Ho & Hn & Hne).
    apply existsb_exists. exists name. split.
    + apply list_elem_of_In, elem_of_sorted_set, elem_of_intersection.
      split; apply elem_of_dom; eauto.
    + rewrite Ho, Hn.
      destruct (Z.eqb_spec (sd_size_bytes so) (sd_size_bytes sn)); [contradiction|].
      reflexivity.
Qed.

(** X4.  The template diff has a [CRIT] line exactly when a template of
    both schemas has a field name of both whose two fields (the last of
    that name in each list) have different offsets; a changed type, and
    added or removed templates and fields, are never critical. *)
Theorem template_crit_iff_offset_changed (old_templates new_templates : gmap string Template) :
  any_crit (diff_templates old_templates new_templates) = true <->
  exists name old_t new_t fname old_f new_f,
    old_templates !! name = Some old_t /\ new_templates !! name = Some new_t /\
    fields_by_name (t_fields old_t) !! fname = Some old_f /\
    fields_by_name (t_fields new_t) !! fname = Some new_f /\
    fd_offset old_f <> fd_offset new_f.
Proof.
  destruct (diff_templates_lines old_templates new_templates) as (lines & n & Hc & Hn & ->).
  assert (Hpos : 0 < n <->
    exists name old_t new_t fname old_f new_f,
      old_templates !! name = Some old_t /\ new_templates !! name = Some new_t /\
      fields_by_name (t_fields old_t) !! fname = Some old_f /\
      fields_by_name (t_fields new_t) !! fname = Some new_f /\
      fd_offset old_f <> fd_offset new_f).
  { rewrite Hn, list_sum_pos. split.
    - intros (k & Hk & Hpos). apply list_elem_of_fmap in Hk as (name & -> & _).
      unfold common_step in Hpos.
      destruct (old_templates !! name) as [ot|] eqn:Eo; [|cbn in Hpos; lia].
      destruct (new_templates !! name) as [nt|] eqn:En; [|cbn in Hpos; lia].
      assert (H : 0 < (template_changes name ot nt).2)
        by (destruct (template_changes name ot nt); exact Hpos).
      apply template_offset_changes in H as (fname & fo & fn & H).
      exists name, ot, nt, fname, fo, fn. tauto.
    - intros (name & ot & nt & fname & fo & fn & Ho & Hnw & H).
      exists ((common_step old_templates new_templates ([], 0) name).2). split.
      + apply list_elem_of_fmap. exists name. split; [reflexivity|].
        apply elem_of_sorted_set, elem_of_intersection. split; apply elem_of_dom; eauto.
      + unfold common_step. rewrite Ho, Hnw.
        assert (H' : 0 < (template_changes name ot nt).2)
          by (apply template_offset_changes; eauto).
        destruct (template_changes name ot nt); exact H'. }
  rewrite <- Hpos. destruct (Nat.eqb_spec n 0) as [E|E].
  - rewrite any_crit_count, Hc. reflexivity.
  - cbn. split; [lia|reflexivity].
Qed.

(** X5.  The number in the summary line of the template diff is the number
    of [CRIT] lines under it, and with no offset change the diff has no
    summary line and no [CRIT] line. *)
Theorem offset_summary_counts_crit_lines (old_templates new_templates : gmap string Template) :
  count_crit (diff_templates old_templates new_templates) = 0 \/
  exists n rest,
    0 < n /\
    diff_templates old_templates new_templates =
      ("CRIT", "*** " +:+ pretty n +:+
               " OFFSET CHANGES - extraction code must be regenerated ***") :: rest /\
    count_crit rest = n.
Proof.
  destruct (diff_templates_lines old_templates new_templates) as (lines & n & Hc & _ & ->).
  destruct (Nat.eqb_spec n 0) as [E|E].
  - left. congruence.
  - right. exists n, lines. split; [lia|]. auto.
Qed.

(** X6.  With both schema files present, [main] exits with 2 exactly when
    the critical count of its [SUMMARY] line is positive and with 0 exactly
    when it is zero; the critical count is at most the count of changes. *)
Theorem exit_code_matches_summary (old_schema new_schema : Schema) :
  let '(total_changes, critical) := summary old_schema new_schema in
  (DiffSchemas.main (Some old_schema) (Some new_schema) = 2%Z <-> 0 < critical) /\
  (DiffSchemas.main (Some old_schema) (Some new_schema) = 0%Z <-> critical = 0) /\
  critical <= total_changes.
Proof.
  unfold summary, main.
  set (e := diff_enums _ _). set (s := diff_structs _ _). set (t := diff_templates _ _).
  cbn [orb]. rewrite !count_crit_app.
  pose proof (any_crit_count e) as He. pose proof (any_crit_count s) as Hs.
  pose proof (any_crit_count t) as Ht.
  assert (Hle : forall l, count_crit l <= count_changes l).
  { induction l as [|r l IH]; [reflexivity|].
    unfold count_crit, count_changes in *. rewrite !filter_cons.
    destruct (decide (r.1 = "CRIT")) as [E|E], (decide (r.1 ≠ "INFO")) as [E'|E'];
      simpl.
    - apply le_n_S, IH.
    - exfalso. apply E'. rewrite E. discriminate.
    - apply Nat.le_le_succ_r, IH.
    - exact IH. }
  assert (Hany : any_crit e || any_crit s || any_crit t = true <->
                 0 < count_crit e + count_crit s + count_crit t).
  { rewrite !orb_true_iff, He, Hs, Ht. lia. }
  rewrite Nat.add_assoc.
  destruct (any_crit e || any_crit s || any_crit t).
  - destruct Hany as [Hany _]. specialize (Hany eq_refl).
    split; [tauto|]. split; [split; [discriminate|lia]|].
    pose proof (Hle (e ++ s ++ t)) as H. now rewrite !count_crit_app, Nat.add_assoc in H.
  - assert (Hz : count_crit e + count_crit s + count_crit t = 0).
    { destruct (count_crit e + count_crit s + count_crit t); [reflexivity|].
      destruct Hany as [_ Hany]. discriminate Hany. lia. }
    split; [split; [discriminate|lia]|]. split; [tauto|].
    pose proof (Hle (e ++ s ++ t)) as H. now rewrite !count_crit_app, Nat.add_assoc in H.
Qed.

(** ** More on the schema builder *)

Module TemplateNameFacts.
Import PyStr Re PySort GenerateSchema StrFacts ReFacts ListFacts ExtractFacts ValidateFacts.

(** Where a match of the template name pattern sits in the text. *)
Lemma template_name_pattern_occurrence (kw content : string) (m : rmatch) :
  match_of (template_name_pattern kw) content m ->
  exists pre stem c post,
    content = pre +:+ kw +:+ (stem +:+ "Template") +:+ String c post /\
    is_space c = true /\ stem <> "" /\ all_chars is_word stem = true /\
    group 1 m = stem +:+ "Template".
Proof.
  intros (pre & s0 & s' & -> & H & _ & _).
  unfold template_name_pattern in H. cbn [cat] in H.
  destruct H as (s1 & g1 & H1 & H). apply sem_lit in H1 as [-> ->].
  destruct H as (s2 & g2 & H2 & H).
  apply sem_grp in H2 as (w & g3 & E & H2 & ->).
  destruct H2 as (s3 & g4 & H3 & H4).
  apply sem_plus_cls in H3 as (x & -> & Hx & Hw & ->).
  apply sem_lit in H4 as [-> ->].
  rewrite <- str_app_assoc in E. apply str_app_inv_tail in E.
  destruct H as (c & -> & Hc & Hg).
  subst w. exists pre, x, c, s'.
  split; [now rewrite (str_app_assoc x)|]. repeat split; auto.
  unfold group. rewrite Hg. reflexivity.
Qed.

End TemplateNameFacts.

Import PyStr Re PySort GenerateSchema.
Import StrFacts ReFacts ListFacts ExtractFacts ValidateFacts TemplateNameFacts.

(** X7.  The template names of a dump come out in ascending order without
    repeats; each ends in [Template] after at least one more word
    character, is made of word characters only, holds no [Uxml], and
    stands in the dump between [public class ] or [public abstract class ]
    and a whitespace character. *)
Theorem template_names_sorted_and_declared (content : string) :
  StronglySorted String.le (parse_all_templates content) /\
  NoDup (parse_all_templates content) /\
  (forall name, name ∈ parse_all_templates content ->
     contains "Uxml" name = false /\
     all_chars is_word name = true /\
     exists kw pre stem c post,
       (kw = "public class " \/ kw = "public abstract class ") /\
       content = pre +:+ kw +:+ name +:+ String c post /\
       is_space c = true /\ name = stem +:+ "Template" /\ stem <> "").
Proof.
  split; [apply sorted_set_sorted|]. split; [apply NoDup_sorted_set|].
  intros name. unfold parse_all_templates.
  rewrite elem_of_sorted_set, elem_of_filter. intros [Hnoise H].
  unfold template_noise in Hnoise.
  apply orb_false_iff in Hnoise as [Hnoise _]. apply orb_false_iff in Hnoise as [_ Hux].
  split; [exact Hux|].
  assert (Hocc : exists kw m,
            (kw = "public class " \/ kw = "public abstract class ") /\
            match_of (template_name_pattern kw) content m /\ group 1 m = name).
  { apply elem_of_union in H.
    destruct H as [H|H]; apply elem_of_list_to_set in H; unfold findall1 in H;
      apply list_elem_of_fmap in H as (m & -> & Hm); apply finditer_sound in Hm;
      eexists _, m; eauto. }
  destruct Hocc as (kw & m & Hkw & Hm & <-).
  apply template_name_pattern_occurrence in Hm as (pre & stem & c & post & E & Hc & Hne & Hw & Hg).
  rewrite Hg. split.
  - rewrite all_chars_app, Hw. reflexivity.
  - exists kw, pre, stem, c, post. auto.
Qed.

Lemma template_names_sorted_and_declared_witness :
  parse_all_templates base_child_dump = ["BaseTemplate"; "ChildTemplate"] /\
  contains "Uxml" "ChildTemplate" = false.
Proof.
  assert (Hv : parse_all_templates base_child_dump = ["BaseTemplate"; "ChildTemplate"])
    by (vm_compute; reflexivity).
  split; [exact Hv|].
  destruct (template_names_sorted_and_declared base_child_dump) as (_ & _ & H).
  apply (H "ChildTemplate"). rewrite Hv. right. left.
Defined.

Module ChainFacts.
Import PyStr Re PySort GenerateSchema Shapes StrFacts ListFacts WalkFacts.

Lemma linked_snoc (h : gmap string string) (rest : list string) (current parent : string) :
  linked h (rest ++ [current]) -> h !! current = Some parent ->
  linked h ((rest ++ [current]) ++ [parent]).
Proof.
  intros Hl Hp i x p Hx Hpn.
  assert (Hlen : length (rest ++ [current]) = S (length rest))
    by (rewrite length_app; simpl; lia).
  destruct (decide (S i < S (length rest))) as [Hlt|Hge].
  - rewrite lookup_app_l in Hx by lia. rewrite lookup_app_l in Hpn by lia. eauto.
  - assert (Hi : i < S (length rest)).
    { apply lookup_lt_Some in Hx. rewrite length_app, Hlen in Hx. simpl in Hx.
      apply lookup_lt_Some in Hpn. rewrite length_app, Hlen in Hpn. simpl in Hpn. lia. }
    assert (i = length rest) as -> by lia.
    rewrite lookup_app_l in Hx by lia. rewrite list_lookup_middle in Hx by reflexivity.
    injection Hx as <-.
    rewrite lookup_app_r in Hpn by lia. rewrite Hlen, Nat.sub_diag in Hpn.
    injection Hpn as <-. exact Hp.
Qed.

Lemma chain_loop_shape (h : gmap string string) :
  forall n rest current fuel,
    size (dom h ∖ list_to_set rest) < n -> n <= fuel ->
    NoDup (rest ++ [current]) ->
    (forall x, x ∈ rest -> x ∈ dom h) ->
    linked h (rest ++ [current]) ->
    exists more z,
      chain_loop fuel h (rest ++ [current]) current = (rest ++ [current]) ++ more /\
      last (chain_loop fuel h (rest ++ [current]) current) = Some z /\
      NoDup (chain_loop fuel h (rest ++ [current]) current) /\
      linked h (chain_loop fuel h (rest ++ [current]) current) /\
      stops_at h (chain_loop fuel h (rest ++ [current]) current) z.
Proof.
  induction n as [|n IH]; intros rest current fuel Hn Hf Hnd Hkeys Hl; [lia|].
  destruct fuel as [|fuel]; [lia|]. cbn [chain_loop].
  assert (Hlast : last (rest ++ [current]) = Some current) by apply last_snoc.
  destruct (h !! current) as [parent|] eqn:E.
  2:{ exists [], current. rewrite app_nil_r. repeat split; auto. now left. }
  destruct (String.eqb_spec parent "") as [->|Hne].
  { exists [], current. rewrite app_nil_r. repeat split; auto. right. now left. }
  destruct (bool_decide (parent ∈ rest ++ [current])) eqn:Ep.
  { apply bool_decide_eq_true in Ep.
    exists [], current. rewrite app_nil_r. repeat split; auto. right. right. eauto. }
  apply bool_decide_eq_false in Ep.
  destruct (IH (rest ++ [current]) parent fuel) as (more & z & Hr & Hz & Hnd' & Hl' & Hs).
  - assert (Hc : current ∈ dom h) by (apply elem_of_dom; eauto).
    assert (Hout : current ∉ (list_to_set rest : gset string)).
    { rewrite elem_of_list_to_set. apply NoDup_app in Hnd as (_ & Hd & _).
      intros Hin. apply (Hd _ Hin). left. }
    pose proof (size_difference_shrinks _ _ _ Hc Hout) as Hlt.
    assert (Eq : (list_to_set (rest ++ [current]) : gset string) =
                 {[current]} ∪ list_to_set rest).
    { rewrite list_to_set_app_L. simpl. set_solver. }
    rewrite Eq. lia.
  - lia.
  - apply NoDup_app. split; [exact Hnd|]. split; [|apply NoDup_singleton].
    intros x Hx Hx'. apply list_elem_of_singleton in Hx'. subst x. contradiction.
  - intros x Hx. apply elem_of_app in Hx as [Hx|Hx]; [auto|].
    apply list_elem_of_singleton in Hx. subst x. apply elem_of_dom; eauto.
  - now apply linked_snoc.
  - exists ([parent] ++ more), z. rewrite Hr at 1. rewrite <- app_assoc.
    repeat split; auto.
Qed.

End ChainFacts.

Import Shapes ChainFacts.

(** X8.  The chain of [get_inheritance_chain] runs from root to leaf and
    ends with the name asked for; it has no repeats; every name after the
    first is preceded by its recorded parent; and the first name is one
    without a recorded parent, with an empty one, or whose parent is
    already in the chain (a cycle). *)
Theorem inheritance_chain_shape (class_name : string) (hierarchy : gmap string string) :
  let chain := get_inheritance_chain class_name hierarchy in
  last chain = Some class_name /\
  NoDup chain /\
  (forall a p x b, chain = a ++ p :: x :: b -> hierarchy !! x = Some p) /\
  (exists root rest,
     chain = root :: rest /\
     (hierarchy !! root = None \/ hierarchy !! root = Some "" \/
      exists p, hierarchy !! root = Some p /\ p ∈ chain)).
Proof.
  cbv zeta. unfold get_inheritance_chain.
  destruct (chain_loop_shape hierarchy (S (size hierarchy)) [] class_name
              (S (size hierarchy))) as (more & z & Hr & Hz & Hnd & Hl & Hs).
  - simpl. rewrite difference_empty_L, size_dom. lia.
  - lia.
  - apply NoDup_singleton.
  - intros x Hx. inversion Hx.
  - intros i x p Hx Hp. destruct i; inversion Hp.
  - set (r := chain_loop _ _ _ _) in *. cbn [app] in Hr.
    split; [|split; [|split]].
    + rewrite Hr. cbn [rev]. apply last_snoc.
    + apply NoDup_ListNoDup, NoDup_rev, NoDup_ListNoDup, Hnd.
    + intros a p x b E.
      assert (Er : r = rev b ++ x :: p :: rev a).
      { rewrite <- (rev_involutive r), E. rewrite rev_app_distr. cbn [rev].
        rewrite <- !app_assoc. reflexivity. }
      apply (Hl (length (rev b))); rewrite Er.
      * now apply list_lookup_middle.
      * change (rev b ++ x :: p :: rev a) with (rev b ++ [x] ++ p :: rev a).
        rewrite app_assoc. apply list_lookup_middle.
        rewrite length_app. simpl. lia.
    + destruct (rev r) as [|root rest] eqn:Erev.
      { apply (f_equal (@rev string)) in Erev. rewrite rev_involutive in Erev.
        rewrite Erev in Hr. discriminate. }
      exists root, rest. split; [reflexivity|].
      assert (Ez : z = root).
      { assert (Er : r = rev rest ++ [root]).
        { rewrite <- (rev_involutive r), Erev. reflexivity. }
        rewrite Er, last_snoc in Hz. congruence. }
      subst z. destruct Hs as [Hs|[Hs|(p & Hp & Hin)]]; auto.
      right. right. exists p. split; [exact Hp|].
      rewrite <- Erev. apply list_elem_of_In, in_rev. rewrite rev_involutive.
      now apply list_elem_of_In.
Qed.

Module ClassifyFacts.
Import PyStr Re PySort GenerateSchema StrFacts ReFacts ListFacts ExtractFacts.

(** [rstrip] leaves everything up to a character it does not strip. *)
Lemma rstrip_app_keep (chars a b : string) (c : ascii) :
  char_in c chars = false ->
  rstrip chars (a +:+ String c b) = a +:+ String c (rstrip chars b).
Proof.
  intros Hc. induction a as [|x a IH]; cbn [String.append rstrip].
  - destruct (rstrip chars b); [now rewrite Hc|reflexivity].
  - rewrite IH. destruct a; reflexivity.
Qed.

(** The list pattern on a [List<T>] type, whatever follows. *)
Lemma match_at_list (T rest : string) :
  T <> "" -> all_chars is_word T = true ->
  exists m, match_at list_pattern 0 ("List<" +:+ T +:+ String ">" rest) = Some m /\
            group 1 m = T.
Proof.
  intros Hne Hw. unfold match_at, list_pattern. cbn [cat].
  cbn [exec]. rewrite (exec_lit "List<").
  eexists. split.
  - apply exec_plus_cls; [exact Hne|exact Hw| |reflexivity].
    cbn [exec]. rewrite Ascii.eqb_refl. reflexivity.
  - unfold group. cbn [m_groups lookup_group Nat.eqb default].
    apply (consumed_app T (String ">" rest)).
Qed.

Lemma not_word_not_in (X : gset string) (s : string) :
  (forall n, n ∈ X -> all_chars is_word n = true) ->
  all_chars is_word s = false -> bool_decide (s ∈ X) = false.
Proof.
  intros HX Hs. apply bool_decide_eq_false. intros Hin.
  rewrite (HX _ Hin) in Hs. discriminate.
Qed.

End ClassifyFacts.

Import ClassifyFacts.

(** X9.  The classifier answers one of nine categories; it names an element
    type exactly for a [collection]; and it answers [enum] or [struct]
    only when the type, without trailing brackets, is a known enum or
    struct. *)
Theorem classify_field_answers (field_type : string)
    (known_enums known_structs known_templates : gset string) :
  let '(category, element_type) :=
    classify_field field_type known_enums known_structs known_templates in
  category ∈ ["primitive"; "string"; "enum"; "struct"; "localization";
              "unity_asset"; "collection"; "reference"; "unknown"] /\
  (is_Some element_type <-> category = "collection") /\
  (category = "enum" -> rstrip "[]" field_type ∈ known_enums) /\
  (category = "struct" -> rstrip "[]" field_type ∈ known_structs).
Proof.
  unfold classify_field.
  repeat match goal with
         | |- context [if ?b then _ else _] => destruct b eqn:?
         | |- context [match match_at ?r ?p ?s with _ => _ end] =>
             destruct (match_at r p s) eqn:?
         end;
    (split; [solve [repeat (first [left | right])]|]);
    (split; [split; [intros [x Hx]; first [discriminate Hx|reflexivity]
                    |intros Hc; first [discriminate Hc|eauto]]|]);
    split; intros Hc; try discriminate Hc;
    match goal with
    | H : bool_decide _ = true |- _ => apply bool_decide_eq_true in H; exact H
    end.
Qed.

(** X10.  A type that starts with [List<T>], [T] a non-empty run of word
    characters, is a [collection] with element type [T] whatever the known
    names are, as long as these are made of word characters. *)
Theorem list_type_is_collection (T rest : string)
    (known_enums known_structs known_templates : gset string) :
  T <> "" -> all_chars is_word T = true ->
  (forall n, n ∈ known_enums -> all_chars is_word n = true) ->
  (forall n, n ∈ known_structs -> all_chars is_word n = true) ->
  classify_field ("List<" +:+ T +:+ String ">" rest)
    known_enums known_structs known_templates = ("collection", Some T).
Proof.
  intros Hne Hw He Hs. unfold classify_field.
  destruct (match_at_list T rest Hne Hw) as (m & -> & ->).
  set (base := rstrip "[]" _).
  assert (Hb : base = "List<" +:+ T +:+ String ">" (rstrip "[]" rest)).
  { unfold base. rewrite <- !str_app_assoc.
    rewrite (rstrip_app_keep "[]" ("List<" +:+ T) rest ">") by reflexivity.
    reflexivity. }
  assert (Hnw : all_chars is_word base = false) by (rewrite Hb; reflexivity).
  assert (Hset : forall X : gset string,
            (forall n, n ∈ X -> all_chars is_word n = true) -> bool_decide (base ∈ X) = false).
  { intros X HX. now apply not_word_not_in. }
  rewrite (Hset PRIMITIVE_TYPES), (Hset known_enums), (Hset known_structs),
    (Hset LOCALIZATION_TYPES), (Hset UNITY_ASSET_TYPES); auto;
    try (intros n Hn; unfold PRIMITIVE_TYPES, LOCALIZATION_TYPES, UNITY_ASSET_TYPES in Hn;
         rewrite !elem_of_union, !elem_of_singleton in Hn;
         repeat destruct Hn as [Hn|Hn]; subst n; reflexivity).
  assert (E1 : String.eqb base "string" = false)
    by (apply String.eqb_neq; intros E; rewrite E in Hnw; discriminate).
  assert (E2 : String.eqb base "String" = false)
    by (apply String.eqb_neq; intros E; rewrite E in Hnw; discriminate).
  rewrite E1, E2. reflexivity.
Qed.

Lemma list_type_is_collection_witness :
  classify_field "List<int>[]" {[ "WeaponType" ]} {[ "DamageInfo" ]} ∅ =
    ("collection", Some "int").
Proof.
  apply (list_type_is_collection "int" "[]").
  - discriminate.
  - reflexivity.
  - intros n Hn. apply elem_of_singleton in Hn. subst n. reflexivity.
  - intros n Hn. apply elem_of_singleton in Hn. subst n. reflexivity.
Defined.

Module EnumFacts.
Import PyStr Re PySort GenerateSchema StrFacts ReFacts ListFacts SchemaFacts ExtractFacts.

(** The groups of a match of an enum or struct declaration. *)
Lemma decl_pattern_name (kw content : string) (m : rmatch) :
  match_of (decl_pattern kw) content m ->
  group 1 m <> "" /\ all_chars is_word (group 1 m) = true.
Proof.
  intros (pre & s0 & s' & _ & H & _ & _).
  unfold decl_pattern, body_tail in H. cbn [cat] in H.
  destruct H as (s1 & g1 & H1 & H). apply sem_lit in H1 as [_ ->].
  destruct H as (s2 & g2 & H2 & H).
  apply sem_grp in H2 as (name & g2' & E2 & H2 & ->).
  apply sem_plus_cls in H2 as (name' & Hn & Hne & Hw & ->).
  rewrite E2 in Hn. apply str_app_inv_tail in Hn. subst name'.
  destruct H as (s3 & g3 & H3 & H). apply sem_star_cls in H3 as (_ & _ & _ & ->).
  destruct H as (s4 & g4 & [_ ->] & H).
  destruct H as (s5 & g5 & [_ ->] & H).
  destruct H as (s6 & g6 & [_ ->] & H).
  destruct H as (s7 & g7 & H7 & H).
  apply sem_grp in H7 as (body & g7' & _ & H7 & ->).
  apply sem_star_cls in H7 as (_ & _ & _ & ->).
  destruct H as (s8 & g8 & [_ ->] & [_ Hg]).
  unfold group. rewrite Hg. cbn. auto.
Qed.

Lemma value_pattern_name (body : string) (m : rmatch) :
  match_of value_pattern body m ->
  group 1 m <> "" /\ all_chars is_word (group 1 m) = true.
Proof.
  intros (pre & s0 & s' & _ & H & _ & _).
  unfold value_pattern in H. cbn [cat] in H.
  destruct H as (s1 & g1 & H1 & H). apply sem_lit in H1 as [_ ->].
  destruct H as (s2 & g2 & H2 & H). apply sem_plus_cls in H2 as (_ & _ & _ & _ & ->).
  destruct H as (s3 & g3 & [_ ->] & H).
  destruct H as (s4 & g4 & H4 & H).
  apply sem_grp in H4 as (name & g4' & E4 & H4 & ->).
  apply sem_plus_cls in H4 as (name' & Hn & Hne & Hw & ->).
  rewrite E4 in Hn. apply str_app_inv_tail in Hn. subst name'.
  destruct H as (s5 & g5 & H5 & H). apply sem_lit in H5 as [_ ->].
  destruct H as (s6 & g6 & H6 & H).
  apply sem_grp in H6 as (num & g6' & _ & H6 & ->).
  destruct H6 as (s7 & g7 & Hsign & Hdig).
  apply sem_plus_cls in Hdig as (_ & _ & _ & _ & ->).
  assert (g7 = [(1, name)]) as -> by (destruct Hsign as [[_ ->]|[_ ->]]; reflexivity).
  destruct H as [_ Hg]. unfold group. rewrite Hg. cbn. auto.
Qed.

(** The value names an enum body gives. *)
Lemma enum_values_dom (ms : list rmatch) :
  forall acc r, enum_values ms acc = Some r ->
    forall k, k ∈ dom r <-> k ∈ dom acc \/ exists m, m ∈ ms /\ group 1 m = k.
Proof.
  induction ms as [|m ms IH]; intros acc r H k; simpl in H.
  - injection H as <-. split; [auto|]. intros [H|(m & Hm & _)]; [exact H|inversion Hm].
  - destruct (int10 (group 2 m)) as [v|]; [|discriminate].
    rewrite (IH _ _ H k), dom_insert, elem_of_union, elem_of_singleton. split.
    + intros [[->|Hk]|(m' & Hm' & E)]; [right; exists m; split; [left|reflexivity]|now left|].
      right. exists m'. split; [now right|exact E].
    + intros [Hk|(m' & Hm' & E)]; [left; now right|].
      apply elem_of_cons in Hm' as [->|Hm']; [left; left; now symmetry|].
      right. eauto.
Qed.

Lemma parse_enum_decls_origin (ms : list rmatch) :
  forall enums r name e,
    parse_enum_decls ms enums = Some r -> r !! name = Some e ->
    enums !! name = Some e \/
    exists m, m ∈ ms /\ group 1 m = name /\
      enum_values (finditer value_pattern (group 2 m)) ∅ = Some (ed_values e) /\
      ed_values e <> ∅.
Proof.
  induction ms as [|m ms IH]; intros enums r name e H Hr; simpl in H.
  - injection H as <-. now left.
  - destruct (enum_values _ ∅) as [values|] eqn:Ev; [|discriminate].
    destruct (bool_decide (values = ∅)) eqn:Ee.
    + destruct (IH _ _ _ _ H Hr) as [Hin|(m' & Hm' & Hrest)]; [auto|].
      right. exists m'. split; [now right|exact Hrest].
    + apply bool_decide_eq_false in Ee.
      destruct (IH _ _ _ _ H Hr) as [Hin|(m' & Hm' & Hrest)].
      * destruct (decide (group 1 m = name)) as [E|E].
        -- rewrite E, lookup_insert_eq in Hin. injection Hin as <-.
           right. exists m. split; [left|]. auto.
        -- rewrite lookup_insert_ne in Hin by exact E. now left.
      * right. exists m'. split; [now right|exact Hrest].
Qed.

Lemma parse_enum_decls_none (ms : list rmatch) :
  forall enums r name,
    parse_enum_decls ms enums = Some r ->
    enums !! name = None ->
    (forall m, m ∈ ms -> group 1 m = name -> finditer value_pattern (group 2 m) = []) ->
    r !! name = None.
Proof.
  induction ms as [|m ms IH]; intros enums r name H Hn Hms; simpl in H.
  - now injection H as <-.
  - destruct (enum_values _ ∅) as [values|] eqn:Ev; [|discriminate].
    assert (Hrest : forall m', m' ∈ ms -> group 1 m' = name ->
              finditer value_pattern (group 2 m') = [])
      by (intros m' Hm'; apply Hms; now right).
    destruct (bool_decide (values = ∅)) eqn:Ee; [eapply IH; eauto|].
    apply bool_decide_eq_false in Ee.
    destruct (decide (group 1 m = name)) as [E|E].
    + rewrite (Hms m) in Ev by (auto; left). simpl in Ev. congruence.
    + eapply IH; eauto. now rewrite lookup_insert_ne.
Qed.

End EnumFacts.

Import EnumFacts.

(** X11.  [parse_all_enums] ends in the [ValueError] of [int] exactly when
    the dump has an enum constant of more than 4300 digits.  When it
    returns, every enum of its result has at least one value; the enum and
    its value names are non-empty runs of word characters; and a name whose
    declarations hold no constant is not in the result. *)
Theorem parsed_enums_have_values (content : string) :
  (parse_all_enums content = None <->
   exists m vm, m ∈ finditer enum_pattern content /\
     vm ∈ finditer value_pattern (group 2 m) /\
     (max_str_digits < Z.of_nat (String.length (digits_of (group 2 vm))))%Z) /\
  (forall enums, parse_all_enums content = Some enums ->
    (forall name e, enums !! name = Some e ->
       ed_values e <> ∅ /\
       name <> "" /\ all_chars is_word name = true /\
       (forall k, k ∈ dom (ed_values e) -> k <> "" /\ all_chars is_word k = true)) /\
    (forall name,
       (forall m, m ∈ finditer enum_pattern content -> group 1 m = name ->
                  finditer value_pattern (group 2 m) = []) ->
       enums !! name = None)).
Proof.
  unfold parse_all_enums. split; [apply parse_enum_decls_raises|].
  intros enums He. split.
  - intros name e Hl.
    destruct (parse_enum_decls_origin _ _ _ _ _ He Hl) as [H|(m & Hm & <- & Hv & Hne)];
      [rewrite lookup_empty in H; discriminate|].
    split; [exact Hne|].
    apply finditer_sound in Hm. destruct (decl_pattern_name _ _ _ Hm) as [H1 H2].
    split; [exact H1|]. split; [exact H2|].
    intros k Hk. apply (enum_values_dom _ _ _ Hv) in Hk as [Hk|(vm & Hvm & <-)].
    + rewrite dom_empty in Hk. now apply not_elem_of_empty in Hk.
    + apply finditer_sound in Hvm. eapply value_pattern_name; eauto.
  - intros name H. eapply parse_enum_decls_none; eauto.
Qed.

Lemma parsed_enums_have_values_witness :
  let dump :=
"public enum Mode // TypeDefIndex: 5
{
	// Fields
	public int value__; // 0x0
	public const Mode Off = 0;
	public const Mode On = -1;
}
public enum Hollow // TypeDefIndex: 6
{
	// Fields
	public int value__; // 0x0
}
" in
  parse_all_enums dump =
    Some {[ "Mode" := MkEnumDef "int" {[ "Off" := 0%Z; "On" := (-1)%Z ]} ]} /\
  forall name e,
    ({[ "Mode" := MkEnumDef "int" {[ "Off" := 0%Z; "On" := (-1)%Z ]} ]}
       : gmap string EnumDef) !! name = Some e ->
    ed_values e <> ∅.
Proof.
  intros dump.
  assert (Hv : parse_all_enums dump =
    Some {[ "Mode" := MkEnumDef "int" {[ "Off" := 0%Z; "On" := (-1)%Z ]} ]})
    by (vm_compute; reflexivity).
  split; [exact Hv|]. intros name e Hl.
  exact (proj1 (proj1 (proj2 (parsed_enums_have_values dump) _ Hv) name e Hl)).
Defined.

Module FieldFacts.
Import PyStr Re PySort GenerateSchema EmbeddedClasses.
Import StrFacts ReFacts ListFacts SchemaFacts WalkFacts ExtractFacts.

(** [p in s] holds when [p] stands somewhere in [s]. *)
Lemma contains_intro (p pre post : string) : contains p (pre +:+ p +:+ post) = true.
Proof.
  induction pre as [|c pre IH]; cbn [String.append].
  - destruct (p +:+ post) eqn:E; cbn [contains]; rewrite <- ?E;
      rewrite startswith_app; reflexivity.
  - cbn [contains]. rewrite IH. apply orb_true_r.
Qed.

Lemma class_pattern_occurrence (kw name content : string) (m : rmatch) :
  match_of (class_pattern kw name) content m ->
  contains (kw +:+ name) content = true.
Proof.
  intros (pre & s0 & s' & -> & H & _ & _).
  unfold class_pattern in H. cbn [cat] in H.
  destruct H as (s1 & g1 & H1 & H). apply sem_lit in H1 as [-> ->].
  destruct H as (s2 & g2 & H2 & H). apply sem_lit in H2 as [-> ->].
  rewrite <- (str_app_assoc kw name). apply contains_intro.
Qed.

(** A field kept by the class parser, by its parts. *)
Lemma class_field_shape (body : string) (f : RawField) :
  f ∈ class_fields_of (finditer field_pattern body) ->
  exists off v,
    rf_offset f = "0x" +:+ off /\ off <> "" /\ all_chars is_hex off = true /\
    off <> "0" /\ int16 (rf_offset f) = Some v /\
    rf_name f <> "" /\ all_chars is_word (rf_name f) = true /\
    startswith "NativeFieldInfoPtr" (rf_name f) = false /\
    startswith "Il2Cpp" (rf_name f) = false /\
    contains "k__BackingField" (rf_name f) = false /\
    rf_type f <> "" /\ all_chars is_type_char (rf_type f) = true.
Proof.
  intros H. apply class_fields_of_elem in H as (m & Hm & Hskip & ->).
  apply finditer_sound, field_pattern_groups in Hm
    as (ty & name & off & Hg & Ho1 & Ho2 & Hn1 & Hn2 & Ht1 & Ht2).
  apply group_of_groups3 in Hg as (E1 & E2 & E3).
  rewrite E1, E2, E3 in *. unfold class_field_skipped in Hskip.
  apply orb_false_iff in Hskip as [Hskip Hz].
  apply orb_false_iff in Hskip as [Hskip Hk].
  apply orb_false_iff in Hskip as [Hn Hi].
  apply String.eqb_neq in Hz.
  destruct (int16_hex off Ho1 Ho2) as [v Hv].
  exists off, v. cbn [rf_offset rf_name rf_type]. repeat split; auto.
Qed.

(** Every field of a walk is a field of one of the classes it parsed. *)
Lemma collect_rec_fields_origin (content : string) :
  forall fuel class_name visited fields visited' parsed,
    collect_all_fields_rec fuel content class_name visited
      = Some (fields, visited', parsed) ->
    forall f, f ∈ fields ->
      exists name info, name ∈ parsed /\
        parse_class_from_dump content name true = Some info /\ f ∈ ci_fields info.
Proof.
  induction fuel as [|fuel IH]; intros class_name visited fields visited' parsed H f Hf;
    cbn [collect_all_fields_rec] in H;
    destruct (decide (class_name ∈ visited));
    try (injection H as <- <- <-; inversion Hf);
    destruct (parse_class_from_dump content class_name true) as [info|] eqn:Ep;
    try (injection H as <- <- <-; inversion Hf).
  - destruct (ci_base info) as [base|].
    + destruct (negb _ && negb _); [discriminate|].
      injection H as <- <- <-. exists class_name, info. split; [left|auto].
    + injection H as <- <- <-. exists class_name, info. split; [left|auto].
  - destruct (ci_base info) as [base|].
    + destruct (negb _ && negb _).
      * destruct (collect_all_fields_rec fuel content base _)
          as [[[inherited v1] p1]|] eqn:Er; [|discriminate].
        injection H as <- <- <-. apply elem_of_app in Hf as [Hf|Hf].
        -- destruct (IH _ _ _ _ _ Er f Hf) as (name & info' & Hn & Hp & Hin).
           exists name, info'. split; [now right|auto].
        -- exists class_name, info. split; [left|auto].
      * injection H as <- <- <-. exists class_name, info. split; [left|auto].
    + injection H as <- <- <-. exists class_name, info. split; [left|auto].
Qed.

Lemma parse_class_fields (content name : string) (aa : bool) (info : ClassInfo) :
  parse_class_from_dump content name aa = Some info ->
  exists body, ci_fields info = class_fields_of (finditer field_pattern body).
Proof.
  unfold parse_class_from_dump.
  destruct (first_search _ content) as [m|]; [|discriminate].
  intros H. injection H as <-. eexists. reflexivity.
Qed.

(** The embedded filter is the class filter and the test on [Parent]. *)
Lemma embedded_fields_filter (ms : list rmatch) :
  embedded_fields_of ms = filter (fun f => rf_name f ≠ "Parent") (class_fields_of ms).
Proof.
  induction ms as [|m ms IH]; [reflexivity|].
  unfold embedded_fields_of, class_fields_of in *. cbn [flat_map].
  rewrite filter_app, <- IH. f_equal.
  unfold embedded_field_skipped, class_field_skipped.
  destruct (startswith "NativeFieldInfoPtr" (group 2 m)); [reflexivity|].
  destruct (startswith "Il2Cpp" (group 2 m)); [reflexivity|].
  destruct (contains "k__BackingField" (group 2 m)); [reflexivity|].
  cbn [orb].
  destruct (String.eqb_spec (group 2 m) "Parent") as [E|E];
    destruct (String.eqb (group 3 m) "0"); cbn [orb]; try reflexivity.
  - rewrite filter_cons_False; [reflexivity|]. cbn [rf_name]. intros H. now apply H.
  - rewrite filter_cons_True; [reflexivity|]. exact E.
Qed.

End FieldFacts.

Import EmbeddedClasses MoreFixtures FieldFacts.

(** X12.  In a built schema every field of every template has an offset
    [0x] followed by hex digits that are not the single digit [0], which
    [int] reads in base 16; its name is a non-empty run of word characters
    that is none of the generated names the parser skips; and its
    category and element type are those the classifier gives its type. *)
Theorem schema_fields_wellformed (content : string) (schema : Schema)
    (T : string) (t : Template) (f : FieldDef) :
  build_schema content = Some schema ->
  s_templates schema !! T = Some t ->
  f ∈ t_fields t ->
  (exists off v,
     fd_offset f = "0x" +:+ off /\ off <> "" /\ all_chars is_hex off = true /\
     off <> "0" /\ int16 (fd_offset f) = Some v) /\
  fd_name f <> "" /\ all_chars is_word (fd_name f) = true /\
  startswith "NativeFieldInfoPtr" (fd_name f) = false /\
  startswith "Il2Cpp" (fd_name f) = false /\
  contains "k__BackingField" (fd_name f) = false /\
  fd_category f =
    (classify_field (fd_type f) (dom (s_enums schema)) (dom (s_structs schema))
       (list_to_set (parse_all_templates content))).1.
Proof.
  unfold build_schema. intros Hb HT Hf.
  destruct (parse_all_enums content) as [enums|]; [|discriminate].
  destruct (parse_all_structs content) as [structs|]; [|discriminate].
  simpl in Hb. injection Hb as <-. cbn [s_templates s_enums s_structs] in *.
  unfold build_templates in HT.
  apply build_templates_lookup in HT as [HT|(_ & info & Hp & ->)];
    [rewrite lookup_empty in HT; discriminate|].
  cbn [t_fields] in Hf. apply list_elem_of_fmap in Hf as (rf & -> & Hrf).
  unfold collect_all_fields in Hrf.
  destruct (collect_all_fields_run content T) as [[[fields visited] parsed]|] eqn:Er;
    [|inversion Hrf].
  destruct (collect_rec_fields_origin _ _ _ _ _ _ _ Er rf Hrf) as (name & info' & _ & Hp' & Hin).
  destruct (parse_class_fields _ _ _ _ Hp') as [body Hbody]. rewrite Hbody in Hin.
  apply class_field_shape in Hin
    as (off & v & H1 & H2 & H3 & H4 & H5 & H6 & H7 & H8 & H9 & H10 & _).
  unfold classify_entry.
  destruct (classify_field (rf_type rf) _ _ _) as [category element_type] eqn:Ec.
  cbn [fd_offset fd_name fd_type fd_category]. rewrite Ec.
  split; [exists off, v; auto|]. auto 10.
Qed.

Lemma schema_fields_wellformed_witness :
  fd_name (MkFieldDef "B" "int" "0x20" "primitive" None) <> "".
Proof.
  assert (Hv : build_schema base_child_dump = Some base_child_schema)
    by (vm_compute; reflexivity).
  apply (schema_fields_wellformed base_child_dump base_child_schema "ChildTemplate"
           (MkTemplate (Some "BaseTemplate") false
              [MkFieldDef "A" "int" "0x10" "primitive" None;
               MkFieldDef "B" "int" "0x20" "primitive" None])).
  - exact Hv.
  - vm_compute. reflexivity.
  - right. left.
Defined.

(** X13.  A class name that stands in the dump after neither
    [public class ] nor [public abstract class ] has no class info; its
    walk parses that one name and collects no field. *)
Theorem undeclared_class_has_no_fields (content class_name : string) (allow_abstract : bool) :
  contains ("public class " +:+ class_name) content = false ->
  contains ("public abstract class " +:+ class_name) content = false ->
  parse_class_from_dump content class_name allow_abstract = None /\
  collect_all_fields content class_name = [] /\
  walk_names content class_name = [class_name].
Proof.
  intros H1 H2.
  assert (Hp : forall aa, parse_class_from_dump content class_name aa = None).
  { intros aa. unfold parse_class_from_dump.
    destruct (first_search _ content) as [m|] eqn:E; [|reflexivity].
    apply first_search_sound in E as (p & Hp & Hm).
    apply elem_of_cons in Hp as [->|Hp].
    - apply class_pattern_occurrence in Hm. congruence.
    - apply list_elem_of_singleton in Hp. subst p.
      apply class_pattern_occurrence in Hm. congruence. }
  split; [apply Hp|].
  unfold collect_all_fields, walk_names, collect_all_fields_run, walk_fuel.
  cbn [collect_all_fields_rec].
  destruct (decide (class_name ∈ (∅ : gset string))) as [Hin|_];
    [now apply not_elem_of_empty in Hin|].
  rewrite Hp. auto.
Qed.

Lemma undeclared_class_has_no_fields_witness :
  collect_all_fields point_dump "Widget" = [].
Proof.
  apply (undeclared_class_has_no_fields point_dump "Widget" true); reflexivity.
Defined.

(** X14.  When [parse_embedded_class] returns, its fields are those the
    class parser gives the same name without the ones named [Parent]: at
    least one field, none at offset [0x0]; and a base it records is the
    base the class parser records. *)
Theorem embedded_class_is_class_without_parent (content class_name : string)
    (e : EmbeddedInfo) :
  parse_embedded_class content class_name = Some e ->
  ei_name e = class_name /\
  ei_fields e <> [] /\
  (forall f, f ∈ ei_fields e -> rf_name f <> "Parent" /\ rf_offset f <> "0x0") /\
  exists info,
    parse_class_from_dump content class_name true = Some info /\
    ei_fields e = filter (fun f => rf_name f ≠ "Parent") (ci_fields info) /\
    (forall b, ei_base e = Some b -> ci_base info = Some b).
Proof.
  unfold parse_embedded_class, parse_class_from_dump. cbn [first_search].
  destruct (search (class_pattern "public class " class_name) content) as [m|];
    [|discriminate].
  destruct (embedded_fields_of _) as [|f0 fs] eqn:Ef; [discriminate|].
  intros H. injection H as <-. cbn [ei_name ei_fields ei_base].
  split; [reflexivity|]. split; [discriminate|].
  rewrite <- Ef, embedded_fields_filter. split.
  - intros f Hf. apply list_elem_of_filter in Hf as [Hn Hf]. split; [exact Hn|].
    apply class_fields_of_elem in Hf as (fm & _ & Hskip & ->).
    unfold class_field_skipped in Hskip. apply orb_false_iff in Hskip as [_ Hz].
    apply String.eqb_neq in Hz. cbn [rf_offset]. intros E. injection E as E. contradiction.
  - eexists. split; [reflexivity|]. cbn [ci_fields ci_base]. split; [reflexivity|].
    intros b Hb. destruct (search (base_pattern "public class " class_name) content);
      [exact Hb|discriminate].
Qed.

Lemma embedded_class_is_class_without_parent_witness :
  parse_embedded_class perk_dump "Perk" =
    Some (MkEmbeddedInfo "Perk" (Some "Object")
            [MkRawField "int" "Cost" "0x18"; MkRawField "List<Perk>" "Next" "0x20"]) /\
  [MkRawField "int" "Cost" "0x18"; MkRawField "List<Perk>" "Next" "0x20"] <> [].
Proof.
  assert (Hv : parse_embedded_class perk_dump "Perk" =
    Some (MkEmbeddedInfo "Perk" (Some "Object")
            [MkRawField "int" "Cost" "0x18"; MkRawField "List<Perk>" "Next" "0x20"]))
    by (vm_compute; reflexivity).
  split; [exact Hv|].
  apply (embedded_class_is_class_without_parent perk_dump "Perk" _ Hv).
Defined.

(** ** The other thresholds of the validator *)

Module ThresholdFacts.
Import Float64 FloatFacts.
#[local] Open Scope Z_scope.

Lemma eq_int_spec (m p c : Z) :
  0 <= p -> eq_int (MkFloat m (- p)) c = (c * 2 ^ p =? m).
Proof.
  intros Hp. unfold eq_int, to_ratio. cbn [f_exp f_mant].
  destruct (0 <=? - p) eqn:E.
  - apply Z.leb_le in E. assert (p = 0) by lia. subst p. simpl.
    f_equal; lia.
  - now replace (- - p) with p by lia.
Qed.

(** A power of two strictly between two others, two apart. *)
Lemma pow2_pinned (a p : Z) :
  0 <= a -> 2 ^ a < 2 ^ p < 2 ^ (a + 2) -> 2 ^ p = 2 ^ (a + 1).
Proof.
  intros Ha [H1 H2]. f_equal.
  assert (0 <= p).
  { destruct (Z.lt_ge_cases p 0) as [Hn|]; [|assumption].
    rewrite (Z.pow_neg_r 2 p Hn) in H1. pose proof (pow2_pos a Ha). lia. }
  apply Z.pow_lt_mono_r_iff in H1; [|lia|lia].
  apply Z.pow_lt_mono_r_iff in H2; lia.
Qed.

(** The two roundings of [K / N * 100], as inequalities on integers. *)
Lemma percent_spec (K N : Z) :
  0 < K <= N ->
  exists m1 P1 m2 p2,
    mul_int (div_int K N) 100 = MkFloat m2 (- p2) /\ 0 <= p2 /\
    (exists p1, 52 <= p1 /\ P1 = 2 ^ p1) /\
    2 ^ 52 * N <= K * P1 < 2 ^ 53 * N /\
    2 * (K * P1) - N <= 2 * (m1 * N) <= 2 * (K * P1) + N /\
    2 ^ 52 * P1 <= 100 * m1 * 2 ^ p2 < 2 ^ 53 * P1 /\
    2 * (100 * m1 * 2 ^ p2) - P1 <= 2 * (m2 * P1) <= 2 * (100 * m1 * 2 ^ p2) + P1.
Proof.
  intros HK.
  destruct (div_int_spec K N HK) as (m1 & p1 & -> & Hp1 & H1 & H2).
  pose proof (mant_bounds K N m1 (2 ^ p1) ltac:(lia) H1 H2) as Hm1.
  destruct (mul_100_spec m1 p1 Hp1 Hm1) as (m2 & p2 & -> & Hp2 & H3 & H4).
  exists m1, (2 ^ p1), m2, p2. repeat split; eauto; lia.
Qed.

(** The float test [pct >= c] never holds below the exact threshold. *)
Lemma percent_ge_sound (c K N : Z) :
  1 <= c <= 100 -> 0 < K <= N -> N < 2 ^ 40 ->
  ge_int (mul_int (div_int K N) 100) c = true -> c * N <= 100 * K.
Proof.
  intros Hc HK HN.
  destruct (percent_spec K N HK) as (m1 & P1 & m2 & p2 & -> & Hp2 & (p1 & Hp1 & EP1) & H1 & H2 & H3 & H4).
  rewrite ge_int_spec by exact Hp2. rewrite Z.leb_le. intros H5.
  pose proof (pow2_pos p2 Hp2) as HP2.
  assert (HP1 : 2 ^ 52 <= P1) by (subst P1; apply Z.pow_le_mono_r; lia).
  set (P2 := 2 ^ p2) in *.
  destruct (Z.le_gt_cases (c * N) (100 * K)) as [|H6]; [assumption|]. exfalso.
  assert (Ha : 2 ^ 53 * (m1 * N) <= (2 ^ 53 + 1) * (K * P1)) by nia.
  assert (Hb : c * 2 ^ 53 * P1 <= 100 * (2 ^ 53 + 1) * m1).
  { assert (Hb1 : 2 * (c * P2 * P1) <= 2 * (m2 * P1)) by nia.
    assert (Hb' : (c * 2 ^ 53 * P1) * P2 <= (100 * (2 ^ 53 + 1) * m1) * P2) by nia.
    apply Z.mul_le_mono_pos_r in Hb'; assumption. }
  assert (Hd : c * 2 ^ 53 * 2 ^ 53 * N <= 100 * (2 ^ 53 + 1) * (2 ^ 53 + 1) * K).
  { assert (Hd' : (c * 2 ^ 53 * 2 ^ 53 * N) * P1
                  <= (100 * (2 ^ 53 + 1) * (2 ^ 53 + 1) * K) * P1).
    { transitivity (100 * (2 ^ 53 + 1) * (2 ^ 53 * (m1 * N))).
      - assert (0 <= 2 ^ 53 * N) by lia.
        replace (c * 2 ^ 53 * 2 ^ 53 * N * P1)
          with ((c * 2 ^ 53 * P1) * (2 ^ 53 * N)) by ring.
        replace (100 * (2 ^ 53 + 1) * (2 ^ 53 * (m1 * N)))
          with ((100 * (2 ^ 53 + 1) * m1) * (2 ^ 53 * N)) by ring.
        apply Z.mul_le_mono_nonneg_r; assumption.
      - replace (100 * (2 ^ 53 + 1) * (2 ^ 53 + 1) * K * P1)
          with (100 * (2 ^ 53 + 1) * ((2 ^ 53 + 1) * (K * P1))) by ring.
        apply Z.mul_le_mono_nonneg_l; [lia|assumption]. }
    apply Z.mul_le_mono_pos_r in Hd'; [assumption|lia]. }
  assert (He : 2 ^ 53 * 2 ^ 53 * (100 * K + 1) <= 2 ^ 53 * 2 ^ 53 * (c * N)) by nia.
  lia.
Qed.

(** Strictly above the threshold the float test holds. *)
Lemma percent_ge_strict (c K N : Z) :
  1 <= c <= 100 -> 0 < K <= N -> N < 2 ^ 40 ->
  c * N < 100 * K ->
  ge_int (mul_int (div_int K N) 100) c = true.
Proof.
  intros Hc HK HN H6.
  destruct (percent_spec K N HK) as (m1 & P1 & m2 & p2 & -> & Hp2 & (p1 & Hp1 & EP1) & H1 & H2 & H3 & H4).
  rewrite ge_int_spec by exact Hp2. rewrite Z.leb_le.
  pose proof (pow2_pos p2 Hp2) as HP2.
  assert (HP1 : 2 ^ 52 <= P1) by (subst P1; apply Z.pow_le_mono_r; lia).
  set (P2 := 2 ^ p2) in *.
  destruct (Z.le_gt_cases (c * P2) m2) as [|H7]; [assumption|]. exfalso.
  assert (Ha : 200 * (m1 * N) * P2 <= (2 * (c * N) * P1) * P2 - P1 * N).
  { assert (Ha1 : 2 * (m2 * P1) <= 2 * (c * P2 * P1) - 2 * P1) by nia.
    assert (Ha2 : 200 * m1 * P2 <= 2 * (c * P2 * P1) - P1) by lia.
    assert (Ha3 : (200 * m1 * P2) * N <= (2 * (c * P2 * P1) - P1) * N)
      by (apply Z.mul_le_mono_nonneg_r; lia).
    lia. }
  assert (Hb : (2 * (c * N) * P1 + 2 * P1 - 100 * N) * P2 <= 200 * (m1 * N) * P2).
  { apply Z.mul_le_mono_nonneg_r; [lia|].
    assert (100 * (K * P1) >= (c * N + 1) * P1) by nia. lia. }
  assert (Hd : (2 * P1 - 100 * N) * P2 <= - (P1 * N)) by lia.
  assert (0 < (2 * P1 - 100 * N) * P2) by (apply Z.mul_pos_pos; lia).
  nia.
Qed.

(** The quotient is exact at the thresholds the validator tests. *)
Ltac pin_thresholds K N :=
  destruct (percent_spec K N ltac:(lia))
    as (m1 & P1 & m2 & p2 & -> & Hp2 & (p1 & Hp1 & EP1) & H1 & H2 & H3 & H4).

Lemma percent_at_50 (K N : Z) :
  0 < K -> N = 2 * K ->
  ge_int (mul_int (div_int K N) 100) 50 = true.
Proof.
  intros HK ->. pin_thresholds K (2 * K).
  rewrite ge_int_spec by exact Hp2. rewrite Z.leb_le.
  assert (E1 : P1 = 2 ^ 53).
  { subst P1. apply (pow2_pinned 52); [lia|]. split; [nia|].
    assert (2 ^ p1 < 2 ^ 54) by nia. exact H. }
  subst P1. rewrite E1 in *. clear E1.
  assert (Em : m1 = 2 ^ 52) by nia. subst m1.
  assert (E2 : 2 ^ p2 = 2 ^ 47).
  { apply (pow2_pinned 46); [lia|]. split; lia. }
  rewrite E2 in *. lia.
Qed.

Lemma percent_at_60 (K N : Z) :
  0 < K -> 3 * N = 5 * K ->
  ge_int (mul_int (div_int K N) 100) 60 = true.
Proof.
  intros HK HN. pin_thresholds K N.
  rewrite ge_int_spec by exact Hp2. rewrite Z.leb_le.
  assert (E1 : P1 = 2 ^ 53).
  { subst P1. apply (pow2_pinned 52); [lia|]. split; nia. }
  subst P1. rewrite E1 in *. clear E1.
  assert (Em : m1 = 5404319552844595) by nia. subst m1.
  assert (E2 : 2 ^ p2 = 2 ^ 47).
  { apply (pow2_pinned 46); [lia|]. split; lia. }
  rewrite E2 in *. lia.
Qed.

Lemma percent_at_90 (K N : Z) :
  0 < K -> 9 * N = 10 * K ->
  ge_int (mul_int (div_int K N) 100) 90 = true.
Proof.
  intros HK HN. pin_thresholds K N.
  rewrite ge_int_spec by exact Hp2. rewrite Z.leb_le.
  assert (E1 : P1 = 2 ^ 53).
  { subst P1. apply (pow2_pinned 52); [lia|]. split; nia. }
  subst P1. rewrite E1 in *. clear E1.
  assert (Em : m1 = 8106479329266893) by nia. subst m1.
  assert (E2 : 2 ^ p2 = 2 ^ 46).
  { apply (pow2_pinned 45); [lia|]. split; lia. }
  rewrite E2 in *. lia.
Qed.

Lemma percent_at_100 (K : Z) :
  0 < K -> eq_int (mul_int (div_int K K) 100) 100 = true.
Proof.
  intros HK. pin_thresholds K K.
  rewrite eq_int_spec by exact Hp2. rewrite Z.eqb_eq.
  assert (E1 : P1 = 2 ^ 52).
  { subst P1. apply (pow2_pinned 51); [lia|]. split; nia. }
  subst P1. rewrite E1 in *. clear E1.
  assert (Em : m1 = 2 ^ 52) by nia. subst m1.
  assert (E2 : 2 ^ p2 = 2 ^ 46).
  { apply (pow2_pinned 45); [lia|]. split; lia. }
  rewrite E2 in *. lia.
Qed.

End ThresholdFacts.

Module VerdictFacts.
Import PyStr PySort GenerateSchema Float64 ValidateExtraction.
Import ListFacts FloatFacts ThresholdFacts ValidateFacts.

Lemma percent_zero (N : nat) (c : Z) :
  (0 < c)%Z -> ge_int (percent 0 N) c = false /\ eq_int (percent 0 N) c = false.
Proof.
  intros Hc. assert (E : percent 0 N = MkFloat 0 0) by reflexivity.
  rewrite E. unfold ge_int, eq_int, to_ratio. cbn [f_exp f_mant Z.leb Z.compare].
  rewrite Z.mul_1_r. change (0 * 2 ^ 0)%Z with 0%Z. split.
  - apply Z.leb_gt. lia.
  - apply Z.eqb_neq. lia.
Qed.

(** The float tests of the validator decide the exact fractions, for
    counts below [2 ^ 40]. *)
Lemma percent_ge_nat (c K N : nat) :
  (c = 50 \/ c = 60 \/ c = 90)%nat ->
  (K <= N)%nat -> (0 < N)%nat -> (Z.of_nat N < 2 ^ 40)%Z ->
  ge_int (percent K N) (Z.of_nat c) = true <-> (c * N <= 100 * K)%nat.
Proof.
  intros Hc HK HN Hb. destruct K as [|K].
  - destruct (percent_zero N (Z.of_nat c)) as [-> _]; [lia|]. split; [discriminate|lia].
  - unfold percent. split.
    + intros H. apply percent_ge_sound in H; lia.
    + intros H. destruct (Nat.eq_dec (c * N) (100 * S K)) as [E|E].
      * destruct Hc as [->|[->| ->]].
        -- apply percent_at_50; lia.
        -- apply percent_at_60; lia.
        -- apply percent_at_90; lia.
      * apply percent_ge_strict; lia.
Qed.

Lemma percent_eq_100_nat (K N : nat) :
  (K <= N)%nat -> (0 < N)%nat -> (Z.of_nat N < 2 ^ 40)%Z ->
  eq_int (percent K N) 100 = true <-> K = N.
Proof.
  intros HK HN Hb. destruct K as [|K].
  - destruct (percent_zero N 100) as [_ ->]; [lia|]. split; [discriminate|lia].
  - unfold percent. split.
    + intros H.
      assert (Hge : ge_int (mul_int (div_int (Z.of_nat (S K)) (Z.of_nat N)) 100) 100 = true).
      { unfold eq_int, ge_int in *. destruct (to_ratio _) as [a b].
        apply Z.eqb_eq in H. apply Z.leb_le. lia. }
      apply percent_ge_sound in Hge; lia.
    + intros <-. apply percent_at_100. lia.
Qed.

Lemma count_named_le (instances : list json) (named : nat) :
  count_named instances = Ok named -> named <= length instances.
Proof.
  revert named. induction instances as [|inst rest IH]; intros named H; simpl in H.
  - injection H as <-. reflexivity.
  - destruct (is_named inst) as [b|e]; [|discriminate]. simpl in H.
    destruct (count_named rest) as [n|e]; [|discriminate]. simpl in H.
    injection H as <-. specialize (IH n eq_refl). simpl. destruct b; simpl; lia.
Qed.

End VerdictFacts.

Import ThresholdFacts VerdictFacts.

(** X15.  For a template whose file holds a non-empty list, when counting
    the named instances meets no exception: the instance check gives one
    line with the count, and its level is [PASS] iff every instance is
    named, [WARN] iff at least half but not all are, and [FAIL] iff fewer
    than half are. *)
Theorem instance_names_verdict (dir : gmap string load) (tname : string)
    (instances : list json) (named : nat) :
  dir !! json_path tname = Some (Loaded (JList instances)) ->
  instances <> [] ->
  count_named instances = Ok named ->
  (Z.of_nat (length instances) < 2 ^ 40)%Z ->
  let total := length instances in
  exists level,
    instance_names_of dir tname =
      Ok [(level, tname +:+ ": " +:+ pretty named +:+ "/" +:+ pretty total +:+
                  " named (" +:+ format_0f (percent named total) +:+ "%)")] /\
    named <= total /\
    (level = "PASS" <-> named = total) /\
    (level = "WARN" <-> total <= 2 * named /\ named < total) /\
    (level = "FAIL" <-> 2 * named < total).
Proof.
  intros Hd Hne Hc Hb total.
  pose proof (count_named_le _ _ Hc) as Hle. fold total in Hle.
  assert (Hpos : 0 < total) by (unfold total; destruct instances; [congruence|simpl; lia]).
  unfold instance_names_of. rewrite Hd. fold total.
  destruct (Nat.eqb_spec total 0) as [E|_]; [lia|].
  rewrite Hc. cbn [mbind result_bind].
  pose proof (percent_eq_100_nat named total Hle Hpos Hb) as H100.
  pose proof (percent_ge_nat 50 named total ltac:(auto) Hle Hpos Hb) as H50.
  change (Z.of_nat 50) with 50%Z in H50.
  destruct (eq_int (percent named total) 100).
  - exists "PASS". split; [reflexivity|]. split; [exact Hle|].
    assert (named = total) by now apply H100.
    repeat split; try discriminate; try lia; auto.
  - assert (named <> total) by (intros E; apply H100 in E; discriminate).
    destruct (ge_int (percent named total) 50).
    + exists "WARN". split; [reflexivity|]. split; [exact Hle|].
      assert (50 * total <= 100 * named) by now apply H50.
      repeat split; try discriminate; try lia; auto.
    + exists "FAIL". split; [reflexivity|]. split; [exact Hle|].
      assert (~ 50 * total <= 100 * named) by (intros E; apply H50 in E; discriminate).
      repeat split; try discriminate; try lia; auto.
Qed.

Lemma instance_names_verdict_witness :
  instance_names_of validation_dir "ATemplate" =
    Ok [("WARN", "ATemplate: 1/2 named (50%)")].
Proof.
  destruct (instance_names_verdict validation_dir "ATemplate"
              [JDict [("name", JStr "rifle"); ("Damage", JInt 12)];
               JDict [("name", JStr "unknown_1")]] 1)
    as (level & -> & _ & _ & Hw & _).
  - vm_compute. reflexivity.
  - discriminate.
  - vm_compute. reflexivity.
  - vm_compute. reflexivity.
  - assert (E : level = "WARN") by (apply Hw; simpl; lia). rewrite E.
    vm_compute. reflexivity.
Defined.

(** X16.  For a template of the schema with at least one simple field,
    whose file holds a list with a sample instance: the field check gives
    one line with the number of simple fields the sample has; its level is
    [PASS] iff at least nine tenths are present, [WARN] iff at least six
    tenths but fewer than nine, and [FAIL] below; under the line stand the
    first five missing names in order, and none on a [PASS]. *)
Theorem field_coverage_verdict (schema : Schema) (dir : gmap string load)
    (tname : string) (tinfo : Template) (instances : list json)
    (sample : list (string * json)) :
  s_templates schema !! tname = Some tinfo ->
  dir !! json_path tname = Some (Loaded (JList instances)) ->
  pick_sample instances = Some sample ->
  let simple := filter (fun f => complex_category (fd_category f) = false) (t_fields tinfo) in
  let expected : gset string := list_to_set (map fd_name simple) in
  let json_keys := dict_keys sample ∖ {[ "name"; "_template_type" ]} in
  let total := size expected in
  let found := size (expected ∩ json_keys) in
  let skipped := length (t_fields tinfo) - length simple in
  0 < total -> (Z.of_nat total < 2 ^ 40)%Z ->
  exists level infos,
    field_coverage_of schema dir tname =
      Ok ((level, tname +:+ ": " +:+ pretty found +:+ "/" +:+ pretty total +:+ " fields" +:+
                  (if Nat.eqb skipped 0 then ""
                   else " (" +:+ pretty skipped +:+ " complex skipped)")) :: infos) /\
    (level = "PASS" <-> 9 * total <= 10 * found) /\
    (level = "WARN" <-> 6 * total <= 10 * found /\ 10 * found < 9 * total) /\
    (level = "FAIL" <-> 10 * found < 6 * total) /\
    infos = (if String.eqb level "PASS" then []
             else map (fun m => ("INFO", "  Missing: " +:+ m))
                    (take 5 (sorted_set (expected ∖ json_keys)))) /\
    length infos <= 5.
Proof.
  intros Ht Hd Hs simple expected json_keys total found skipped Hpos Hb.
  assert (Hle : found <= total).
  { unfold found, total. apply subseteq_size. set_solver. }
  unfold field_coverage_of. rewrite Ht, Hd, Hs.
  fold simple. fold expected. fold json_keys. fold total. fold found. fold skipped.
  destruct (Nat.eqb_spec total 0) as [E|_]; [lia|].
  pose proof (percent_ge_nat 90 found total ltac:(auto) Hle Hpos Hb) as H90.
  pose proof (percent_ge_nat 60 found total ltac:(auto) Hle Hpos Hb) as H60.
  change (Z.of_nat 90) with 90%Z in H90. change (Z.of_nat 60) with 60%Z in H60.
  assert (Hlen : forall l : list string,
            length (map (fun m => ("INFO", "  Missing: " +:+ m)) (take 5 l)) <= 5).
  { intros l. rewrite length_map, length_take. lia. }
  destruct (ge_int (percent found total) 90).
  - exists "PASS", []. split; [reflexivity|].
    assert (90 * total <= 100 * found) by now apply H90.
    repeat split; try discriminate; try lia; auto. simpl. lia.
  - assert (~ 90 * total <= 100 * found) by (intros E; apply H90 in E; discriminate).
    destruct (ge_int (percent found total) 60).
    + eexists "WARN", _. split; [reflexivity|].
      assert (60 * total <= 100 * found) by now apply H60.
      repeat split; try discriminate; try lia; auto. apply Hlen.
    + eexists "FAIL", _. split; [reflexivity|].
      assert (~ 60 * total <= 100 * found) by (intros E; apply H60 in E; discriminate).
      repeat split; try discriminate; try lia; auto. apply Hlen.
Qed.

Lemma field_coverage_verdict_witness :
  field_coverage_of validation_schema validation_dir "ATemplate" =
    Ok [("PASS", "ATemplate: 1/1 fields")].
Proof.
  destruct (field_coverage_verdict validation_schema validation_dir "ATemplate"
              (MkTemplate None false [MkFieldDef "Damage" "float" "0x90" "primitive" None])
              [JDict [("name", JStr "rifle"); ("Damage", JInt 12)];
               JDict [("name", JStr "unknown_1")]]
              [("name", JStr "rifle"); ("Damage", JInt 12)])
    as (level & infos & E & Hp & _ & _ & Hi & _).
  - vm_compute. reflexivity.
  - vm_compute. reflexivity.
  - vm_compute. reflexivity.
  - vm_compute. lia.
  - vm_compute. reflexivity.
  - rewrite E. assert (El : level = "PASS") by (apply Hp; vm_compute; lia).
    subst level. rewrite Hi. vm_compute. reflexivity.
Defined.

Module ReportFacts.
Import PyStr PySort GenerateSchema Float64 ValidateExtraction.
Import StrFacts ListFacts ValidateFacts.

(** One turn of the instance check gives one line, on its template. *)
Lemma instance_names_of_line (dir : gmap string load) (tname : string)
    (lines : list record) :
  instance_names_of dir tname = Ok lines ->
  exists level rest,
    lines = [(level, tname +:+ ": " +:+ rest)] /\
    level ∈ ["PASS"; "WARN"; "FAIL"].
Proof.
  unfold instance_names_of.
  destruct (dir !! json_path tname) as [[v| | |e]|];
    try (intros H; injection H as <-; eexists _, _; split; [reflexivity|solve [repeat (first [left | right])]]);
    try discriminate.
  destruct v;
    try (intros H; injection H as <-; eexists _, _; split; [reflexivity|solve [repeat (first [left | right])]]).
  destruct (Nat.eqb (length l) 0);
    [intros H; injection H as <-; eexists _, _; split; [reflexivity|solve [repeat (first [left | right])]]|].
  destruct (count_named l) as [named|e]; [|discriminate]. cbn [mbind result_bind].
  intros H. injection H as <-. eexists _, _. split; [reflexivity|].
  destruct (eq_int _ _); [solve [repeat (first [left | right])]|]. destruct (ge_int _ _); solve [repeat (first [left | right])].
Qed.

Lemma for_each_Forall2 {A B : Type} (body : A -> result (list B)) (P : A -> B -> Prop)
    (l : list A) :
  (forall a lines, body a = Ok lines -> exists b, lines = [b] /\ P a b) ->
  forall rs, for_each body l = Ok rs -> Forall2 P l rs.
Proof.
  intros Hbody. induction l as [|a l IH]; intros rs H; simpl in H.
  - injection H as <-. constructor.
  - destruct (body a) as [lines|e] eqn:Ea; [|discriminate]. simpl in H.
    destruct (for_each body l) as [more|e]; [|discriminate]. simpl in H.
    injection H as <-. destruct (Hbody a lines Ea) as (b & -> & Hb).
    constructor; [exact Hb|]. now apply IH.
Qed.

End ReportFacts.

Import ReportFacts.

(** X17.  When the instance check returns, it has one line for each found
    template, in ascending order of the names: the line of a template
    starts with its name and a colon and has level [PASS], [WARN] or
    [FAIL]. *)
Theorem instance_check_one_line_per_template (dir : gmap string load)
    (found_types : gset string) (results : list ValidateExtraction.record) :
  check_instance_names dir found_types = Ok results ->
  Forall2 (fun tname r =>
             r.1 ∈ ["PASS"; "WARN"; "FAIL"] /\ startswith (tname +:+ ": ") r.2 = true)
    (sorted_set found_types) results.
Proof.
  unfold check_instance_names. apply for_each_Forall2.
  intros tname lines H.
  apply instance_names_of_line in H as (level & rest & -> & Hl).
  eexists. split; [reflexivity|]. split; [exact Hl|]. cbn [snd].
  rewrite <- str_app_assoc. apply startswith_app.
Qed.

Lemma instance_check_one_line_per_template_witness :
  Forall2 (fun tname r =>
             r.1 ∈ ["PASS"; "WARN"; "FAIL"] /\ startswith (tname +:+ ": ") r.2 = true)
    (sorted_set {[ "ATemplate"; "BTemplate"; "CTemplate" ]})
    [("WARN", "ATemplate: 1/2 named (50%)");
     ("PASS", "BTemplate: 1/1 named (100%)");
     ("FAIL", "CTemplate: Could not read JSON")].
Proof.
  apply (instance_check_one_line_per_template validation_dir).
  vm_compute. reflexivity.
Defined.

Section Reports.
Variable format_value : json -> string.
Variable format_3e : json -> result string.

(** X18.  When no template that is not abstract has a file, [main] stops
    after the coverage section with exit code 2, whatever the coverage
    level is (a schema without such templates is a [PASS] there). *)
Theorem no_data_exits_2 (schema : Schema) (dir : gmap string load) :
  (forall t tinfo, s_templates schema !! t = Some tinfo ->
     t_is_abstract tinfo = false -> dir !! json_path t = None) ->
  ValidateExtraction.main format_value format_3e (Some schema) (Some dir) = Ok 2%Z.
Proof.
  intros H. unfold ValidateExtraction.main.
  destruct (check_template_coverage schema dir) as [cov found] eqn:E.
  assert (Hf : found = ∅).
  { unfold check_template_coverage in E. injection E as _ <-.
    apply set_eq. intros t. rewrite elem_of_filter, elem_of_dom. split.
    - intros [[v Hv] [tinfo Ht]]. apply map_lookup_filter_Some in Ht as [Ht Ha].
      rewrite (H t tinfo Ht Ha) in Hv. discriminate.
    - intros Hin. now apply not_elem_of_empty in Hin. }
  rewrite Hf. now rewrite bool_decide_eq_true_2.
Qed.

(** X19.  The type check reads the first fifty instances of a file only:
    what follows them changes nothing of its lines for the template. *)
Theorem type_check_reads_first_fifty (schema : Schema) (dir : gmap string load)
    (tname : string) (first rest : list json) :
  length first = 50 ->
  type_validation_of format_value format_3e schema
    (<[json_path tname := Loaded (JList (first ++ rest))]> dir) tname =
  type_validation_of format_value format_3e schema
    (<[json_path tname := Loaded (JList first)]> dir) tname.
Proof.
  intros Hlen. unfold type_validation_of.
  destruct (s_templates schema !! tname) as [tinfo|]; [|reflexivity].
  rewrite !lookup_insert_eq.
  rewrite (take_app_le first rest 50) by lia.
  rewrite (take_app_le first rest 5) by lia.
  reflexivity.
Qed.

End Reports.

Lemma no_data_exits_2_witness :
  ValidateExtraction.main (fun _ => "") (fun _ => Ok "")
    (Some validation_schema) (Some ∅) = Ok 2%Z.
Proof.
  apply (no_data_exits_2 (fun _ => "") (fun _ => Ok "") validation_schema ∅).
  intros t tinfo _ _. apply lookup_empty.
Defined.

Lemma type_check_reads_first_fifty_witness :
  type_validation_of (fun _ => "") (fun _ => Ok "") validation_schema
    (<[json_path "ATemplate" :=
         Loaded (JList (replicate 50 (JDict [("name", JStr "rifle"); ("Damage", JInt 12)])
                          ++ [JDict [("Damage", JStr "x")]]))]> validation_dir)
    "ATemplate" =
  Ok [("PASS", "ATemplate: all values match expected types")].
Proof.
  rewrite (type_check_reads_first_fifty (fun _ => "") (fun _ => Ok "")
             validation_schema validation_dir "ATemplate"
             (replicate 50 (JDict [("name", JStr "rifle"); ("Damage", JInt 12)]))
             [JDict [("Damage", JStr "x")]]).
  - vm_compute. reflexivity.
  - reflexivity.
Defined.

(** ** Discovery of embedded classes *)

Module PieceFacts.
Import PyStr Re PySort GenerateSchema EmbeddedClasses.
Import StrFacts ReFacts ListFacts SchemaFacts WalkFacts ExtractFacts FieldFacts.

(** [v] stands somewhere in [s]. *)
Abbreviation piece_of v s := (exists a b : string, s = a +:+ v +:+ b).

Lemma piece_of_refl (s : string) : piece_of s s.
Proof. exists "", "". now rewrite str_app_nil_r. Qed.

Lemma piece_of_empty (s : string) : piece_of "" s.
Proof. exists "", s. reflexivity. Qed.

Lemma piece_of_trans (u v s : string) : piece_of u v -> piece_of v s -> piece_of u s.
Proof.
  intros (a & b & ->) (a' & b' & ->). exists (a' +:+ a), (b +:+ b').
  now rewrite !str_app_assoc.
Qed.

Lemma piece_of_suffix (v w s : string) : piece_of v s -> piece_of v (w +:+ s).
Proof. intros (a & b & ->). exists (w +:+ a), b. now rewrite !str_app_assoc. Qed.

Lemma piece_of_pieces (v s : string) : piece_of v s -> v ∈ pieces s.
Proof. intros (a & b & ->). apply piece_elem. Qed.

(** The groups a match adds hold pieces of the text it ran on. *)
Lemma star_sem_groups (step : string -> groups -> string -> groups -> Prop) :
  (forall s g s' g', step s g s' g' ->
     (exists w, s = w +:+ s') /\
     exists gn, g' = gn ++ g /\ forall i v, (i, v) ∈ gn -> piece_of v s) ->
  forall s g s' g', star_sem step s g s' g' ->
    (exists w, s = w +:+ s') /\
    exists gn, g' = gn ++ g /\ forall i v, (i, v) ∈ gn -> piece_of v s.
Proof.
  intros Hstep s g s' g' H. induction H as [s g|s g s1 g1 s' g' H1 _ IH].
  - split; [now exists ""|]. exists []. split; [reflexivity|]. intros i v Hin. inversion Hin.
  - destruct (Hstep _ _ _ _ H1) as ((w1 & ->) & gn1 & -> & Hp1).
    destruct IH as ((w2 & ->) & gn2 & -> & Hp2).
    split; [exists (w1 +:+ w2); now rewrite str_app_assoc|].
    exists (gn2 ++ gn1). split; [now rewrite app_assoc|].
    intros i v Hin. apply elem_of_app in Hin as [Hin|Hin]; [|eauto].
    apply piece_of_suffix. eauto.
Qed.

Lemma sem_groups (r : regex) :
  forall s g s' g', sem r s g s' g' ->
    exists gn, g' = gn ++ g /\ forall i v, (i, v) ∈ gn -> piece_of v s.
Proof.
  induction r as [|c|p|r1 IH1 r2 IH2|r1 IH1 r2 IH2|gr r1 IH1|i r1 IH1];
    intros s g s' g' H; cbn [sem] in H.
  - destruct H as [_ ->]. exists []. split; [reflexivity|]. intros i v Hin. inversion Hin.
  - destruct H as [_ ->]. exists []. split; [reflexivity|]. intros i v Hin. inversion Hin.
  - destruct H as (c & _ & _ & ->). exists []. split; [reflexivity|].
    intros i v Hin. inversion Hin.
  - destruct H as (s1 & g1 & H1 & H2).
    destruct (sem_suffix _ _ _ _ _ H1) as [w ->].
    destruct (IH1 _ _ _ _ H1) as (gn1 & -> & Hp1).
    destruct (IH2 _ _ _ _ H2) as (gn2 & -> & Hp2).
    exists (gn2 ++ gn1). split; [now rewrite app_assoc|].
    intros i v Hin. apply elem_of_app in Hin as [Hin|Hin]; [|eauto].
    apply piece_of_suffix. eauto.
  - destruct H as [H|H]; eauto.
  - apply (star_sem_groups (sem r1)) in H; [tauto|].
    intros s0 g0 s0' g0' H0. split; [eapply sem_suffix; eauto|eauto].
  - destruct H as (g1 & H1 & ->).
    destruct (sem_suffix _ _ _ _ _ H1) as [w ->].
    destruct (IH1 _ _ _ _ H1) as (gn1 & -> & Hp1).
    exists ((i, consumed (w +:+ s') s') :: gn1). split; [reflexivity|].
    intros j v Hin. apply elem_of_cons in Hin as [Hin|Hin]; [|eauto].
    injection Hin as _ ->. rewrite consumed_app. exists "", s'. reflexivity.
Qed.

Lemma lookup_group_elem (i : nat) (g : groups) (v : string) :
  lookup_group i g = Some v -> (i, v) ∈ g.
Proof.
  induction g as [|[j w] g IH]; simpl; [discriminate|].
  destruct (Nat.eqb_spec i j) as [->|_].
  - intros H. injection H as <-. left.
  - intros H. right. auto.
Qed.

(** A group of a match holds a piece of the text searched. *)
Lemma group_piece (r : regex) (content : string) (m : rmatch) (i : nat) :
  match_of r content m -> piece_of (group i m) content.
Proof.
  intros (pre & s0 & s' & -> & H & _ & _). unfold group.
  destruct (lookup_group i (m_groups m)) as [v|] eqn:E; [|apply piece_of_empty].
  apply sem_groups in H as (gn & Hg & Hp). rewrite app_nil_r in Hg. subst gn.
  apply lookup_group_elem in E. cbn [default]. apply piece_of_suffix. eauto.
Qed.

Lemma rstrip_prefix (chars s : string) : exists t, s = rstrip chars s +:+ t.
Proof.
  induction s as [|c s [t IH]]; [now exists ""|]. cbn [rstrip].
  destruct (rstrip chars s) as [|c' r'] eqn:E.
  - destruct (char_in c chars); [exists (String c s); reflexivity|].
    exists s. reflexivity.
  - exists t. rewrite IH at 1. reflexivity.
Qed.

(** An element type the classifier names is a piece of the field type. *)
Lemma classify_element_piece (field_type : string) (ke ks kt : gset string)
    (category e : string) :
  classify_field field_type ke ks kt = (category, Some e) -> piece_of e field_type.
Proof.
  unfold classify_field. intros H.
  repeat match type of H with
         | context [if ?b then _ else _] => destruct b
         | context [match match_at ?r ?p ?s with _ => _ end] =>
             destruct (match_at r p s) as [lm|] eqn:E
         end; try discriminate H; injection H as _ <-;
    first [ match goal with
            | E' : match_at _ _ _ = Some _ |- _ =>
                apply (group_piece list_pattern);
                apply match_at_sound in E' as (s' & g' & Hs & ->);
                exists "", field_type, s'; repeat split; auto
            end
          | destruct (rstrip_prefix "[]" field_type) as [t Ht]; exists "", t; exact Ht ].
Qed.

(** The type of a field of an embedded class is a piece of the dump. *)
Lemma embedded_field_type_piece (content class_name : string) (info : EmbeddedInfo)
    (f : RawField) :
  parse_embedded_class content class_name = Some info ->
  f ∈ ei_fields info -> piece_of (rf_type f) content.
Proof.
  unfold parse_embedded_class. cbn [first_search].
  destruct (search (class_pattern "public class " class_name) content) as [m|] eqn:Em;
    [|discriminate].
  destruct (embedded_fields_of _) as [|f0 fs] eqn:Ef; [discriminate|].
  intros H Hf. injection H as <-. cbn [ei_fields] in Hf.
  rewrite <- Ef, embedded_fields_filter in Hf.
  apply list_elem_of_filter in Hf as [_ Hf].
  apply class_fields_of_elem in Hf as (fm & Hfm & _ & ->). cbn [rf_type].
  apply finditer_sound in Hfm. apply search_sound in Em.
  eapply piece_of_trans; [eapply group_piece; eauto|eapply group_piece; eauto].
Qed.

End PieceFacts.

Module DiscoverFacts.
Import PyStr Re PySort GenerateSchema EmbeddedClasses Discover.
Import StrFacts ReFacts ListFacts SchemaFacts WalkFacts ExtractFacts FieldFacts PieceFacts.

Lemma size_union_le (X Y : gset string) : size (X ∪ Y) <= size X + size Y.
Proof.
  assert (E : X ∪ Y = X ∪ (Y ∖ X)).
  { apply set_eq. intros x. rewrite !elem_of_union, elem_of_difference.
    destruct (decide (x ∈ X)); tauto. }
  rewrite E, size_union.
  - assert (size (Y ∖ X) <= size Y) by (apply subseteq_size; set_solver). lia.
  - intros x Hx Hy. apply elem_of_difference in Hy. tauto.
Qed.

Lemma sorted_set_head (X : gset string) (c : string) (l : list string) :
  sorted_set X = c :: l -> c ∈ X.
Proof. intros H. apply elem_of_sorted_set. rewrite H. left. Qed.

Lemma sorted_set_nil_empty (X : gset string) : sorted_set X = [] -> X = ∅.
Proof.
  intros H. apply set_eq. intros x. rewrite <- elem_of_sorted_set, H.
  split; [intros Hx; inversion Hx|intros Hx; now apply not_elem_of_empty in Hx].
Qed.

Section Discovery.
Variable content : string.
Variables known_enums known_structs known_templates : gset string.
Variable templates : gmap string Template.

Abbreviation wanted' := (wanted known_enums known_structs known_templates).
Abbreviation classified info :=
  (map (classify_entry known_enums known_structs known_templates) (ei_fields info)).
Abbreviation entry_of info := (MkEmbeddedClass (ei_base info) (classified info)).
Abbreviation visit' := (visit content known_enums known_structs known_templates).
Abbreviation reach' :=
  (reach content known_enums known_structs known_templates templates).
Abbreviation roots := (root_types known_enums known_structs known_templates templates).
Abbreviation universe := (roots ∪ list_to_set (pieces content) : gset string).
Abbreviation invariant' :=
  (invariant content known_enums known_structs known_templates templates).

Lemma wanted_spec (e : string) :
  wanted' e = true <->
  e <> "" /\ (e ∉ known_templates) /\ (e ∉ known_structs) /\ (e ∉ known_enums) /\
  (e ∉ skip_types).
Proof.
  unfold wanted. rewrite !andb_true_iff, !negb_true_iff, !bool_decide_eq_false.
  rewrite String.eqb_neq. tauto.
Qed.

Lemma elem_of_nested_types (P : gset string) (fields : list FieldDef) (e : string) :
  e ∈ nested_types known_enums known_structs known_templates P fields <->
  exists entry, entry ∈ fields /\ fd_element_type entry = Some e /\
                wanted' e = true /\ e ∉ P.
Proof.
  unfold nested_types. rewrite elem_of_list_to_set, elem_of_flat_map. split.
  - intros (entry & Hin & He). exists entry. split; [exact Hin|].
    destruct (fd_element_type entry) as [e'|]; [|inversion He].
    destruct (wanted' e' && negb (bool_decide (e' ∈ P))) eqn:Ew; [|inversion He].
    apply list_elem_of_singleton in He. subst e'.
    apply andb_true_iff in Ew as [Hw Hp].
    apply negb_true_iff, bool_decide_eq_false in Hp. auto.
  - intros (entry & Hin & He & Hw & Hp). exists entry. split; [exact Hin|].
    rewrite He, Hw. cbn [andb].
    rewrite (bool_decide_eq_false_2 _ Hp). left.
Qed.

Lemma elem_of_root_types (e : string) :
  e ∈ roots <->
  exists tname tdata field,
    templates !! tname = Some tdata /\ field ∈ t_fields tdata /\
    fd_element_type field = Some e /\ wanted' e = true.
Proof.
  unfold root_types. rewrite elem_of_list_to_set, elem_of_flat_map. split.
  - intros ([tname tdata] & Hin & He). apply elem_of_map_to_list in Hin.
    apply elem_of_flat_map in He as (field & Hf & He).
    exists tname, tdata, field. split; [exact Hin|]. split; [exact Hf|].
    destruct (fd_element_type field) as [e'|]; [|inversion He].
    destruct (wanted' e') eqn:Ew; [|inversion He].
    apply list_elem_of_singleton in He. subst e'. auto.
  - intros (tname & tdata & field & Ht & Hf & He & Hw).
    exists (tname, tdata). split; [now apply elem_of_map_to_list|].
    apply elem_of_flat_map. exists field. split; [exact Hf|].
    rewrite He, Hw. left.
Qed.

Lemma reach_wanted (c : string) : reach' c -> wanted' c = true.
Proof.
  intros H. destruct H as [c Hc|c info entry e _ _ _ _ Hw]; [|exact Hw].
  apply elem_of_root_types in Hc as (_ & _ & _ & _ & _ & _ & Hw). exact Hw.
Qed.

Lemma classified_element_piece (class_name : string) (info : EmbeddedInfo)
    (entry : FieldDef) (e : string) :
  parse_embedded_class content class_name = Some info ->
  entry ∈ classified info -> fd_element_type entry = Some e ->
  e ∈ pieces content.
Proof.
  intros Hp Hin He. apply list_elem_of_fmap in Hin as (f & -> & Hf).
  unfold classify_entry in He.
  destruct (classify_field (rf_type f) _ _ _) as [category [e'|]] eqn:Ec;
    cbn [fd_element_type] in He; [|discriminate].
  destruct (String.eqb e' ""); [discriminate|]. injection He as ->.
  apply piece_of_pieces. eapply piece_of_trans.
  - eapply classify_element_piece; eauto.
  - eapply embedded_field_type_piece; eauto.
Qed.

Lemma reach_universe (c : string) : reach' c -> c ∈ universe.
Proof.
  intros H. destruct H as [c Hc|c info entry e _ Hp Hin He _].
  - apply elem_of_union. now left.
  - apply elem_of_union. right. apply elem_of_list_to_set.
    eapply classified_element_piece; eauto.
Qed.

Lemma invariant_initial :
  invariant' (initial known_enums known_structs known_templates templates).
Proof.
  split; cbn [initial to_process processed embedded].
  - intros c _. apply not_elem_of_empty.
  - intros c [Hc|Hc]; [now apply reach_root|now apply not_elem_of_empty in Hc].
  - intros c Hc. now left.
  - intros c info entry e Hc. now apply not_elem_of_empty in Hc.
  - intros c ec. rewrite lookup_empty. split; [discriminate|].
    intros [Hc _]. now apply not_elem_of_empty in Hc.
Qed.

Lemma visit_unprocessed (st : state) (c : string) :
  invariant' st -> c ∈ to_process st ->
  bool_decide (c ∈ processed st) || bool_decide (c ∈ skip_types) = false.
Proof.
  intros Hinv Hc. apply orb_false_iff. split; apply bool_decide_eq_false.
  - now apply (inv_fresh Hinv).
  - assert (Hw : wanted' c = true) by (apply reach_wanted, (inv_reach Hinv); auto).
    apply wanted_spec in Hw. tauto.
Qed.

Lemma visit_processed (st : state) (c : string) :
  invariant' st -> c ∈ to_process st ->
  processed (visit' c st) = {[c]} ∪ processed st.
Proof.
  intros Hinv Hc. unfold visit. rewrite (visit_unprocessed st c Hinv Hc).
  destruct (parse_embedded_class content c); reflexivity.
Qed.

Lemma visit_invariant (st : state) (c : string) :
  invariant' st -> c ∈ to_process st -> invariant' (visit' c st).
Proof.
  intros Hinv Hc. pose proof (inv_fresh Hinv c Hc) as Hfresh.
  unfold visit. rewrite (visit_unprocessed st c Hinv Hc).
  destruct (parse_embedded_class content c) as [info|] eqn:Ep;
    split; cbn [to_process processed embedded].
  - (* fresh *)
    intros x Hx Hp. apply elem_of_union in Hx as [Hx|Hx].
    + apply elem_of_difference in Hx as [Hx Hne].
      apply elem_of_union in Hp as [Hp|Hp]; [contradiction|].
      now apply (inv_fresh Hinv x).
    + apply elem_of_nested_types in Hx as (_ & _ & _ & _ & Hx). contradiction.
  - (* reach *)
    intros x [Hx|Hx].
    + apply elem_of_union in Hx as [Hx|Hx].
      * apply elem_of_difference in Hx as [Hx _]. apply (inv_reach Hinv). auto.
      * apply elem_of_nested_types in Hx as (entry & Hin & He & Hw & _).
        eapply reach_nested; eauto. apply (inv_reach Hinv). auto.
    + apply elem_of_union in Hx as [Hx|Hx].
      * apply elem_of_singleton in Hx. subst x. apply (inv_reach Hinv). auto.
      * apply (inv_reach Hinv). auto.
  - (* roots *)
    intros x Hx. destruct (decide (x = c)) as [->|Hne].
    + right. apply elem_of_union. left. now apply elem_of_singleton.
    + destruct (inv_roots Hinv x Hx) as [H|H].
      * left. apply elem_of_union. left. apply elem_of_difference.
        split; [exact H|]. now rewrite elem_of_singleton.
      * right. apply elem_of_union. now right.
  - (* closed *)
    intros x info' entry e Hx Hp Hin He Hw.
    destruct (decide (e ∈ {[c]} ∪ processed st)) as [Hd|Hd]; [now right|].
    left. apply elem_of_union in Hx as [Hx|Hx].
    + apply elem_of_singleton in Hx. subst x. rewrite Ep in Hp. injection Hp as <-.
      apply elem_of_union. right. apply elem_of_nested_types. eauto.
    + destruct (inv_closed Hinv x info' entry e Hx Hp Hin He Hw) as [H|H].
      * apply elem_of_union. left. apply elem_of_difference. split; [exact H|].
        intros Hs. apply Hd. apply elem_of_union. now left.
      * exfalso. apply Hd. apply elem_of_union. now right.
  - (* embedded *)
    intros x ec. destruct (decide (x = c)) as [->|Hne].
    + rewrite lookup_insert_eq. split.
      * intros H. injection H as <-. split; [apply elem_of_union; left; now apply elem_of_singleton|].
        exists info. auto.
      * intros (_ & info' & Hp & ->). rewrite Ep in Hp. injection Hp as <-. reflexivity.
    + rewrite lookup_insert_ne by congruence. rewrite (inv_embedded Hinv x ec).
      rewrite elem_of_union, elem_of_singleton. tauto.
  - intros x Hx Hp. apply elem_of_difference in Hx as [Hx Hne].
    apply elem_of_union in Hp as [Hp|Hp]; [contradiction|].
    now apply (inv_fresh Hinv x).
  - intros x [Hx|Hx].
    + apply elem_of_difference in Hx as [Hx _]. apply (inv_reach Hinv). auto.
    + apply elem_of_union in Hx as [Hx|Hx].
      * apply elem_of_singleton in Hx. subst x. apply (inv_reach Hinv). auto.
      * apply (inv_reach Hinv). auto.
  - intros x Hx. destruct (decide (x = c)) as [->|Hne].
    + right. apply elem_of_union. left. now apply elem_of_singleton.
    + destruct (inv_roots Hinv x Hx) as [H|H].
      * left. apply elem_of_difference. split; [exact H|]. now rewrite elem_of_singleton.
      * right. apply elem_of_union. now right.
  - intros x info' entry e Hx Hp Hin He Hw.
    apply elem_of_union in Hx as [Hx|Hx].
    + apply elem_of_singleton in Hx. subst x. rewrite Ep in Hp. discriminate.
    + destruct (decide (e = c)) as [->|Hne].
      * right. apply elem_of_union. left. now apply elem_of_singleton.
      * destruct (inv_closed Hinv x info' entry e Hx Hp Hin He Hw) as [H|H].
        -- left. apply elem_of_difference. split; [exact H|]. now rewrite elem_of_singleton.
        -- right. apply elem_of_union. now right.
  - intros x ec. rewrite (inv_embedded Hinv x ec), elem_of_union, elem_of_singleton.
    split.
    + intros [Hx H]. split; [now right|exact H].
    + intros [[->|Hx] (info' & Hp & Hec)]; [rewrite Ep in Hp; discriminate|].
      split; [exact Hx|]. eauto.
Qed.

Lemma invariant_universe (st : state) (c : string) :
  invariant' st -> c ∈ to_process st \/ c ∈ processed st -> c ∈ universe.
Proof. intros Hinv Hc. apply reach_universe, (inv_reach Hinv), Hc. Qed.

Lemma size_universe :
  size universe <= discover_fuel content known_enums known_structs known_templates templates.
Proof.
  unfold discover_fuel. etransitivity; [apply size_union_le|].
  pose proof (size_list_to_set_le (pieces content)). lia.
Qed.

(** Every turn processes one more name. *)
Lemma steps_count (n : nat) (st st' : state) :
  steps content known_enums known_structs known_templates n st st' ->
  invariant' st ->
  invariant' st' /\ size (processed st') = n + size (processed st).
Proof.
  intros H. induction H as [st|n st c st' Hc _ IH]; intros Hinv; [auto|].
  destruct (IH (visit_invariant st c Hinv Hc)) as [Hinv' Hsize].
  split; [exact Hinv'|]. rewrite Hsize, (visit_processed st c Hinv Hc).
  rewrite size_union, size_singleton; [lia|].
  intros x Hx Hp. apply elem_of_singleton in Hx. subst x.
  now apply (inv_fresh Hinv c).
Qed.

(** Where the loop ends, the processed names are the reached ones. *)
Lemma run_final (st final : state) :
  run content known_enums known_structs known_templates st final ->
  invariant' st ->
  invariant' final /\ to_process final = ∅.
Proof.
  intros H. induction H as [st He|st c final Hc _ IH]; intros Hinv; [auto|].
  apply IH. now apply visit_invariant.
Qed.

Lemma final_processed (final : state) (c : string) :
  invariant' final -> to_process final = ∅ ->
  c ∈ processed final <-> reach' c.
Proof.
  intros Hinv He. split; [intros Hc; apply (inv_reach Hinv); auto|].
  intros H. induction H as [c Hc|c info entry e _ IH Hp Hin Hel Hw].
  - destruct (inv_roots Hinv c Hc) as [H|H]; [|exact H].
    rewrite He in H. now apply not_elem_of_empty in H.
  - destruct (inv_closed Hinv c info entry e IH Hp Hin Hel Hw) as [H|H]; [|exact H].
    rewrite He in H. now apply not_elem_of_empty in H.
Qed.

(** The loop run with the least name first ends within its fuel. *)
Lemma discover_loop_runs :
  forall fuel st,
    invariant' st -> size (universe ∖ processed st) <= fuel ->
    exists final,
      discover_loop content known_enums known_structs known_templates fuel st = Some final /\
      run content known_enums known_structs known_templates st final.
Proof.
  induction fuel as [|fuel IH]; intros st Hinv Hsize; cbn [discover_loop];
    destruct (sorted_set (to_process st)) as [|c l] eqn:Es;
    try (exists st; split; [reflexivity|]; apply run_done; now apply sorted_set_nil_empty).
  - exfalso. apply sorted_set_head in Es.
    assert (Hin : c ∈ universe ∖ processed st).
    { apply elem_of_difference. split; [apply (invariant_universe st); auto|].
      now apply (inv_fresh Hinv). }
    assert (H0 : universe ∖ processed st ≡ ∅) by (apply size_empty_inv; lia).
    rewrite H0 in Hin. now apply not_elem_of_empty in Hin.
  - apply sorted_set_head in Es.
    destruct (IH (visit' c st)) as (final & Hl & Hr).
    + now apply visit_invariant.
    + rewrite (visit_processed st c Hinv Es).
      assert (Hlt : size (universe ∖ ({[c]} ∪ processed st)) < size (universe ∖ processed st)).
      { apply size_difference_shrinks; [apply (invariant_universe st); auto|].
        now apply (inv_fresh Hinv). }
      lia.
    + exists final. split; [exact Hl|]. eapply run_pop; eauto.
Qed.

End Discovery.

End DiscoverFacts.

Import EmbeddedClasses Discover MoreFixtures PieceFacts DiscoverFacts.

(** X20.  The discovery loop ends whatever name [pop] hands out: every
    turn processes one name that was not processed before, so there are at
    most as many turns as there are queued element types and pieces of the
    dump, and the loop run with the least name first returns within that
    fuel. *)
Theorem discovery_ends_in_any_order (content : string)
    (known_enums known_structs known_templates : gset string)
    (templates : gmap string Template) :
  let start := initial known_enums known_structs known_templates templates in
  let fuel := discover_fuel content known_enums known_structs known_templates templates in
  (forall n st,
     steps content known_enums known_structs known_templates n start st ->
     size (processed st) = n /\ n <= fuel) /\
  exists final,
    discover_loop content known_enums known_structs known_templates fuel start = Some final /\
    run content known_enums known_structs known_templates start final.
Proof.
  cbv zeta.
  pose proof (invariant_initial content known_enums known_structs known_templates templates)
    as Hinit.
  split.
  - intros n st Hsteps.
    destruct (steps_count _ _ _ _ _ _ _ _ Hsteps Hinit) as [Hinv Hsize].
    cbn [initial processed] in Hsize. rewrite size_empty, Nat.add_0_r in Hsize.
    split; [exact Hsize|]. rewrite <- Hsize.
    etransitivity; [|apply size_universe].
    apply subseteq_size. intros c Hc.
    apply (invariant_universe content known_enums known_structs known_templates templates
             st c Hinv). now right.
  - apply (discover_loop_runs content known_enums known_structs known_templates templates);
      [exact Hinit|].
    cbn [initial processed]. rewrite difference_empty_L. apply size_universe.
Qed.

(** X21.  However [pop] orders the names, the loop ends with the same
    result: the processed names are the queued element types and those
    reached from them through the fields of the classes that parse, and
    the dict holds, for each of these that parses, its base and its
    classified fields.  It is the result of [discover_embedded_classes]. *)
Theorem discovery_result_is_order_independent (content : string)
    (known_enums known_structs known_templates : gset string)
    (templates : gmap string Template) (final : state) :
  run content known_enums known_structs known_templates
    (initial known_enums known_structs known_templates templates) final ->
  (forall c, c ∈ processed final <->
     reach content known_enums known_structs known_templates templates c) /\
  (forall c ec, embedded final !! c = Some ec <->
     reach content known_enums known_structs known_templates templates c /\
     exists info,
       parse_embedded_class content c = Some info /\
       ec = MkEmbeddedClass (ei_base info)
              (map (classify_entry known_enums known_structs known_templates)
                 (ei_fields info))) /\
  discover_embedded_classes content known_enums known_structs known_templates templates =
    Some (embedded final).
Proof.
  intros Hrun.
  pose proof (invariant_initial content known_enums known_structs known_templates templates)
    as Hinit.
  destruct (run_final _ _ _ _ _ _ _ Hrun Hinit) as [Hinv He].
  assert (Hproc : forall c, c ∈ processed final <->
            reach content known_enums known_structs known_templates templates c)
    by (intros c; now apply final_processed).
  assert (Hemb : forall c ec, embedded final !! c = Some ec <->
     reach content known_enums known_structs known_templates templates c /\
     exists info,
       parse_embedded_class content c = Some info /\
       ec = MkEmbeddedClass (ei_base info)
              (map (classify_entry known_enums known_structs known_templates)
                 (ei_fields info))).
  { intros c ec. rewrite (inv_embedded Hinv c ec), Hproc. reflexivity. }
  split; [exact Hproc|]. split; [exact Hemb|].
  unfold discover_embedded_classes.
  destruct (discover_loop_runs content known_enums known_structs known_templates templates
              (discover_fuel content known_enums known_structs known_templates templates)
              (initial known_enums known_structs known_templates templates) Hinit)
    as (final' & -> & Hrun').
  { cbn [initial processed]. rewrite difference_empty_L. apply size_universe. }
  cbn [fmap option_fmap option_map]. f_equal.
  destruct (run_final _ _ _ _ _ _ _ Hrun' Hinit) as [Hinv' He'].
  apply map_eq. intros c. apply option_eq. intros ec.
  rewrite Hemb, (inv_embedded Hinv' c ec).
  rewrite (final_processed _ _ _ _ _ final' c Hinv' He'). reflexivity.
Qed.

Lemma discovery_result_is_order_independent_witness :
  discover_embedded_classes perk_dump ∅ ∅ {[ "SkillTemplate" ]} perk_templates =
    Some perk_embedded.
Proof.
  destruct (discovery_result_is_order_independent perk_dump ∅ ∅ {[ "SkillTemplate" ]}
              perk_templates
              (visit perk_dump ∅ ∅ {[ "SkillTemplate" ]} "Perk"
                 (initial ∅ ∅ {[ "SkillTemplate" ]} perk_templates)))
    as (_ & _ & ->).
  - apply (run_pop _ _ _ _ _ "Perk").
    + apply (bool_decide_unpack _). vm_compute. exact I.
    + apply run_done. vm_compute. reflexivity.
  - vm_compute. reflexivity.
Defined.

(** X22.  A name in the result of the discovery is a true string that is
    no known template, struct or enum and no skipped type; its entry has
    at least one field, none named [Parent] and none at offset [0x0]. *)
Theorem embedded_classes_are_wanted (content : string)
    (known_enums known_structs known_templates : gset string)
    (templates : gmap string Template)
    (result : gmap string EmbeddedClass) (c : string) (ec : EmbeddedClass) :
  discover_embedded_classes content known_enums known_structs known_templates templates =
    Some result ->
  result !! c = Some ec ->
  c <> "" /\ (c ∉ known_templates) /\ (c ∉ known_structs) /\ (c ∉ known_enums) /\
  (c ∉ skip_types) /\
  ec_fields ec <> [] /\
  (forall fd, fd ∈ ec_fields ec -> fd_name fd <> "Parent" /\ fd_offset fd <> "0x0").
Proof.
  unfold discover_embedded_classes. intros Hd Hc.
  pose proof (invariant_initial content known_enums known_structs known_templates templates)
    as Hinit.
  destruct (discover_loop_runs content known_enums known_structs known_templates templates
              (discover_fuel content known_enums known_structs known_templates templates)
              (initial known_enums known_structs known_templates templates) Hinit)
    as (final & Hl & Hrun).
  { cbn [initial processed]. rewrite difference_empty_L. apply size_universe. }
  rewrite Hl in Hd. cbn in Hd. injection Hd as <-.
  destruct (run_final _ _ _ _ _ _ _ Hrun Hinit) as [Hinv He].
  apply (inv_embedded Hinv) in Hc as (Hp & info & Hparse & ->).
  assert (Hw : wanted known_enums known_structs known_templates c = true).
  { eapply reach_wanted, (inv_reach Hinv). right. exact Hp. }
  apply wanted_spec in Hw as (H1 & H2 & H3 & H4 & H5).
  repeat (split; [assumption|]). cbn [ec_fields].
  unfold parse_embedded_class in Hparse. cbn [first_search] in Hparse.
  destruct (search (class_pattern "public class " c) content) as [m|]; [|discriminate].
  destruct (embedded_fields_of _) as [|f0 fs] eqn:Ef; [discriminate|].
  injection Hparse as <-. cbn [ei_fields]. split; [discriminate|].
  intros fd Hfd. apply list_elem_of_fmap in Hfd as (f & -> & Hf).
  rewrite <- Ef, embedded_fields_filter in Hf.
  apply list_elem_of_filter in Hf as [Hn Hf].
  apply class_fields_of_elem in Hf as (fm & _ & Hskip & ->).
  unfold class_field_skipped in Hskip. apply orb_false_iff in Hskip as [_ Hz].
  apply String.eqb_neq in Hz.
  unfold classify_entry. destruct (classify_field _ _ _ _) as [category element_type].
  cbn [fd_name fd_offset rf_name rf_offset] in *. split; [exact Hn|].
  intros E. injection E as E. contradiction.
Qed.

Lemma embedded_classes_are_wanted_witness :
  "Perk" ∉ skip_types.
Proof.
  apply (embedded_classes_are_wanted perk_dump ∅ ∅ {[ "SkillTemplate" ]} perk_templates
           perk_embedded "Perk"
           (MkEmbeddedClass (Some "Object")
              [MkFieldDef "Cost" "int" "0x18" "primitive" None;
               MkFieldDef "Next" "List<Perk>" "0x20" "collection" (Some "Perk")])).
  - vm_compute. reflexivity.
  - vm_compute. reflexivity.
Defined.

Module WalkShapeFacts.
Import PyStr Re PySort GenerateSchema Shapes.
Import StrFacts ReFacts ListFacts SchemaFacts WalkFacts ChainFacts.

(** The fields and the names of a walk: the fields are those the parsed
    classes declare, the class reached last first; every name is followed
    by the base its parse records, which is no stop base. *)
Lemma collect_rec_shape (content : string) :
  forall fuel class_name visited fields visited' parsed,
    collect_all_fields_rec fuel content class_name visited
      = Some (fields, visited', parsed) ->
    fields = flat_map (own_fields content) (rev parsed) /\
    (parsed = [] \/ exists rest, parsed = class_name :: rest) /\
    (forall a x y b, parsed = a ++ x :: y :: b ->
       exists info, parse_class_from_dump content x true = Some info /\
         ci_base info = Some y /\ (y ∉ stop_bases) /\ y <> "").
Proof.
  assert (Hone : forall class_name info,
            parse_class_from_dump content class_name true = info ->
            match info with Some i => ci_fields i | None => [] end =
            flat_map (own_fields content) (rev [class_name])).
  { intros class_name info <-. cbn [rev app flat_map]. unfold own_fields.
    now rewrite app_nil_r. }
  assert (Hnopair : forall (c : string) a x y b, [c] = a ++ x :: y :: b -> False).
  { intros c [|a0 [|a1 a]] x y b H; discriminate H. }
  induction fuel as [|fuel IH]; intros class_name visited fields visited' parsed H;
    cbn [collect_all_fields_rec] in H;
    destruct (decide (class_name ∈ visited));
    try (injection H as <- <- <-; split; [reflexivity|]; split; [now left|];
         intros [|a0 a] x y b E; discriminate E);
    destruct (parse_class_from_dump content class_name true) as [info|] eqn:Ep;
    try (injection H as <- <- <-; split; [exact (Hone _ _ Ep)|];
         split; [right; now exists []|]; intros a x y b E; now apply Hnopair in E).
  - destruct (ci_base info) as [base|].
    + destruct (negb _ && negb _); [discriminate|].
      injection H as <- <- <-. split; [exact (Hone _ _ Ep)|].
      split; [right; now exists []|]. intros a x y b E. now apply Hnopair in E.
    + injection H as <- <- <-. split; [exact (Hone _ _ Ep)|].
      split; [right; now exists []|]. intros a x y b E. now apply Hnopair in E.
  - destruct (ci_base info) as [base|] eqn:Eb.
    + destruct (negb (String.eqb base "") && negb (bool_decide (base ∈ stop_bases))) eqn:Ew.
      * destruct (collect_all_fields_rec fuel content base _)
          as [[[inherited v1] p1]|] eqn:Er; [|discriminate].
        injection H as <- <- <-.
        destruct (IH _ _ _ _ _ Er) as (Hf & Hhead & Hlink).
        apply andb_true_iff in Ew as [Hne Hstop].
        apply negb_true_iff, String.eqb_neq in Hne.
        apply negb_true_iff, bool_decide_eq_false in Hstop.
        split; [|split].
        -- cbn [rev]. rewrite flat_map_app, <- Hf. cbn [flat_map].
           unfold own_fields. now rewrite Ep, app_nil_r.
        -- right. now exists p1.
        -- intros [|a0 a] x y b E; cbn [app] in E; injection E as <- E.
           ++ destruct Hhead as [->|(rest & ->)]; [discriminate|].
              injection E as <- _. exists info. auto.
           ++ eapply Hlink; eauto.
      * injection H as <- <- <-. split; [exact (Hone _ _ Ep)|].
        split; [right; now exists []|]. intros a x y b E. now apply Hnopair in E.
    + injection H as <- <- <-. split; [exact (Hone _ _ Ep)|].
      split; [right; now exists []|]. intros a x y b E. now apply Hnopair in E.
Qed.

(** The groups of a match of the hierarchy pattern. *)
Lemma hierarchy_pattern_parent (kw content : string) (m : rmatch) :
  match_of (hierarchy_pattern kw) content m -> group 2 m <> "".
Proof.
  intros (pre & s0 & s' & _ & H & _ & _).
  unfold hierarchy_pattern in H. cbn [cat] in H.
  destruct H as (s1 & g1 & H1 & H). apply sem_lit in H1 as [_ ->].
  destruct H as (s2 & g2 & H2 & H).
  apply sem_grp in H2 as (w & g3 & _ & H2 & ->).
  destruct H2 as (s3 & g4 & H3 & H4).
  apply sem_plus_cls in H3 as (_ & _ & _ & _ & ->).
  apply sem_lit in H4 as [_ ->].
  destruct H as (s4 & g5 & H5 & H). apply sem_plus_cls in H5 as (_ & _ & _ & _ & ->).
  destruct H as (s5 & g6 & [_ ->] & H).
  destruct H as (s6 & g7 & H7 & H). apply sem_plus_cls in H7 as (_ & _ & _ & _ & ->).
  apply sem_grp in H as (p & g8 & E & H & Hg).
  apply sem_plus_cls in H as (p' & Hp & Hne & _ & ->).
  rewrite E in Hp. apply str_app_inv_tail in Hp. subst p'.
  unfold group. rewrite Hg. cbn. exact Hne.
Qed.

Lemma hierarchy_fold_parent (names : gset string) (kw content : string) (ms : list rmatch) :
  (forall m, m ∈ ms -> match_of (hierarchy_pattern kw) content m) ->
  forall h,
    (forall t p, h !! t = Some p -> p <> "") ->
    forall t p, fold_left (hierarchy_step names) ms h !! t = Some p -> p <> "".
Proof.
  induction ms as [|m ms IH]; intros Hms h Hh t p; cbn [fold_left]; [apply Hh|].
  apply IH; [intros m' Hm'; apply Hms; now right|].
  intros t' p'. unfold hierarchy_step.
  destruct (bool_decide (group 1 m ∈ names)); [|apply Hh].
  destruct (decide (group 1 m = t')) as [->|Hne].
  - rewrite lookup_insert_eq. intros H. injection H as <-.
    assert (Hp : group 2 m <> "") by (eapply hierarchy_pattern_parent, Hms; left).
    now destruct (_ || _).
  - rewrite lookup_insert_ne by exact Hne. apply Hh.
Qed.

Lemma hierarchy_parent (content : string) (names : gset string) (t p : string) :
  build_template_hierarchy content names !! t = Some p -> p <> "".
Proof.
  unfold build_template_hierarchy. cbn [fold_left].
  apply (hierarchy_fold_parent names "public abstract class " content).
  - intros m. apply finditer_sound.
  - apply (hierarchy_fold_parent names "public class " content).
    + intros m. apply finditer_sound.
    + intros t' p'. rewrite lookup_empty. discriminate.
Qed.

Lemma build_inheritance_lookup (h : gmap string string) (names : list string) :
  forall (acc : gmap string (list string)) (t : string) (chain : list string),
    fold_left (fun inheritance tname =>
      if bool_decide (tname ∈ dom h)
      then <[tname := get_inheritance_chain tname h]> inheritance
      else inheritance) names acc !! t = Some chain ->
    acc !! t = Some chain \/
    (t ∈ names /\ t ∈ dom h /\ chain = get_inheritance_chain t h).
Proof.
  induction names as [|n names IH]; intros acc t chain H; cbn [fold_left] in H; [now left|].
  apply IH in H as [H|(Hin & Hd & ->)]; [|right; split; [now right|auto]].
  destruct (bool_decide (n ∈ dom h)) eqn:E; [|now left].
  apply bool_decide_eq_true in E.
  destruct (decide (n = t)) as [->|Hne].
  - rewrite lookup_insert_eq in H. injection H as <-. right. split; [left|auto].
  - rewrite lookup_insert_ne in H by exact Hne. now left.
Qed.

(** The chain of a name with a recorded parent. *)
Lemma chain_with_parent (h : gmap string string) (t p : string) :
  h !! t = Some p -> p <> "" ->
  if String.eqb p t then get_inheritance_chain t h = [t]
  else exists a, get_inheritance_chain t h = a ++ [p; t].
Proof.
  intros Ht Hp. unfold get_inheritance_chain. cbn [chain_loop]. rewrite Ht.
  apply String.eqb_neq in Hp. rewrite Hp.
  destruct (String.eqb_spec p t) as [->|Hne].
  - rewrite bool_decide_eq_true_2 by left. reflexivity.
  - rewrite bool_decide_eq_false_2
      by (intros Hin; apply list_elem_of_singleton in Hin; contradiction).
    destruct (chain_loop_shape h (size h) [t] p (size h)) as (more & _ & Hr & _).
    + cbn [list_to_set]. rewrite union_empty_r_L, <- size_dom.
      assert (Hlt : size (dom h ∖ ({[t]} ∪ ∅)) < size (dom h ∖ ∅)).
      { apply size_difference_shrinks; [apply elem_of_dom; eauto|apply not_elem_of_empty]. }
      rewrite union_empty_r_L, difference_empty_L in Hlt. exact Hlt.
    + lia.
    + apply NoDup_cons. split; [|apply NoDup_singleton].
      intros Hin. apply list_elem_of_singleton in Hin. congruence.
    + intros x Hx. apply list_elem_of_singleton in Hx. subst x. apply elem_of_dom; eauto.
    + intros i x y Hx Hy. destruct i as [|[|i]]; cbn in Hx, Hy; try discriminate.
      injection Hx as <-. injection Hy as <-. exact Ht.
    + cbn [app] in Hr |- *. rewrite Hr. exists (rev more).
      change (t :: p :: more) with ([t; p] ++ more). rewrite rev_app_distr. reflexivity.
Qed.

End WalkShapeFacts.

Import Shapes WalkShapeFacts.

(** X23.  The flattened fields of a class are the fields its walk's classes
    declare themselves, the class reached last first and the class asked
    for last.  The walk starts at the class asked for, and every name of
    the walk is followed by the base its parse records, which is no stop
    base. *)
Theorem flattened_fields_follow_the_walk (content class_name : string) :
  let names := walk_names content class_name in
  collect_all_fields content class_name = flat_map (own_fields content) (rev names) /\
  (exists rest, names = class_name :: rest) /\
  (forall a x y b, names = a ++ x :: y :: b ->
     exists info, parse_class_from_dump content x true = Some info /\
       ci_base info = Some y /\ (y ∉ stop_bases) /\ y <> "").
Proof.
  cbv zeta. unfold collect_all_fields, walk_names.
  destruct (collect_run_total content class_name) as [[[fields visited] parsed] Hr].
  rewrite Hr. pose proof Hr as Hr'. unfold collect_all_fields_run in Hr'.
  apply collect_rec_shape in Hr' as (Hf & Hhead & Hlink).
  split; [exact Hf|]. split; [|exact Hlink].
  destruct Hhead as [->|H]; [|exact H].
  exfalso. unfold collect_all_fields_run, walk_fuel in Hr.
  cbn [collect_all_fields_rec] in Hr.
  destruct (decide (class_name ∈ (∅ : gset string))) as [Hin|_];
    [now apply not_elem_of_empty in Hin|].
  destruct (parse_class_from_dump content class_name true) as [info|]; [|discriminate].
  destruct (ci_base info) as [base|]; [|discriminate].
  destruct (negb _ && negb _); [|discriminate].
  destruct (collect_all_fields_rec _ content base _) as [[[i v] p]|]; discriminate.
Qed.

(** X24.  An entry of the inheritance map of a built schema belongs to a
    template name of the dump with a recorded parent; it is the chain of
    that name, which ends with the parent and the name, or is the name
    alone when the name is recorded as its own parent. *)
Theorem schema_inheritance_entries (content : string) (schema : Schema)
    (t : string) (chain : list string) :
  build_schema content = Some schema ->
  s_inheritance schema !! t = Some chain ->
  let hierarchy :=
    build_template_hierarchy content (list_to_set (parse_all_templates content)) in
  t ∈ parse_all_templates content /\
  chain = get_inheritance_chain t hierarchy /\
  exists p, hierarchy !! t = Some p /\ p <> "" /\
    if String.eqb p t then chain = [t] else exists a, chain = a ++ [p; t].
Proof.
  intros Hb Hc hierarchy. unfold build_schema in Hb.
  destruct (parse_all_enums content) as [enums|]; [|discriminate].
  destruct (parse_all_structs content) as [structs|]; [|discriminate].
  simpl in Hb. injection Hb as <-. cbn [s_inheritance] in Hc.
  unfold build_inheritance in Hc. fold hierarchy in Hc.
  apply build_inheritance_lookup in Hc as [Hc|(Hin & Hd & ->)];
    [rewrite lookup_empty in Hc; discriminate|].
  split; [exact Hin|]. split; [reflexivity|].
  apply elem_of_dom in Hd as [p Hp]. exists p. split; [exact Hp|].
  assert (Hne : p <> "") by exact (hierarchy_parent content _ t p Hp).
  split; [exact Hne|]. now apply chain_with_parent.
Qed.

Lemma schema_inheritance_entries_witness :
  exists a, ["ScriptableObject"; "BaseTemplate"; "ChildTemplate"] =
            a ++ ["BaseTemplate"; "ChildTemplate"].
Proof.
  assert (Hv : build_schema base_child_dump = Some base_child_schema)
    by (vm_compute; reflexivity).
  destruct (schema_inheritance_entries base_child_dump base_child_schema "ChildTemplate"
              ["ScriptableObject"; "BaseTemplate"; "ChildTemplate"] Hv)
    as (_ & _ & p & Hp & _ & H).
  - vm_compute. reflexivity.
  - assert (Ep : p = "BaseTemplate").
    { assert (Hh : build_template_hierarchy base_child_dump
                     (list_to_set (parse_all_templates base_child_dump)) !! "ChildTemplate"
                   = Some "BaseTemplate") by (vm_compute; reflexivity).
      rewrite Hh in Hp. now injection Hp as <-. }
    subst p. exact H.
Defined.
